(** * electro.js: the physics kernel of the electrostatics animation

    A shallow embedding of the numerical kernel of [src/electro.js]
    (the second, magnet-aware version of the script: lines 272-519):
    [electricFieldAt], [magneticFieldAt], [totalMagneticFieldAt],
    [computeAccelerations], [stepPhysics], [stepPhysicsRK4] and
    [stepPhysicsUsingFields].

    The functions are written once, over an interface [Number] of the
    arithmetic the script uses, and read at two instances:

    - [Float64 L]: ECMAScript Numbers, that is IEEE 754 binary64 with
      round-to-nearest-even, as Rocq's primitive floats.  The operators
      [+ - * /] and [>] and the square root [Math.sqrt] are the IEEE 754
      ones.  [Math.hypot],
      [Math.cos] and [Math.sin] are implementation-approximated in
      ECMAScript, so they are taken from a record [L : Libm]; theorems
      about [Float64 L] hold for every [L] with the stated properties.
    - [Exact]: the real numbers, the arithmetic the formulas of the
      specification are written in.  A division by zero has no value in
      the reals, where binary64 returns an infinity or [NaN]: the
      statements about [Exact] carry hypotheses that keep the divisors
      away from zero (masses other than zero, no two charges at one
      place unless the softening is not zero), and what the script does
      at the singular inputs is stated on [Float64].

    The charge array is a [list] of records, read with [!!] and updated
    in place with [alter]; every loop of the script is a [foldl] over the
    indices it visits, in the order it visits them.

    After the kernel come the [stepPhysics] of the first version of the
    script (lines 18-82) and the page around the kernel (lines 522-757):
    the buttons, the mouse handlers and the animation loop, on ECMAScript
    Numbers. *)

From Stdlib Require Import Floats ZArith Reals Lra.
From stdpp Require Import base list.

(** ** The arithmetic *)

Class Number (T : Type) := {
  num_0 : T;
  num_1 : T;
  num_2 : T;
  num_3 : T;
  num_6 : T;
  num_half : T;                (* the literal 0.5 *)
  num_tenth : T;               (* the literal 0.1 *)
  num_2000 : T;
  nadd : T -> T -> T;
  nsub : T -> T -> T;
  nmul : T -> T -> T;
  ndiv : T -> T -> T;
  nneg : T -> T;               (* unary minus *)
  nsqrt : T -> T;              (* Math.sqrt *)
  ngt : T -> T -> bool;        (* the comparison [a > b] *)
  hypot : T -> T -> T;         (* Math.hypot, two arguments *)
  ncos : T -> T;               (* Math.cos *)
  nsin : T -> T                (* Math.sin *)
}.

Declare Scope num_scope.
Delimit Scope num_scope with num.
Infix "+" := nadd : num_scope.
Infix "-" := nsub : num_scope.
Infix "*" := nmul : num_scope.
Infix "/" := ndiv : num_scope.
Notation "- a" := (nneg a) : num_scope.

(** The library functions ECMAScript leaves to the implementation. *)
Record Libm := {
  lm_hypot : float -> float -> float;
  lm_cos : float -> float;
  lm_sin : float -> float
}.

(** ECMAScript Numbers.  [0.1] is the binary64 value nearest to one tenth. *)
Definition Float64 (L : Libm) : Number float := {|
  num_0 := 0%float;
  num_1 := 1%float;
  num_2 := 2%float;
  num_3 := 3%float;
  num_6 := 6%float;
  num_half := 0.5%float;
  num_tenth := 0x1.999999999999ap-4%float;
  num_2000 := 2000%float;
  nadd := PrimFloat.add;
  nsub := PrimFloat.sub;
  nmul := PrimFloat.mul;
  ndiv := PrimFloat.div;
  nneg := PrimFloat.opp;
  nsqrt := PrimFloat.sqrt;
  ngt := fun a b => PrimFloat.ltb b a;
  hypot := lm_hypot L;
  ncos := lm_cos L;
  nsin := lm_sin L
|}.

(** A reference [Libm], used to run the kernel on concrete inputs:
    [hypot] by the defining formula, [cos] and [sin] by their Taylor
    polynomials of degree 12 and 13.  At the arguments the examples below
    evaluate them on ([hypot 0 0], [hypot 5 12], [cos 0], ...) the exact
    result is a binary64 value and these return it, as every conforming
    implementation does. *)
Definition hypot_ref (a b : float) : float :=
  PrimFloat.sqrt (a * a + b * b)%float.

Definition cos_ref (t : float) : float :=
  let u := (t * t)%float in
  (1 - u / 2 * (1 - u / 12 * (1 - u / 30 * (1 - u / 56 *
    (1 - u / 90 * (1 - u / 132))))))%float.

Definition sin_ref (t : float) : float :=
  let u := (t * t)%float in
  (t * (1 - u / 6 * (1 - u / 20 * (1 - u / 42 * (1 - u / 72 *
    (1 - u / 110 * (1 - u / 156)))))))%float.

Definition libm_ref : Libm :=
  {| lm_hypot := hypot_ref; lm_cos := cos_ref; lm_sin := sin_ref |}.

(** Exact real arithmetic.  It has no rounding, no overflow and no [NaN].
    [Rdiv] and [sqrt] are total functions in Rocq ([x / 0 = 0] and
    [sqrt x = 0] for a negative [x]); these values mean nothing, and the
    statements about [Exact] keep away from them by hypothesis. *)
Definition Rgtb (a b : R) : bool := if Rlt_dec b a then true else false.

Definition Exact : Number R := {|
  num_0 := 0%R;
  num_1 := 1%R;
  num_2 := 2%R;
  num_3 := 3%R;
  num_6 := 6%R;
  num_half := (1 / 2)%R;
  num_tenth := (1 / 10)%R;
  num_2000 := 2000%R;
  nadd := Rplus;
  nsub := Rminus;
  nmul := Rmult;
  ndiv := Rdiv;
  nneg := Ropp;
  nsqrt := sqrt;
  ngt := Rgtb;
  hypot := fun a b => sqrt (a * a + b * b)%R;
  ncos := cos;
  nsin := sin
|}.

(** ** The data model *)

Module Charge.
Record t (T : Type) := mk {
  x : T; y : T;              (* position *)
  vx : T; vy : T;            (* velocity *)
  ax : T; ay : T;            (* acceleration, rewritten by every step *)
  q : T;                     (* signed charge *)
  m : T;                     (* mass *)
  pinned : bool
}.
Arguments mk {T}.
Arguments x {T}. Arguments y {T}. Arguments vx {T}. Arguments vy {T}.
Arguments ax {T}. Arguments ay {T}. Arguments q {T}. Arguments m {T}.
Arguments pinned {T}.
End Charge.

Module Magnet.
Record t (T : Type) := mk {
  x : T; y : T;
  angle : T;
  strength : T;
  pinned : bool
}.
Arguments mk {T}.
Arguments x {T}. Arguments y {T}. Arguments angle {T}.
Arguments strength {T}. Arguments pinned {T}.
End Magnet.

(** The options object: a key that is absent (or [undefined]) is [None],
    and [options.key ?? d] is [default d]. *)
Module Options.
Record t (T : Type) := mk {
  k : option T;
  softening : option T;
  damping : option T;
  maxAccel : option T
}.
Arguments mk {T}.
Arguments k {T}. Arguments softening {T}. Arguments damping {T}.
Arguments maxAccel {T}.
Definition empty {T} : t T := mk None None None None.
End Options.

(** The objects [{x, y, vx, vy}] that [stepPhysicsRK4] builds for
    [state0] and for the stage derivatives [k1] .. [k4]. *)
Module State.
Record t (T : Type) := mk { x : T; y : T; vx : T; vy : T }.
Arguments mk {T}.
Arguments x {T}. Arguments y {T}. Arguments vx {T}. Arguments vy {T}.
End State.

(** ** The kernel *)

Section Kernel.
Context {T : Type} {NT : Number T}.
Local Open Scope num_scope.

Definition setAccel (c : Charge.t T) (a : T * T) : Charge.t T :=
  Charge.mk (Charge.x c) (Charge.y c) (Charge.vx c) (Charge.vy c)
            a.1 a.2 (Charge.q c) (Charge.m c) (Charge.pinned c).

(** Componentwise [a + d] of two vectors. *)
Definition vadd (a d : T * T) : T * T := (a.1 + d.1, a.2 + d.2).

(** [c.ax += d.1; c.ay += d.2] *)
Definition addAccel (d : T * T) (c : Charge.t T) : Charge.t T :=
  setAccel c (vadd (Charge.ax c, Charge.ay c) d).

(** [c.ax = 0; c.ay = 0] *)
Definition zeroAccel (c : Charge.t T) : Charge.t T :=
  setAccel c (num_0, num_0).

Definition setMotion (c : Charge.t T) (s : State.t T) : Charge.t T :=
  Charge.mk (State.x s) (State.y s) (State.vx s) (State.vy s)
            (Charge.ax c) (Charge.ay c) (Charge.q c) (Charge.m c)
            (Charge.pinned c).

(** *** FieldEvaluator (electro.js 274-315) *)

Definition electricFieldAt (px py : T) (charges : list (Charge.t T))
    (options : Options.t T) : T * T :=
  let k := default num_1 (Options.k options) in
  let eps := default num_tenth (Options.softening options) in
  foldl (fun E c =>
           let dx := px - Charge.x c in
           let dy := py - Charge.y c in
           let r2 := dx * dx + dy * dy + eps * eps in
           let invR3 := num_1 / (nsqrt r2 * r2) in
           let factor := k * Charge.q c * invR3 in
           (E.1 + factor * dx, E.2 + factor * dy))
        (num_0, num_0) charges.

Definition magneticFieldAt (px py : T) (magnet : Magnet.t T)
    (options : Options.t T) : T * T :=
  let soft := default num_tenth (Options.softening options) in
  let dx := px - Magnet.x magnet in
  let dy := py - Magnet.y magnet in
  let r2 := dx * dx + dy * dy + soft * soft in
  let r := nsqrt r2 in
  let mx := Magnet.strength magnet * ncos (Magnet.angle magnet) in
  let my := Magnet.strength magnet * nsin (Magnet.angle magnet) in
  let dot := mx * dx + my * dy in
  let r5 := r2 * r2 * r in
  let r3 := r2 * r in
  (num_3 * dot * dx / r5 - mx / r3, num_3 * dot * dy / r5 - my / r3).

Definition totalMagneticFieldAt (px py : T) (magnets : list (Magnet.t T))
    (options : Options.t T) : T * T :=
  foldl (fun B mag =>
           vadd B (magneticFieldAt px py mag options))
        (num_0, num_0) magnets.

(** *** ForceAccumulator (electro.js 317-382) *)

(** The force on [a] due to [b]: [(fx, fy)] of lines 331-338. *)
Definition pairForce (k soft : T) (a b : Charge.t T) : T * T :=
  let dx := Charge.x a - Charge.x b in
  let dy := Charge.y a - Charge.y b in
  let r2 := dx * dx + dy * dy + soft * soft in
  let r := nsqrt r2 in
  let invR3 := num_1 / (r * r2) in
  let force := k * Charge.q a * Charge.q b * invR3 in
  (force * dx, force * dy).

(** The two acceleration increments as first assigned (lines 341-342 and
    350-351), before the clamp. *)
Definition rawIncA (k soft : T) (a b : Charge.t T) : T * T :=
  let f := pairForce k soft a b in
  (f.1 / Charge.m a, f.2 / Charge.m a).

Definition rawIncB (k soft : T) (a b : Charge.t T) : T * T :=
  let f := pairForce k soft a b in
  (- f.1 / Charge.m b, - f.2 / Charge.m b).

(** [if (mag > maxAccel) { s = maxAccel / mag; inc *= s }] *)
Definition clamp (maxAccel : T) (inc : T * T) : T * T :=
  let mag := hypot inc.1 inc.2 in
  if ngt mag maxAccel
  then let s := maxAccel / mag in (inc.1 * s, inc.2 * s)
  else inc.

(** The body of the inner loop for the pair [(i, j)]. *)
Definition pairStep (k soft maxAccel : T) (i j : nat)
    (charges : list (Charge.t T)) : list (Charge.t T) :=
  match charges !! i, charges !! j with
  | Some a, Some b =>
      let incA := clamp maxAccel (rawIncA k soft a b) in
      let incB := clamp maxAccel (rawIncB k soft a b) in
      alter (addAccel incB) j (alter (addAccel incA) i charges)
  | _, _ => charges
  end.

(** The magnetic term of lines 368-380: the increment added to
    [(c.ax, c.ay)], or [None] when the guard fails and nothing is added. *)
Definition lorentz (magnets : list (Magnet.t T)) (options : Options.t T)
    (c : Charge.t T) : option (T * T) :=
  let B := totalMagneticFieldAt (Charge.x c) (Charge.y c) magnets options in
  let Bmag := hypot B.1 B.2 in
  let vmag := hypot (Charge.vx c) (Charge.vy c) in
  if ngt vmag num_0 && ngt Bmag num_0 then
    let perp_x := - Charge.vy c in
    let perp_y := Charge.vx c in
    let perp_mag := hypot perp_x perp_y in
    let fx := Charge.q c * (perp_x / perp_mag) * Bmag * vmag in
    let fy := Charge.q c * (perp_y / perp_mag) * Bmag * vmag in
    Some (fx / Charge.m c, fy / Charge.m c)
  else None.

Definition lorentzStep (magnets : list (Magnet.t T)) (options : Options.t T)
    (c : Charge.t T) : Charge.t T :=
  match lorentz magnets options c with
  | Some d => addAccel d c
  | None => c
  end.

(** [for (i = 0; i < N; i++) for (j = i + 1; j < N; j++) { ... }] *)
Definition pairLoop (k soft maxAccel : T) (N : nat)
    (charges : list (Charge.t T)) : list (Charge.t T) :=
  foldl (fun cs i =>
           foldl (fun cs j => pairStep k soft maxAccel i j cs)
                 cs (seq (S i) (N - S i)))
        charges (seq 0 N).

Definition computeAccelerations (charges : list (Charge.t T))
    (magnets : list (Magnet.t T)) (options : Options.t T)
    : list (Charge.t T) :=
  let k := default num_1 (Options.k options) in
  let soft := default num_tenth (Options.softening options) in
  let maxAccel := default num_2000 (Options.maxAccel options) in
  let N := length charges in
  let zeroed := foldl (fun cs i => alter zeroAccel i cs) charges (seq 0 N) in
  let paired := pairLoop k soft maxAccel N zeroed in
  foldl (fun cs i => alter (lorentzStep magnets options) i cs)
        paired (seq 0 N).

(** *** Semi-implicit Euler (electro.js 384-400) *)

(** The body of the integration loop, for one charge [p]. *)
Definition integrate (dt damping : T) (p : Charge.t T) : Charge.t T :=
  if Charge.pinned p then p
  else
    let vx1 := Charge.vx p + Charge.ax p * dt in
    let vy1 := Charge.vy p + Charge.ay p * dt in
    let vx2 := vx1 * damping in
    let vy2 := vy1 * damping in
    setMotion p (State.mk (Charge.x p + vx2 * dt) (Charge.y p + vy2 * dt)
                          vx2 vy2).

Definition stepPhysics (charges : list (Charge.t T))
    (magnets : list (Magnet.t T)) (dt : T) (options : Options.t T)
    : list (Charge.t T) :=
  let damping := default num_1 (Options.damping options) in
  integrate dt damping <$> computeAccelerations charges magnets options.

(** *** Fourth-order Runge-Kutta (electro.js 403-475) *)

(** [{x: c.x, y: c.y, vx: c.vx, vy: c.vy}] *)
Definition snapshot (c : Charge.t T) : State.t T :=
  State.mk (Charge.x c) (Charge.y c) (Charge.vx c) (Charge.vy c).

(** [{vx: c.ax, vy: c.ay, x: c.vx, y: c.vy}] *)
Definition derivative (c : Charge.t T) : State.t T :=
  State.mk (Charge.vx c) (Charge.vy c) (Charge.ax c) (Charge.ay c).

(** [s + h * d], field by field. *)
Definition advance (h : T) (s d : State.t T) : State.t T :=
  State.mk (State.x s + h * State.x d) (State.y s + h * State.y d)
           (State.vx s + h * State.vx d) (State.vy s + h * State.vy d).

(** The body of the three loops that move the charges to the next stage
    point; [h] is [0.5 * dt] for the stages 2 and 3 and [dt] for stage 4. *)
Definition stageStep (h : T) (state0 kprev : list (State.t T)) (i : nat)
    (charges : list (Charge.t T)) : list (Charge.t T) :=
  match charges !! i, state0 !! i, kprev !! i with
  | Some c, Some s, Some d =>
      if Charge.pinned c then charges
      else <[i := setMotion c (advance h s d)]> charges
  | _, _, _ => charges
  end.

(** [(a + 2*b + 2*c + d) / 6] *)
Definition rkMean (a b c d : T) : T :=
  (a + num_2 * b + num_2 * c + d) / num_6.

(** The body of the combining loop. *)
Definition combineStep (dt damping : T) (state0 k1 k2 k3 k4 : list (State.t T))
    (i : nat) (charges : list (Charge.t T)) : list (Charge.t T) :=
  match charges !! i, state0 !! i, k1 !! i, k2 !! i, k3 !! i, k4 !! i with
  | Some c, Some s, Some d1, Some d2, Some d3, Some d4 =>
      if Charge.pinned c then charges
      else
        let dxdt := rkMean (State.x d1) (State.x d2) (State.x d3) (State.x d4) in
        let dydt := rkMean (State.y d1) (State.y d2) (State.y d3) (State.y d4) in
        let dvxdt :=
          rkMean (State.vx d1) (State.vx d2) (State.vx d3) (State.vx d4) in
        let dvydt :=
          rkMean (State.vy d1) (State.vy d2) (State.vy d3) (State.vy d4) in
        <[i := setMotion c
                 (State.mk (State.x s + dt * dxdt) (State.y s + dt * dydt)
                           ((State.vx s + dt * dvxdt) * damping)
                           ((State.vy s + dt * dvydt) * damping))]> charges
  | _, _, _, _, _, _ => charges
  end.

Definition stepPhysicsRK4 (charges : list (Charge.t T))
    (magnets : list (Magnet.t T)) (dt : T) (options : Options.t T)
    : list (Charge.t T) :=
  let damping := default num_1 (Options.damping options) in
  let N := length charges in
  let state0 := snapshot <$> charges in
  let cs1 := computeAccelerations charges magnets options in
  let k1 := derivative <$> cs1 in
  let cs1' := foldl (fun cs i => stageStep (num_half * dt) state0 k1 i cs)
                    cs1 (seq 0 N) in
  let cs2 := computeAccelerations cs1' magnets options in
  let k2 := derivative <$> cs2 in
  let cs2' := foldl (fun cs i => stageStep (num_half * dt) state0 k2 i cs)
                    cs2 (seq 0 N) in
  let cs3 := computeAccelerations cs2' magnets options in
  let k3 := derivative <$> cs3 in
  let cs3' := foldl (fun cs i => stageStep dt state0 k3 i cs) cs3 (seq 0 N) in
  let cs4 := computeAccelerations cs3' magnets options in
  let k4 := derivative <$> cs4 in
  foldl (fun cs i => combineStep dt damping state0 k1 k2 k3 k4 i cs)
        cs4 (seq 0 N).

(** *** The field-based step (electro.js 478-519) *)

(** The body of the inner loop: the field [E] at charge [c], of index
    [i], after the charge of index [j] has been looked at. *)
Definition fieldAccum (k soft : T) (i : nat) (c : Charge.t T)
    (charges : list (Charge.t T)) (E : T * T) (j : nat) : T * T :=
  if decide (i = j) then E
  else match charges !! j with
       | Some o =>
           let dx := Charge.x c - Charge.x o in
           let dy := Charge.y c - Charge.y o in
           let r2 := dx * dx + dy * dy + soft * soft in
           let invR3 := num_1 / (nsqrt r2 * r2) in
           let factor := k * Charge.q o * invR3 in
           (E.1 + factor * dx, E.2 + factor * dy)
       | None => E
       end.

(** The inner loop: the field at charge [i] from all the other charges. *)
Definition fieldFromOthers (k soft : T) (i : nat) (c : Charge.t T)
    (charges : list (Charge.t T)) : T * T :=
  foldl (fieldAccum k soft i c charges) (num_0, num_0)
        (seq 0 (length charges)).

Definition fieldStep (k soft : T) (i : nat) (charges : list (Charge.t T))
    : list (Charge.t T) :=
  match charges !! i with
  | Some c =>
      let E := fieldFromOthers k soft i c charges in
      let fx := Charge.q c * E.1 in
      let fy := Charge.q c * E.2 in
      <[i := setAccel c (fx / Charge.m c, fy / Charge.m c)]> charges
  | None => charges
  end.

Definition stepPhysicsUsingFields (charges : list (Charge.t T)) (dt : T)
    (options : Options.t T) : list (Charge.t T) :=
  let k := default num_1 (Options.k options) in
  let soft := default num_tenth (Options.softening options) in
  let damping := default num_1 (Options.damping options) in
  let N := length charges in
  let zeroed := foldl (fun cs i => alter zeroAccel i cs) charges (seq 0 N) in
  let fielded := foldl (fun cs i => fieldStep k soft i cs) zeroed (seq 0 N) in
  integrate dt damping <$> fielded.

End Kernel.

(** ** Notions used in the statements

    [computeAccelerations] only ever changes [ax] and [ay].  A charge array
    in the middle of a step is therefore described by the array the step
    started from and a table [A] of accelerations, one entry per index
    ([withAcc]), and a loop by what it does to the table.  The staged
    derivatives [rk4_k1] .. [rk4_k4] are defined from the start array
    alone, not from the array the code mutates in place; [slopes] and
    [stagePoint] are the derivative and the stage points in the words of
    the specification. *)

(** A call of one of the two integrators, with its arguments. *)
Inductive Call (T : Type) : Type :=
  | Euler (magnets : list (Magnet.t T)) (dt : T) (options : Options.t T)
  | RK4 (magnets : list (Magnet.t T)) (dt : T) (options : Options.t T).
Arguments Euler {T}.
Arguments RK4 {T}.

Section Notions.
Context {T : Type} {NT : Number T}.
Local Open Scope num_scope.
Implicit Types (cs bs : list (Charge.t T)) (A : nat → T * T)
  (k : list (State.t T)).

(** The array [cs] with the accelerations of the table [A]. *)
Definition withAcc cs A : list (Charge.t T) :=
  imap (λ t c, setAccel c (A t)) cs.

(** The increment that the pair of [t] and [j] contributes to charge [t]:
    charge [t] is the [a] of the pair when [t < j] and its [b] otherwise. *)
Definition pairInc (k soft maxAccel : T) cs (t j : nat) : option (T * T) :=
  match cs !! t, cs !! j with
  | Some c, Some o =>
      Some (if decide (t < j) then clamp maxAccel (rawIncA k soft c o)
            else clamp maxAccel (rawIncB k soft o c))
  | _, _ => None
  end.

(** One more term of the running sum of charge [t]; nothing for [j = t]. *)
Definition accum (k soft maxAccel : T) cs (t : nat) (a : T * T) (j : nat)
    : T * T :=
  if decide (t = j) then a
  else match pairInc k soft maxAccel cs t j with
       | Some d => vadd a d
       | None => a
       end.

(** The effect of [pairStep i j] on the table. *)
Definition stepAcc (k soft maxAccel : T) cs (i j : nat) A : nat → T * T :=
  λ t, if decide (t = i) then accum k soft maxAccel cs t (A t) j
       else if decide (t = j) then accum k soft maxAccel cs t (A t) i
       else A t.

(** The acceleration of charge [t] after the pairwise loop. *)
Definition pairSum (k soft maxAccel : T) cs (t : nat) : T * T :=
  foldl (accum k soft maxAccel cs t) (num_0, num_0) (seq 0 (length cs)).

(** The sum of a list of numbers, added up from [0] in list order. *)
Definition sumList (l : list T) : T := foldl nadd num_0 l.

(** The term one charge adds to the field at [(px, py)], as the loop of
    [electricFieldAt] computes it. *)
Definition fieldTerm (k eps px py : T) (c : Charge.t T) : T * T :=
  let dx := px - Charge.x c in
  let dy := py - Charge.y c in
  let r2 := dx * dx + dy * dy + eps * eps in
  let invR3 := num_1 / (nsqrt r2 * r2) in
  let factor := k * Charge.q c * invR3 in
  (factor * dx, factor * dy).

(** The acceleration [computeAccelerations] leaves in charge [t]: the
    pairwise sum, plus the magnetic term when there is one. *)
Definition netAccel (magnets : list (Magnet.t T)) (options : Options.t T)
    cs (t : nat) : T * T :=
  let a := pairSum (default num_1 (Options.k options))
                   (default num_tenth (Options.softening options))
                   (default num_2000 (Options.maxAccel options)) cs t in
  match cs !! t with
  | Some c => match lorentz magnets options c with
              | Some d => vadd a d
              | None => a
              end
  | None => a
  end.

(** The charges at a stage point: every charge that is not pinned is put
    at [state0 + h * k], a pinned charge stays where it is. *)
Definition moved (h : T) cs k : list (Charge.t T) :=
  zip_with (λ c d, if Charge.pinned c then c
                   else setMotion c (advance h (snapshot c) d)) cs k.

(** The stage derivative [(dx/dt, dv/dt) = (v, a)] of every charge, the
    accelerations being those of the force accumulator at that point. *)
Definition stageDerivative cs (magnets : list (Magnet.t T))
    (options : Options.t T) : list (State.t T) :=
  derivative <$> computeAccelerations cs magnets options.

(** The four stage derivatives: at [state0], at [state0 + 0.5*dt*k1], at
    [state0 + 0.5*dt*k2] and at [state0 + dt*k3]. *)
Definition rk4_k1 cs magnets (dt : T) options : list (State.t T) :=
  stageDerivative cs magnets options.
Definition rk4_k2 cs magnets (dt : T) options : list (State.t T) :=
  stageDerivative (moved (num_half * dt) cs (rk4_k1 cs magnets dt options))
                  magnets options.
Definition rk4_k3 cs magnets (dt : T) options : list (State.t T) :=
  stageDerivative (moved (num_half * dt) cs (rk4_k2 cs magnets dt options))
                  magnets options.
Definition rk4_k4 cs magnets (dt : T) options : list (State.t T) :=
  stageDerivative (moved dt cs (rk4_k3 cs magnets dt options))
                  magnets options.

(** The scheme as the specification words it (4.4), written out field
    by field and without the helpers of the code, to compare the code
    with.  The derivative of the motion at a charge array:
    [dx/dt = v] and [dv/dt = a], where [a] is the acceleration that the
    force accumulator finds for the array. *)
Definition slopes cs (magnets : list (Magnet.t T)) (options : Options.t T)
    : list (State.t T) :=
  (λ c, {| State.x := Charge.vx c; State.y := Charge.vy c;
           State.vx := Charge.ax c; State.vy := Charge.ay c |})
  <$> computeAccelerations cs magnets options.

(** The charges at [state0 + h * k]: position and velocity of a charge
    that is not pinned are those of [cs] plus [h] times the derivative
    [k]; a pinned charge is left as it is. *)
Definition stagePoint (h : T) cs k : list (Charge.t T) :=
  zip_with (λ c d,
              if Charge.pinned c then c
              else {| Charge.x := Charge.x c + h * State.x d;
                      Charge.y := Charge.y c + h * State.y d;
                      Charge.vx := Charge.vx c + h * State.vx d;
                      Charge.vy := Charge.vy c + h * State.vy d;
                      Charge.ax := Charge.ax c; Charge.ay := Charge.ay c;
                      Charge.q := Charge.q c; Charge.m := Charge.m c;
                      Charge.pinned := Charge.pinned c |}) cs k.

(** [b] is the charge [c] at a stage point: same charge, mass and pin
    flag, and not moved if pinned. *)
Definition sameBody (c b : Charge.t T) : Prop :=
  Charge.q b = Charge.q c ∧ Charge.m b = Charge.m c
  ∧ Charge.pinned b = Charge.pinned c
  ∧ (Charge.pinned c = true → snapshot b = snapshot c).

(** What the stage loop does to the charge at index [i]. *)
Definition stageFn (h : T) (state0 k : list (State.t T)) (i : nat)
    (c : Charge.t T) : Charge.t T :=
  match state0 !! i, k !! i with
  | Some s, Some d =>
      if Charge.pinned c then c else setMotion c (advance h s d)
  | _, _ => c
  end.

(** What the combining loop does to the charge at index [i]. *)
Definition combineFn (dt damping : T) (state0 k1 k2 k3 k4 : list (State.t T))
    (i : nat) (c : Charge.t T) : Charge.t T :=
  match state0 !! i, k1 !! i, k2 !! i, k3 !! i, k4 !! i with
  | Some s, Some d1, Some d2, Some d3, Some d4 =>
      if Charge.pinned c then c
      else setMotion c
             (State.mk
                (State.x s + dt * rkMean (State.x d1) (State.x d2)
                                         (State.x d3) (State.x d4))
                (State.y s + dt * rkMean (State.y d1) (State.y d2)
                                         (State.y d3) (State.y d4))
                ((State.vx s + dt * rkMean (State.vx d1) (State.vx d2)
                                           (State.vx d3) (State.vx d4))
                 * damping)
                ((State.vy s + dt * rkMean (State.vy d1) (State.vy d2)
                                           (State.vy d3) (State.vy d4))
                 * damping))
  | _, _, _, _, _ => c
  end.

(** One call, on the array [cs]. *)
Definition call (cl : Call T) cs : list (Charge.t T) :=
  match cl with
  | Euler magnets dt options => stepPhysics cs magnets dt options
  | RK4 magnets dt options => stepPhysicsRK4 cs magnets dt options
  end.

(** The calls of [calls], one after the other, on the same array. *)
Definition run (calls : list (Call T)) cs : list (Charge.t T) :=
  foldl (λ l cl, call cl l) cs calls.

(** The component of the vector [E] across the line from [c1] to [c2],
    up to the length of the line: [E x (c2 - c1)].  It is zero exactly
    when [E] is parallel to the line. *)
Definition acrossLine (E : T * T) (c1 c2 : Charge.t T) : T :=
  E.1 * (Charge.y c2 - Charge.y c1) - E.2 * (Charge.x c2 - Charge.x c1).

(** The dot product of an acceleration with the velocity of a charge. *)
Definition alongVelocity (d : T * T) (c : Charge.t T) : T :=
  d.1 * Charge.vx c + d.2 * Charge.vy c.

(** The acceleration the field-based step assigns to charge [t]:
    [q * E / m], with [E] the field at the charge from the other charges. *)
Definition fieldAcc (k soft : T) cs (t : nat) : T * T :=
  match cs !! t with
  | Some c =>
      let E := fieldFromOthers k soft t c cs in
      (Charge.q c * E.1 / Charge.m c, Charge.q c * E.2 / Charge.m c)
  | None => (num_0, num_0)
  end.

(** No pairwise clamp fires: no increment of any pair exceeds
    [maxAccel]. *)
Definition noClampFires (k soft maxAccel : T) cs : Prop :=
  ∀ i j a b, cs !! i = Some a → cs !! j = Some b → i < j →
    ngt (hypot (rawIncA k soft a b).1 (rawIncA k soft a b).2) maxAccel = false
    ∧ ngt (hypot (rawIncB k soft a b).1 (rawIncB k soft a b).2) maxAccel = false.

End Notions.

(** ** Notions and inputs in exact arithmetic *)

Section ExactInputs.
Local Open Scope R_scope.
Implicit Types (c : Charge.t R) (cs : list (Charge.t R)).

(** The sum of a list of reals. *)
Definition Rsum (l : list R) : R := foldr Rplus 0 l.

(** The contribution of one charge to the field at [(px, py)], as the
    specification writes it: [k * q * D / (|D|^2 + softening^2)^1.5] with
    [D = (px, py) - (c.x, c.y)]. *)
Definition coulombTerm (k soft px py : R) c : R * R :=
  let dx := px - Charge.x c in
  let dy := py - Charge.y c in
  let d := Rpower (dx * dx + dy * dy + soft * soft) (3 / 2) in
  (k * Charge.q c * dx / d, k * Charge.q c * dy / d).

(** The point [(px, py)] is off the charges: for every charge the
    [r2 = dx*dx + dy*dy + soft*soft] of the code is positive, and no
    term of the field is a division by zero.  With a softening other
    than zero every point is off the charges. *)
Definition offCharges (soft px py : R) cs : Prop :=
  Forall (λ c, 0 < (px - Charge.x c) * (px - Charge.x c)
                   + (py - Charge.y c) * (py - Charge.y c) + soft * soft) cs.

(** No two charges of the array are at the same place, unless the
    softening is not zero: the [r2] of every pair is positive. *)
Definition apart (soft : R) cs : Prop :=
  ∀ (i j : nat) a b, cs !! i = Some a → cs !! j = Some b → i ≠ j →
    0 < (Charge.x a - Charge.x b) * (Charge.x a - Charge.x b)
        + (Charge.y a - Charge.y b) * (Charge.y a - Charge.y b) + soft * soft.

(** No charge is at the place of a magnet, unless the softening is not
    zero: the [r2] of [magneticFieldAt] is positive at every charge. *)
Definition offMagnets (soft : R) cs (magnets : list (Magnet.t R)) : Prop :=
  Forall (λ c,
            Forall (λ g, 0 < (Charge.x c - Magnet.x g) * (Charge.x c - Magnet.x g)
                             + (Charge.y c - Magnet.y g)
                               * (Charge.y c - Magnet.y g) + soft * soft)
                   magnets) cs.

(** A charge with the fields the script gives it. *)
Definition rcharge (x y vx vy q m : R) (pinned : bool) : Charge.t R :=
  Charge.mk x y vx vy 0 0 q m pinned.

(** [{softening: 0}] *)
Definition no_soft : Options.t R := Options.mk None (Some 0) None None.

(** Two unit charges of unit mass, one apart. *)
Definition near_pair : list (Charge.t R) :=
  [rcharge 0 0 0 0 1 1 false; rcharge 1 0 0 0 1 1 false].

(** A charge at [(1, 2)] with velocity [(3, 4)]. *)
Definition coasting : Charge.t R := rcharge 1 2 3 4 1 1 false.

(** A dipole: [+3] at [(0, 0)] and [-3] at [(7, 1)]. *)
Definition rplus_pole : Charge.t R := rcharge 0 0 0 0 3 1 false.
Definition rminus_pole : Charge.t R := rcharge 7 1 0 0 (-3) 1 false.

(** A charge [q = 9] at [(5, 0)]. *)
Definition rnine : Charge.t R := rcharge 5 0 0 0 9 1 false.

(** Two unit charges of unit mass three apart, the first one moving, and
    the options [{softening: 0, damping: 0.5}]. *)
Definition passing : list (Charge.t R) :=
  [rcharge 1 0 3 4 1 1 false; rcharge 4 0 0 0 1 1 false].
Definition half_damped : Options.t R :=
  Options.mk None (Some 0) (Some (1 / 2)) None.

(** A unit magnet at the origin along the x axis, a charge moving past
    it at [(1, 0)], and a charge at rest there. *)
Definition rbar : Magnet.t R := Magnet.mk 0 0 0 1 false.
Definition rmover : Charge.t R := rcharge 1 0 3 4 1 1 false.
Definition resting : Charge.t R := rcharge 1 0 0 0 1 1 false.

End ExactInputs.

(** ** Notions and inputs in binary64 *)

Section Binary64Inputs.
Local Open Scope float_scope.

(** The two zeros of binary64. *)
Definition isZero (a : float) : Prop := a = 0 ∨ a = -0.

(** The values of binary64 other than the infinities and [NaN]. *)
Definition finiteSF (x : spec_float) : bool :=
  match x with
  | S754_zero _ | S754_finite _ _ _ => true
  | _ => false
  end.

(** ECMAScript: [Math.hypot] of zeros, of either sign, is [+0]. *)
Definition hypotOfZeros (L : Libm) : Prop :=
  ∀ a b, isZero a → isZero b → lm_hypot L a b = 0.

(** [{x:0, y:0, q:1, m:1, vx:0, vy:0, pinned:false}].  The object has no
    [ax] and [ay] yet; whatever is read for them is overwritten. *)
Definition scenario_free (ax0 ay0 : float) : Charge.t float :=
  Charge.mk 0 0 0 0 ax0 ay0 1 1 false.

(** [{x:10, y:0, q:1, m:1, pinned:true}].  The object has no [vx], [vy],
    [ax], [ay]; an absent field read in arithmetic is [NaN], and the
    statement about the scenario holds for every value of them. *)
Definition scenario_pinned (vx1 vy1 ax1 ay1 : float) : Charge.t float :=
  Charge.mk 10 0 vx1 vy1 ax1 ay1 1 1 true.

(** [{k: 1, softening: 0, maxAccel: Infinity, damping: 1}] *)
Definition scenario_options : Options.t float :=
  Options.mk (Some 1) (Some 0) (Some 1) (Some infinity).

(** A charge with the fields the script gives it; [ax] and [ay] do not
    exist before the first step and are read as [NaN]. *)
Definition charge (x y vx vy q m : float) (pinned : bool) : Charge.t float :=
  Charge.mk x y vx vy nan nan q m pinned.

(** A unit charge of mass [1] at the origin, and a charge [q] of mass [2]
    ten to its right. *)
Definition light : Charge.t float := charge 0 0 0 0 1 1 false.
Definition heavy (q : float) : Charge.t float := charge 10 0 0 0 q 2 false.

(** The two charges of the scenario, as the script would hold them. *)
Definition scenario : list (Charge.t float) :=
  [scenario_free nan nan; scenario_pinned nan nan nan nan].

(** Two charges [q = 3], five apart, unit masses. *)
Definition threes : list (Charge.t float) :=
  [charge 0 0 0 0 3 1 false; charge 5 0 0 0 3 1 false].

(** One charge at the origin with velocity [(0.1, 0)]. *)
Definition drifting : Charge.t float :=
  charge 0 0 0x1.999999999999ap-4 0 1 1 false.

(** A dipole: [+3] at [(0, 0)] and [-3] at [(7, 1)]. *)
Definition plus_pole : Charge.t float := charge 0 0 0 0 3 1 false.
Definition minus_pole : Charge.t float := charge 7 1 0 0 (-3) 1 false.

(** A magnet of strength [10] at the origin, along the x axis. *)
Definition bar : Magnet.t float := Magnet.mk 0 0 0 10 false.

(** A unit charge at [(1, 0)] with velocity [(5, 12)]. *)
Definition mover : Charge.t float := charge 1 0 5 12 1 1 false.

(** [{softening: 0}] *)
Definition unsoftened : Options.t float := Options.mk None (Some 0) None None.

(** A charge [q = 9] at [(5, 0)]. *)
Definition nine : Charge.t float := charge 5 0 0 0 9 1 false.

(** A free unit charge at the origin and a pinned one at [(10, 0)], both
    at rest, and the options
    [{k: 1, softening: 0, damping: 0.5, maxAccel: Infinity}]. *)
Definition tethered : list (Charge.t float) :=
  [charge 0 0 0 0 1 1 false; charge 10 0 0 0 1 1 true].
Definition tethered_options : Options.t float :=
  Options.mk (Some 1) (Some 0) (Some 0.5) (Some infinity).

(** The real number that a binary64 value stands for: [m * 2^e] with
    its sign ([0] for the infinities and [NaN], which stand for none). *)
Definition SF2R (x : spec_float) : R :=
  match x with
  | S754_finite s m e =>
      let v := (IZR (Z.pos m)
                * (if (0 <=? e)%Z then IZR (2 ^ e) else / IZR (2 ^ (- e))))%R in
      if s then (- v)%R else v
  | _ => 0%R
  end.

Definition toR (a : float) : R := SF2R (Prim2SF a).

End Binary64Inputs.

(** ** The first script (electro.js 1-271)

    The file holds two versions of the script.  The first has no magnets:
    its [electricFieldAt] and [stepPhysicsUsingFields] are those of the
    second, word for word, and its [stepPhysics] does the pairwise loop
    itself. *)

Module Legacy.
Section FirstScript.
Context {T : Type} {NT : Number T}.
Local Open Scope num_scope.

(** [stepPhysics(charges, dt, options)] (electro.js 18-82): the zeroing
    loop, the pairwise loop, whose body is that of [computeAccelerations],
    and the integration loop. *)
Definition stepPhysics (charges : list (Charge.t T)) (dt : T)
    (options : Options.t T) : list (Charge.t T) :=
  let k := default num_1 (Options.k options) in
  let soft := default num_tenth (Options.softening options) in
  let damping := default num_1 (Options.damping options) in
  let maxAccel := default num_2000 (Options.maxAccel options) in
  let N := length charges in
  let zeroed := foldl (fun cs i => alter zeroAccel i cs) charges (seq 0 N) in
  let paired := pairLoop k soft maxAccel N zeroed in
  integrate dt damping <$> paired.

End FirstScript.
End Legacy.

(** ** More notions *)

Section Bodies.
Context {T : Type}.

(** [c'] is [c] but for [ax] and [ay]. *)
Definition sameButAccel (c c' : Charge.t T) : Prop :=
  Charge.x c' = Charge.x c ∧ Charge.y c' = Charge.y c
  ∧ Charge.vx c' = Charge.vx c ∧ Charge.vy c' = Charge.vy c
  ∧ Charge.q c' = Charge.q c ∧ Charge.m c' = Charge.m c
  ∧ Charge.pinned c' = Charge.pinned c.

(** [c'] has the charge, the mass and the pin flag of [c]. *)
Definition sameKind (c c' : Charge.t T) : Prop :=
  Charge.q c' = Charge.q c ∧ Charge.m c' = Charge.m c
  ∧ Charge.pinned c' = Charge.pinned c.

End Bodies.

Section ExactTotals.
Local Open Scope R_scope.

(** The Euclidean length of a vector. *)
Definition norm2 (a : R * R) : R := sqrt (a.1 * a.1 + a.2 * a.2).

(** The sum over the charges of mass times acceleration, and of mass
    times velocity. *)
Definition totalForce (l : list (Charge.t R)) : R * R :=
  (Rsum ((λ c, Charge.m c * Charge.ax c) <$> l),
   Rsum ((λ c, Charge.m c * Charge.ay c) <$> l)).

Definition totalMomentum (l : list (Charge.t R)) : R * R :=
  (Rsum ((λ c, Charge.m c * Charge.vx c) <$> l),
   Rsum ((λ c, Charge.m c * Charge.vy c) <$> l)).

End ExactTotals.

(** The place of a binary64 value in the order of the numbers: the
    triples are compared lexicographically.  The two zeros share a
    place; [NaN] has none, and is put with them. *)
Definition SFkey (x : spec_float) : Z * Z * Z :=
  match x with
  | S754_infinity true => (-2, 0, 0)%Z
  | S754_finite true m e => (-1, - e, Z.neg m)%Z
  | S754_zero _ | S754_nan => (0, 0, 0)%Z
  | S754_finite false m e => (1, e, Z.pos m)%Z
  | S754_infinity false => (2, 0, 0)%Z
  end.

Definition lexlt (a b : Z * Z * Z) : Prop :=
  (a.1.1 < b.1.1
   ∨ (a.1.1 = b.1.1 ∧ (a.1.2 < b.1.2 ∨ (a.1.2 = b.1.2 ∧ a.2 < b.2))))%Z.

Definition nanSF (x : spec_float) : bool :=
  match x with S754_nan => true | _ => false end.

(** ** The page around the kernel (electro.js 522-757)

    The event handlers and the animation loop of the second script, on
    ECMAScript Numbers.  What a handler reads from the page - the
    rectangle of the canvas, the pointer of a mouse event, the Number
    that [parseFloat] makes of an input field, the time stamp of a
    frame - is an argument of its model.  Of [draw] the vector of a
    field arrow is modelled, and not what is painted. *)

(** [Math.min] and [Math.max] of two arguments: [NaN] if one of them is
    [NaN], and [-0] below [+0]. *)
Module Math.
Definition min (a b : float) : float :=
  if is_nan a || is_nan b then nan
  else if (a <? b)%float then a
  else if (b <? a)%float then b
  else if get_sign a then a else b.

Definition max (a b : float) : float :=
  if is_nan a || is_nan b then nan
  else if (a <? b)%float then b
  else if (b <? a)%float then a
  else if get_sign a then b else a.
End Math.

(** A Number as a condition: [+0], [-0] and [NaN] are falsy. *)
Definition falsy (v : float) : bool := is_zero v || is_nan v.

(** [v || d] *)
Definition orElse (v d : float) : float := if falsy v then d else v.

(** A charge object of the page: the fields the kernel uses, and the
    radius [_r] that [draw] and the [mousedown] handler look for. *)
Module Dot.
Record t := mk { charge : Charge.t float; _r : option float }.
End Dot.

(** A magnet object of the page.  Grabbing a magnet gives it the fields
    [vx] and [vy], which no function reads. *)
Module Bar.
Record t := mk {
  magnet : Magnet.t float;
  vx : option float;
  vy : option float
}.
End Bar.

(** [canvas.getBoundingClientRect()], and the pointer of a mouse event. *)
Module Rect.
Record t := mk { left : float; top : float; width : float; height : float }.
End Rect.

Module MouseEvent.
Record t := mk { clientX : float; clientY : float }.
End MouseEvent.

(** What [best] and [dragging] refer to: an object of [charges] or of
    [magnets], by its index.  The arrays only grow and shrink at their
    end, by the four buttons, so that an index names the same object for
    as long as no button is clicked. *)
Inductive Ref : Type :=
  | ChargeRef (i : nat)
  | MagnetRef (i : nat).

(** The values of [draggingType] other than [null]: ['magnet']. *)
Inductive DragType : Type := DragMagnet.

(** The variables [best], [bestDist] and [draggingType] during the two
    loops of the [mousedown] handler. *)
Module Pick.
Record t := mk {
  best : option Ref;
  bestDist : float;
  draggingType : option DragType
}.
End Pick.

(** The variables of the script that the handlers share. *)
Module World.
Record t := mk {
  charges : list Dot.t;
  magnets : list Bar.t;
  dragging : option Ref;
  draggingType : option DragType;
  useRK4 : bool;
  last : float
}.
End World.

(** The events of the page that neither add nor remove an object. *)
Inductive Event : Type :=
  | MouseDown (r : Rect.t) (e : MouseEvent.t)
  | MouseMove (r : Rect.t) (e : MouseEvent.t)
  | MouseUp
  | MouseLeave
  | ClickEuler
  | ClickRK4
  | Frame (now : float).

Section Page.
Context (L : Libm).
(** [x ** 2]: exponentiation is implementation-approximated in
    ECMAScript, like the functions of [Libm]. *)
Context (sq : float → float).
Local Open Scope float_scope.

(** [canvas.width] and [canvas.height], set once (lines 523-524). *)
Definition canvas_width : float := 800.
Definition canvas_height : float := 600.

(** electro.js 531-535 *)
Definition getMousePos (r : Rect.t) (evt : MouseEvent.t) : float * float :=
  ((MouseEvent.clientX evt - Rect.left r) * (canvas_width / Rect.width r),
   (MouseEvent.clientY evt - Rect.top r) * (canvas_height / Rect.height r)).

(** *** The buttons (electro.js 549-595) *)

(** [addChargeBtn]: [qv] and [mv] are [parseFloat(Qinput.value)] and
    [parseFloat(Minput.value)]. *)
Definition addCharge (qv mv : float) (charges : list Dot.t) : list Dot.t :=
  let q := orElse qv 1 in
  let m := orElse mv 1 in
  charges ++ [Dot.mk (charge (canvas_width / 2) (canvas_height / 2) 0 0 q m
                             false)
                     None].

(** [delChargeBtn]: [if (charges.length > 0) charges.pop()] *)
Definition delCharge (charges : list Dot.t) : list Dot.t :=
  if decide (0 < length charges)%nat then take (length charges - 1) charges
  else charges.

(** [addMagnetBtn]: [sv] is [parseFloat(magStrengthInput.value)]. *)
Definition addMagnet (sv : float) (magnets : list Bar.t) : list Bar.t :=
  let strength := orElse (sv * 1000) 10 in
  magnets ++ [Bar.mk (Magnet.mk (canvas_width / 2) (canvas_height / 2) 0
                                strength false)
                     None None].

(** [delMagnetBtn] *)
Definition delMagnet (magnets : list Bar.t) : list Bar.t :=
  if decide (0 < length magnets)%nat then take (length magnets - 1) magnets
  else magnets.

(** *** Picking and dragging (electro.js 689-737) *)

(** [c._r ?? Math.max(6, Math.min(20, Math.abs(c.q) * 4))] *)
Definition radius (c : Dot.t) : float :=
  match Dot._r c with
  | Some r => r
  | None => Math.max 6 (Math.min 20 (abs (Charge.q (Dot.charge c)) * 4))
  end.

(** [(x - pos.x)**2 + (y - pos.y)**2] *)
Definition dist2 (x y : float) (pos : float * float) : float :=
  sq (x - pos.1) + sq (y - pos.2).

(** The distance, squared, from the pointer to a charge and to a
    magnet. *)
Definition chargeDist2 (pos : float * float) (c : Dot.t) : float :=
  dist2 (Charge.x (Dot.charge c)) (Charge.y (Dot.charge c)) pos.

Definition magnetDist2 (pos : float * float) (m : Bar.t) : float :=
  dist2 (Magnet.x (Bar.magnet m)) (Magnet.y (Bar.magnet m)) pos.

(** [d2 < (r + 6)**2]: the pointer is on the charge, or next to it. *)
Definition onCharge (pos : float * float) (c : Dot.t) : bool :=
  chargeDist2 pos c <? sq (radius c + 6).

(** [d2 < (Math.max(w,h)/2 + 6)**2], with [w = 40] and [h = 20]. *)
Definition onMagnet (pos : float * float) (m : Bar.t) : bool :=
  magnetDist2 pos m <? sq (Math.max 40 20 / 2 + 6).

(** The body of the loop over the charges, for the charge [ic.2], which
    has the index [ic.1]. *)
Definition pickCharge (pos : float * float) (p : Pick.t) (ic : nat * Dot.t)
    : Pick.t :=
  let d2 := chargeDist2 pos ic.2 in
  if onCharge pos ic.2 && (d2 <? Pick.bestDist p)
  then Pick.mk (Some (ChargeRef ic.1)) d2 (Pick.draggingType p)
  else p.

(** The body of the loop over the magnets. *)
Definition pickMagnet (pos : float * float) (p : Pick.t) (im : nat * Bar.t)
    : Pick.t :=
  let d2 := magnetDist2 pos im.2 in
  if onMagnet pos im.2 && (d2 <? Pick.bestDist p)
  then Pick.mk (Some (MagnetRef im.1)) d2 (Some DragMagnet)
  else p.

(** The elements of an array with their indices, in order. *)
Definition indexed {A} (l : list A) : list (nat * A) := imap pair l.

(** The two loops, one after the other, from [best = null] and
    [bestDist = Infinity]. *)
Definition pick (pos : float * float) (w : World.t) : Pick.t :=
  let p := foldl (pickCharge pos)
                 (Pick.mk None infinity (World.draggingType w))
                 (indexed (World.charges w)) in
  foldl (pickMagnet pos) p (indexed (World.magnets w)).

(** [o.pinned = true; o.vx = o.vy = 0] *)
Definition grabCharge (c : Dot.t) : Dot.t :=
  let b := Dot.charge c in
  Dot.mk (Charge.mk (Charge.x b) (Charge.y b) 0 0 (Charge.ax b) (Charge.ay b)
                    (Charge.q b) (Charge.m b) true)
         (Dot._r c).

Definition grabMagnet (m : Bar.t) : Bar.t :=
  let b := Bar.magnet m in
  Bar.mk (Magnet.mk (Magnet.x b) (Magnet.y b) (Magnet.angle b)
                    (Magnet.strength b) true)
         (Some 0) (Some 0).

(** [o.x = pos.x; o.y = pos.y] *)
Definition moveCharge (pos : float * float) (c : Dot.t) : Dot.t :=
  let b := Dot.charge c in
  Dot.mk (Charge.mk pos.1 pos.2 (Charge.vx b) (Charge.vy b)
                    (Charge.ax b) (Charge.ay b) (Charge.q b) (Charge.m b)
                    (Charge.pinned b))
         (Dot._r c).

Definition moveMagnet (pos : float * float) (m : Bar.t) : Bar.t :=
  let b := Bar.magnet m in
  Bar.mk (Magnet.mk pos.1 pos.2 (Magnet.angle b) (Magnet.strength b)
                    (Magnet.pinned b))
         (Bar.vx m) (Bar.vy m).

(** [o.pinned = false] *)
Definition releaseCharge (c : Dot.t) : Dot.t :=
  let b := Dot.charge c in
  Dot.mk (Charge.mk (Charge.x b) (Charge.y b) (Charge.vx b) (Charge.vy b)
                    (Charge.ax b) (Charge.ay b) (Charge.q b) (Charge.m b)
                    false)
         (Dot._r c).

Definition releaseMagnet (m : Bar.t) : Bar.t :=
  let b := Bar.magnet m in
  Bar.mk (Magnet.mk (Magnet.x b) (Magnet.y b) (Magnet.angle b)
                    (Magnet.strength b) false)
         (Bar.vx m) (Bar.vy m).

(** An assignment to fields of the object that [o] refers to. *)
Definition update (fc : Dot.t → Dot.t) (fm : Bar.t → Bar.t) (o : Ref)
    (w : World.t) : World.t :=
  match o with
  | ChargeRef i =>
      World.mk (alter fc i (World.charges w)) (World.magnets w)
               (World.dragging w) (World.draggingType w) (World.useRK4 w)
               (World.last w)
  | MagnetRef i =>
      World.mk (World.charges w) (alter fm i (World.magnets w))
               (World.dragging w) (World.draggingType w) (World.useRK4 w)
               (World.last w)
  end.

(** electro.js 692-717 *)
Definition mousedown (r : Rect.t) (e : MouseEvent.t) (w : World.t) : World.t :=
  let pos := getMousePos r e in
  let p := pick pos w in
  match Pick.best p with
  | Some o =>
      update grabCharge grabMagnet o
        (World.mk (World.charges w) (World.magnets w) (Some o)
                  (Pick.draggingType p) (World.useRK4 w) (World.last w))
  | None =>
      World.mk (World.charges w) (World.magnets w) (World.dragging w)
               (Pick.draggingType p) (World.useRK4 w) (World.last w)
  end.

(** electro.js 719-724 *)
Definition mousemove (r : Rect.t) (e : MouseEvent.t) (w : World.t) : World.t :=
  match World.dragging w with
  | None => w
  | Some o =>
      let pos := getMousePos r e in
      update (moveCharge pos) (moveMagnet pos) o w
  end.

(** The handler of [mouseup] and of [mouseleave] (electro.js 726-737). *)
Definition mouseup (w : World.t) : World.t :=
  let w' := match World.dragging w with
            | Some o => update releaseCharge releaseMagnet o w
            | None => w
            end in
  World.mk (World.charges w') (World.magnets w') None None
           (World.useRK4 w') (World.last w').

(** *** The animation loop (electro.js 739-755) *)

(** [{k: 10000, softening: 0.4, damping: 0.999, maxAccel: 2000}] *)
Definition simOptions : Options.t float :=
  Options.mk (Some 10000) (Some 0x1.999999999999ap-2)
             (Some 0x1.ff7ced916872bp-1) (Some 2000).

(** [Math.min(0.03, (now - last) / 1000)] *)
Definition frameStep (now last : float) : float :=
  Math.min 0x1.eb851eb851eb8p-6 ((now - last) / 1000).

(** A function of the kernel on the charge objects of the page: it
    rewrites the fields of the kernel and leaves [_r] alone. *)
Definition onCharges (f : list (Charge.t float) → list (Charge.t float))
    (ds : list Dot.t) : list Dot.t :=
  zip_with (λ d c, Dot.mk c (Dot._r d)) ds (f (Dot.charge <$> ds)).

Definition loop (now : float) (w : World.t) : World.t :=
  let dt := frameStep now (World.last w) in
  let ms := Bar.magnet <$> World.magnets w in
  let charges' :=
    if World.useRK4 w
    then onCharges (λ cs, stepPhysicsRK4 (NT := Float64 L) cs ms dt simOptions)
                   (World.charges w)
    else onCharges (λ cs, stepPhysics (NT := Float64 L) cs ms dt simOptions)
                   (World.charges w) in
  World.mk charges' (World.magnets w) (World.dragging w)
           (World.draggingType w) (World.useRK4 w) now.

(** One event, and a sequence of events.  [eulerBtn] and [rk4Btn] set
    [useRK4] (electro.js 566-576). *)
Definition handle (ev : Event) (w : World.t) : World.t :=
  match ev with
  | MouseDown r e => mousedown r e w
  | MouseMove r e => mousemove r e w
  | MouseUp | MouseLeave => mouseup w
  | ClickEuler =>
      World.mk (World.charges w) (World.magnets w) (World.dragging w)
               (World.draggingType w) false (World.last w)
  | ClickRK4 =>
      World.mk (World.charges w) (World.magnets w) (World.dragging w)
               (World.draggingType w) true (World.last w)
  | Frame now => loop now w
  end.

Definition play (evs : list Event) (w : World.t) : World.t :=
  foldl (λ w ev, handle ev w) w evs.

(** *** Notions used in the statements about the page *)

(** What the loop over the charges has found after the charges [l]:
    nothing within reach, or the nearest charge within reach, the first
    of them if several are equally near. *)
Definition chargesSeen (pos : float * float) (l : list Dot.t)
    (dtype : option DragType) (p : Pick.t) : Prop :=
  Pick.draggingType p = dtype
  ∧ match Pick.best p with
    | None =>
        Pick.bestDist p = infinity
        ∧ ∀ j c, l !! j = Some c → onCharge pos c = false
    | Some (ChargeRef i) =>
        ∃ c, l !! i = Some c ∧ onCharge pos c = true
          ∧ Pick.bestDist p = chargeDist2 pos c
          ∧ ∀ j c', l !! j = Some c' → onCharge pos c' = true →
              (chargeDist2 pos c' <? chargeDist2 pos c) = false
              ∧ ((j < i)%nat →
                 (chargeDist2 pos c <? chargeDist2 pos c') = true)
    | Some (MagnetRef _) => False
    end.

(** What the loop over the magnets has found after the magnets [l],
    having started from [p1]. *)
Definition magnetsSeen (pos : float * float) (l : list Bar.t)
    (p1 p : Pick.t) : Prop :=
  (p = p1
   ∧ ∀ j m, l !! j = Some m → onMagnet pos m = true →
       (magnetDist2 pos m <? Pick.bestDist p1) = false)
  ∨ (∃ i m, Pick.best p = Some (MagnetRef i)
       ∧ Pick.draggingType p = Some DragMagnet
       ∧ l !! i = Some m ∧ onMagnet pos m = true
       ∧ Pick.bestDist p = magnetDist2 pos m
       ∧ (magnetDist2 pos m <? Pick.bestDist p1) = true
       ∧ ∀ j m', l !! j = Some m' → onMagnet pos m' = true →
           (magnetDist2 pos m' <? magnetDist2 pos m) = false
           ∧ ((j < i)%nat →
              (magnetDist2 pos m <? magnetDist2 pos m') = true)).

(** The events during which a grabbed object stays grabbed. *)
Definition quiet (ev : Event) : Prop :=
  match ev with
  | MouseMove _ _ | Frame _ | ClickEuler | ClickRK4 => True
  | MouseDown _ _ | MouseUp | MouseLeave => False
  end.

(** Where the pointer was last reported, having started at [start]. *)
Definition pointerAfter (evs : list Event) (start : float * float)
    : float * float :=
  foldl (λ p ev, match ev with
                 | MouseMove r e => getMousePos r e
                 | _ => p
                 end) start evs.

(** The charge [c], grabbed: pinned and at rest at [pos]. *)
Definition heldAt (pos : float * float) (c d : Dot.t) : Prop :=
  snapshot (Dot.charge d) = State.mk pos.1 pos.2 0 0
  ∧ Charge.pinned (Dot.charge d) = true
  ∧ Charge.q (Dot.charge d) = Charge.q (Dot.charge c)
  ∧ Charge.m (Dot.charge d) = Charge.m (Dot.charge c)
  ∧ Dot._r d = Dot._r c.

End Page.

(** *** The field arrows of [draw] (electro.js 604-621) *)

(** What [draw] needs of the arithmetic besides [Number]. *)
Class Canvas (T : Type) := {
  nmin : T → T → T;            (* Math.min, two arguments *)
  nfalsy : T → bool;           (* a Number as a condition, negated *)
  is0 : T → bool;              (* the comparison [a === 0] *)
  num_09 : T;                  (* the literal 0.9 *)
  num_20 : T;
  num_32 : T
}.

Definition Canvas64 : Canvas float := {|
  nmin := Math.min;
  nfalsy := falsy;
  is0 := fun a => (a =? 0)%float;
  num_09 := 0x1.ccccccccccccdp-1%float;
  num_20 := 20%float;
  num_32 := 32%float
|}.

Definition Reqb (a b : R) : bool := if Req_dec_T a b then true else false.

Definition CanvasExact : Canvas R := {|
  nmin := Rmin;
  nfalsy := fun a => Reqb a 0;
  is0 := fun a => Reqb a 0;
  num_09 := (9 / 10)%R;
  num_20 := 20%R;
  num_32 := 32%R
|}.

(** The options object of [draw]. *)
Module DrawOptions.
Record t (T : Type) := mk {
  drawField : bool;
  gridSpacing : option T;
  fieldScale : option T;
  k : option T;
  softening : option T
}.
Arguments mk {T}.
Arguments drawField {T}. Arguments gridSpacing {T}.
Arguments fieldScale {T}. Arguments k {T}. Arguments softening {T}.
End DrawOptions.

Section Arrows.
Context {T : Type} {NT : Number T} {CT : Canvas T}.
Local Open Scope num_scope.

(** [options.gridSpacing || 32] *)
Definition spacingOf (options : DrawOptions.t T) : T :=
  match DrawOptions.gridSpacing options with
  | Some v => if nfalsy v then num_32 else v
  | None => num_32
  end.

(** What [draw] does at the grid point [(x, y)]: the vector [(ex, ey)]
    of the arrow that it draws from [(x, y)] to [(x + ex, y + ey)], or
    [None] when it draws no arrow there, because [options.drawField] is
    not set or because [mag === 0]. *)
Definition fieldArrowAt (x y : T) (charges : list (Charge.t T))
    (options : DrawOptions.t T) : option (T * T) :=
  if DrawOptions.drawField options then
    let spacing := spacingOf options in
    let E := electricFieldAt x y charges
               (Options.mk (DrawOptions.k options)
                           (DrawOptions.softening options) None None) in
    let mag := hypot E.1 E.2 in
    if is0 mag then None
    else
      let s := default num_20 (DrawOptions.fieldScale options) in
      let ex := (E.1 / mag) * nmin (mag * s) (spacing * num_09) in
      let ey := (E.2 / mag) * nmin (mag * s) (spacing * num_09) in
      Some (ex, ey)
  else None.

End Arrows.

(** *** A page to run the handlers on *)

Section PageInputs.
Local Open Scope float_scope.

(** [x ** 2] as the product [x * x]. *)
Definition square (x : float) : float := x * x.

(** The canvas at its natural size, in the corner of the window. *)
Definition natural : Rect.t := Rect.mk 0 0 800 600.

(** Two unit charges, at [(0, 0)] and at [(10, 0)], and a magnet at
    [(0, 0)]; nothing is being dragged. *)
Definition desk : World.t :=
  World.mk [Dot.mk light None; Dot.mk (heavy 1) None]
           [Bar.mk bar None None] None None false 0.

(** The pointer goes to [(5, 5)], a frame is drawn, the pointer goes on
    to [(7, 8)], the integrator is changed and another frame is drawn. *)
Definition gesture : list Event :=
  [MouseMove natural (MouseEvent.mk 5 5); Frame 16;
   MouseMove natural (MouseEvent.mk 7 8); ClickRK4; Frame 32].

(** Two charges at the same place. *)
Definition stacked : list (Charge.t float) := [light; light].

(** [{drawField: true}] *)
Definition plain : DrawOptions.t R := DrawOptions.mk true None None None None.

End PageInputs.

(** ** Loops over the indices of an array *)

Section Loops.
Context {A : Type}.
Implicit Types (l : list A) (g : nat → A → A).

(** A loop [for i in ixs: l[i] = g(i, l[i])] touches each visited index
    once and no other. *)
Lemma lookup_alter_loop g (ixs : list nat) l j :
  NoDup ixs →
  foldl (λ cs i, alter (g i) i cs) l ixs !! j
  = if decide (j ∈ ixs) then g j <$> l !! j else l !! j.
Proof.
  intros Hnd. revert l.
  induction Hnd as [|i ixs Hi Hnd IH]; intros l; cbn [foldl].
  - rewrite decide_False; [done|]. apply not_elem_of_nil.
  - rewrite IH. destruct (decide (j = i)) as [->|Hne].
    + rewrite decide_False by done. rewrite decide_True by left.
      apply list_lookup_alter_eq.
    + rewrite list_lookup_alter_ne by done.
      destruct (decide (j ∈ ixs)) as [Hj|Hj].
      * rewrite decide_True; [done|]. by right.
      * rewrite decide_False; [done|]. rewrite elem_of_cons. tauto.
Qed.

Lemma alter_loop g l :
  foldl (λ cs i, alter (g i) i cs) l (seq 0 (length l)) = imap g l.
Proof.
  apply list_eq. intros j.
  rewrite lookup_alter_loop by apply NoDup_seq.
  rewrite list_lookup_imap. case_decide as Hj; [done|].
  rewrite elem_of_seq in Hj.
  rewrite (lookup_ge_None_2 l j); [done|lia].
Qed.

Lemma alter_loop_fmap (f : A → A) l :
  foldl (λ cs i, alter f i cs) l (seq 0 (length l)) = f <$> l.
Proof. rewrite (alter_loop (λ _, f)). apply imap_const. Qed.

Lemma alter_loop_len g l n :
  n = length l → foldl (λ cs i, alter (g i) i cs) l (seq 0 n) = imap g l.
Proof. intros ->. apply alter_loop. Qed.

Lemma alter_loop_fmap_len (f : A → A) l n :
  n = length l → foldl (λ cs i, alter f i cs) l (seq 0 n) = f <$> l.
Proof. intros ->. apply alter_loop_fmap. Qed.

(** [l[i] = v] when [l[i]] is [x]: the same as altering in place. *)
Lemma insert_as_alter (f : A → A) l i x :
  l !! i = Some x → <[i:=f x]> l = alter f i l.
Proof.
  intros Hi. apply list_eq. intros j. destruct (decide (j = i)) as [->|Hne].
  - rewrite list_lookup_alter_eq, Hi.
    apply list_lookup_insert_eq. by eapply lookup_lt_Some.
  - by rewrite list_lookup_insert_ne, list_lookup_alter_ne.
Qed.

Lemma alter_absent (f : A → A) l i : l !! i = None → alter f i l = l.
Proof.
  intros Hi. apply list_eq. intros j. destruct (decide (j = i)) as [->|Hne].
  - by rewrite list_lookup_alter_eq, Hi.
  - by rewrite list_lookup_alter_ne.
Qed.

End Loops.

(** ** What the pairwise loop accumulates *)

Section Accumulation.
Context {T : Type} {NT : Number T}.
Local Open Scope num_scope.
Implicit Types (cs : list (Charge.t T)) (A : nat → T * T).

Lemma lookup_withAcc cs A t :
  withAcc cs A !! t = (λ c, setAccel c (A t)) <$> cs !! t.
Proof. apply list_lookup_imap. Qed.

Lemma length_withAcc cs A : length (withAcc cs A) = length cs.
Proof. apply length_imap. Qed.

Lemma withAcc_ext cs A A' : (∀ t, A t = A' t) → withAcc cs A = withAcc cs A'.
Proof. intros H. apply imap_ext. intros t c _. simpl. by rewrite H. Qed.

Lemma withAcc_withAcc cs A A' : withAcc (withAcc cs A) A' = withAcc cs A'.
Proof.
  apply list_eq. intros t. rewrite !lookup_withAcc.
  by destruct (cs !! t).
Qed.

Lemma withAcc_self cs :
  withAcc cs (λ t, from_option (λ c, (Charge.ax c, Charge.ay c))
                               (num_0, num_0) (cs !! t)) = cs.
Proof.
  apply list_eq. intros t. rewrite lookup_withAcc.
  destruct (cs !! t) as [[]|]; reflexivity.
Qed.

Lemma fmap_zeroAccel cs : zeroAccel <$> cs = withAcc cs (λ _, (num_0, num_0)).
Proof. symmetry. apply (imap_const zeroAccel). Qed.

Lemma alter_addAccel_withAcc cs A i d :
  alter (addAccel d) i (withAcc cs A)
  = withAcc cs (λ t, if decide (t = i) then vadd (A t) d else A t).
Proof.
  apply list_eq. intros t. destruct (decide (t = i)) as [->|Hne].
  - rewrite list_lookup_alter_eq, !lookup_withAcc.
    rewrite decide_True by done. by destruct (cs !! i).
  - rewrite list_lookup_alter_ne by done. rewrite !lookup_withAcc.
    by rewrite decide_False.
Qed.

Lemma pairStep_withAcc k soft M cs A i j :
  i < j →
  pairStep k soft M i j (withAcc cs A) = withAcc cs (stepAcc k soft M cs i j A).
Proof.
  intros Hij. unfold pairStep. rewrite !lookup_withAcc.
  destruct (cs !! i) as [a|] eqn:Ha; simpl;
    [destruct (cs !! j) as [b|] eqn:Hb; simpl|];
    rewrite ?alter_addAccel_withAcc; apply withAcc_ext; intros t;
    unfold stepAcc, accum, pairInc;
    destruct (decide (t = i)) as [Hi|Hi]; destruct (decide (t = j)) as [Hj|Hj];
    subst; try lia; rewrite ?Ha, ?Hb; try done;
    try (destruct (cs !! j); done);
    case_decide; try lia; reflexivity.
Qed.

Lemma inner_withAcc k soft M cs A i js :
  Forall (λ j, i < j) js →
  foldl (λ cs' j, pairStep k soft M i j cs') (withAcc cs A) js
  = withAcc cs (foldl (λ A' j, stepAcc k soft M cs i j A') A js).
Proof.
  intros H. revert A. induction H as [|j js Hj _ IH]; intros A; cbn [foldl].
  - done.
  - rewrite pairStep_withAcc by done. apply IH.
Qed.

Lemma pairLoop_withAcc k soft M N cs A :
  pairLoop k soft M N (withAcc cs A)
  = withAcc cs
      (foldl (λ A' i, foldl (λ A'' j, stepAcc k soft M cs i j A'') A'
                            (seq (S i) (N - S i)))
             A (seq 0 N)).
Proof.
  unfold pairLoop. generalize (seq 0 N). intros ixs. revert A.
  induction ixs as [|i ixs IH]; intros A; cbn [foldl]; [done|].
  rewrite inner_withAcc; [apply IH|].
  apply Forall_seq. intros; lia.
Qed.

(** The table after the inner loop of [i], read at [t]. *)
Lemma inner_at k soft M cs i js A t :
  NoDup js →
  foldl (λ A' j, stepAcc k soft M cs i j A') A js t
  = if decide (t = i) then foldl (accum k soft M cs t) (A t) js
    else if decide (t ∈ js) then accum k soft M cs t (A t) i else A t.
Proof.
  intros Hnd. revert A.
  induction Hnd as [|j js Hj Hnd IH]; intros A; cbn [foldl].
  - destruct (decide (t = i)); [done|].
    rewrite decide_False; [done|]. apply not_elem_of_nil.
  - rewrite IH. unfold stepAcc at 1 2 3.
    destruct (decide (t = i)) as [Hi|Hi]; [done|].
    destruct (decide (t ∈ js)) as [Hin|Hin].
    + rewrite decide_False by (intros ->; done).
      rewrite decide_True; [done|]. by right.
    + destruct (decide (t = j)) as [Htj|Htj].
      * rewrite decide_True; [done|]. subst. left.
      * rewrite decide_False; [done|]. rewrite elem_of_cons. tauto.
Qed.

Lemma accum_self k soft M cs t a : accum k soft M cs t a t = a.
Proof. unfold accum. by rewrite decide_True. Qed.

Lemma accum_absent k soft M cs t a j :
  cs !! t = None → accum k soft M cs t a j = a.
Proof. intros Ht. unfold accum, pairInc. rewrite Ht. by case_decide. Qed.

(** The table after the first [n] rounds of the outer loop, read at [t]:
    a charge below [n] has met every other charge, a charge from [n] on
    has met the charges below [n]. *)
Lemma outer_at k soft M cs A n t :
  n ≤ length cs →
  foldl (λ A' i, foldl (λ A'' j, stepAcc k soft M cs i j A'') A'
                       (seq (S i) (length cs - S i)))
        A (seq 0 n) t
  = if decide (t < n)
    then foldl (accum k soft M cs t) (A t) (seq 0 (length cs))
    else foldl (accum k soft M cs t) (A t) (seq 0 n).
Proof.
  induction n as [|n IH]; intros Hn.
  - by rewrite decide_False by lia.
  - rewrite seq_S, foldl_app. cbn [foldl plus].
    rewrite inner_at by apply NoDup_seq. rewrite IH by lia.
    destruct (decide (t = n)) as [->|Htn].
    + rewrite decide_False by lia. rewrite decide_True by lia.
      replace (seq 0 (length cs))
        with (seq 0 n ++ n :: seq (S n) (length cs - S n)).
      { rewrite foldl_app. cbn [foldl]. by rewrite accum_self. }
      replace (length cs) with (n + S (length cs - S n))%nat at 2 by lia.
      by rewrite seq_app.
    + destruct (decide (t ∈ seq (S n) (length cs - S n))) as [Hin|Hin];
        rewrite elem_of_seq in Hin.
      * rewrite !decide_False by lia. by rewrite foldl_app.
      * destruct (decide (t < n)) as [Hlt|Hlt].
        { by rewrite decide_True by lia. }
        rewrite decide_False by lia. rewrite foldl_app. cbn [foldl].
        rewrite accum_absent; [done|]. apply lookup_ge_None_2. lia.
Qed.

(** Every charge leaves the pairwise loop with the left-to-right sum of
    its increments against the other charges, taken in array order. *)
Lemma pairLoop_spec k soft M cs A :
  pairLoop k soft M (length cs) (withAcc cs A)
  = withAcc cs (λ t, foldl (accum k soft M cs t) (A t) (seq 0 (length cs))).
Proof.
  rewrite pairLoop_withAcc. apply withAcc_ext. intros t.
  rewrite outer_at by done. by case_decide.
Qed.

(** [computeAccelerations], charge by charge. *)
Lemma computeAccelerations_spec cs magnets options :
  computeAccelerations cs magnets options
  = imap (λ t c,
            lorentzStep magnets options
              (setAccel c (pairSum (default num_1 (Options.k options))
                                   (default num_tenth (Options.softening options))
                                   (default num_2000 (Options.maxAccel options))
                                   cs t)))
         cs.
Proof.
  unfold computeAccelerations.
  rewrite alter_loop_fmap, fmap_zeroAccel, pairLoop_spec.
  rewrite alter_loop_fmap_len by (by rewrite length_withAcc).
  unfold withAcc. rewrite fmap_imap. reflexivity.
Qed.

End Accumulation.

(** ** Superposition of the magnets *)

Section Superposition.
Context {T : Type} {NT : Number T}.
Local Open Scope num_scope.

Lemma foldl_vadd_split {B} (f : B → T * T) (l : list B) (a : T * T) :
  foldl (λ acc b, vadd acc (f b)) a l
  = (foldl nadd a.1 ((fst ∘ f) <$> l), foldl nadd a.2 ((snd ∘ f) <$> l)).
Proof.
  revert a. induction l as [|b l IH]; intros [a1 a2]; cbn [foldl fmap list_fmap].
  - done.
  - by rewrite IH.
Qed.

(** [electricFieldAt] adds up the terms of all the charges, from [0], in
    array order. *)
Lemma electricFieldAt_sum (px py : T) (charges : list (Charge.t T))
    (options : Options.t T) :
  electricFieldAt px py charges options
  = (sumList ((λ c, (fieldTerm (default num_1 (Options.k options))
                               (default num_tenth (Options.softening options))
                               px py c).1) <$> charges),
     sumList ((λ c, (fieldTerm (default num_1 (Options.k options))
                               (default num_tenth (Options.softening options))
                               px py c).2) <$> charges)).
Proof.
  unfold electricFieldAt, sumList.
  exact (foldl_vadd_split
           (fieldTerm (default num_1 (Options.k options))
                      (default num_tenth (Options.softening options)) px py)
           charges (num_0, num_0)).
Qed.

(** C9: with no magnets the total magnetic field is [(0, 0)] at every
    point, and for any magnets it is, component by component, the sum of
    the fields [magneticFieldAt] of the single magnets (added up from [0]
    in array order). *)
Theorem totalMagneticFieldAt_superposition
    (px py : T) (magnets : list (Magnet.t T)) (options : Options.t T) :
  totalMagneticFieldAt px py [] options = (num_0, num_0)
  ∧ totalMagneticFieldAt px py magnets options
    = (sumList ((λ mag, (magneticFieldAt px py mag options).1) <$> magnets),
       sumList ((λ mag, (magneticFieldAt px py mag options).2) <$> magnets)).
Proof.
  split; [reflexivity|].
  unfold totalMagneticFieldAt, sumList.
  by rewrite (foldl_vadd_split (λ mag, magneticFieldAt px py mag options)).
Qed.

End Superposition.

(** ** The acceleration table of [computeAccelerations] *)

Section NetAcceleration.
Context {T : Type} {NT : Number T}.
Local Open Scope num_scope.
Implicit Types (cs : list (Charge.t T)) (A : nat → T * T).

(** [computeAccelerations] rewrites [ax] and [ay] and nothing else. *)
Lemma computeAccelerations_withAcc cs magnets options :
  computeAccelerations cs magnets options
  = withAcc cs (netAccel magnets options cs).
Proof.
  rewrite computeAccelerations_spec. apply imap_ext. intros t c Ht.
  unfold netAccel. rewrite Ht. unfold lorentzStep.
  change (lorentz magnets options (setAccel c ?a))
    with (lorentz magnets options c).
  by destruct (lorentz magnets options c).
Qed.

Lemma length_computeAccelerations cs magnets options :
  length (computeAccelerations cs magnets options) = length cs.
Proof. by rewrite computeAccelerations_withAcc, length_withAcc. Qed.

Lemma pairInc_withAcc k soft M cs A t j :
  pairInc k soft M (withAcc cs A) t j = pairInc k soft M cs t j.
Proof.
  unfold pairInc. rewrite !lookup_withAcc.
  destruct (cs !! t) as [c|]; [|done]. by destruct (cs !! j) as [o|].
Qed.

Lemma pairSum_withAcc k soft M cs A t :
  pairSum k soft M (withAcc cs A) t = pairSum k soft M cs t.
Proof.
  unfold pairSum. rewrite length_withAcc.
  generalize (num_0, num_0) as a. generalize (seq 0 (length cs)) as js.
  induction js as [|j js IH]; intros a; cbn [foldl]; [done|].
  rewrite IH. unfold accum. by rewrite pairInc_withAcc.
Qed.

(** What is in [ax] and [ay] on entry does not matter. *)
Lemma computeAccelerations_ignores_accel cs A magnets options :
  computeAccelerations (withAcc cs A) magnets options
  = computeAccelerations cs magnets options.
Proof.
  rewrite !computeAccelerations_withAcc, withAcc_withAcc.
  apply withAcc_ext. intros t. unfold netAccel.
  rewrite pairSum_withAcc, lookup_withAcc.
  by destruct (cs !! t).
Qed.

End NetAcceleration.

(** ** The stages of the Runge-Kutta step *)

Section Stages.
Context {T : Type} {NT : Number T}.
Local Open Scope num_scope.
Implicit Types (cs bs : list (Charge.t T)) (A : nat → T * T)
  (k : list (State.t T)).

Lemma stageStep_alter h state0 k i cs :
  stageStep h state0 k i cs = alter (stageFn h state0 k i) i cs.
Proof.
  unfold stageStep. destruct (cs !! i) as [c|] eqn:Hc.
  - rewrite <- (insert_as_alter _ _ _ c) by done. unfold stageFn.
    destruct (state0 !! i), (k !! i); try by rewrite list_insert_id.
    destruct (Charge.pinned c); [by rewrite list_insert_id|done].
  - by rewrite alter_absent.
Qed.

Lemma combineStep_alter dt damping state0 k1 k2 k3 k4 i cs :
  combineStep dt damping state0 k1 k2 k3 k4 i cs
  = alter (combineFn dt damping state0 k1 k2 k3 k4 i) i cs.
Proof.
  unfold combineStep. destruct (cs !! i) as [c|] eqn:Hc.
  - rewrite <- (insert_as_alter _ _ _ c) by done. unfold combineFn.
    destruct (state0 !! i), (k1 !! i), (k2 !! i), (k3 !! i), (k4 !! i);
      try by rewrite list_insert_id.
    destruct (Charge.pinned c); [by rewrite list_insert_id|done].
  - by rewrite alter_absent.
Qed.

Lemma foldl_ext_list {X Y} (f g : X → Y → X) (a : X) (l : list Y) :
  (∀ x y, f x y = g x y) → foldl f a l = foldl g a l.
Proof.
  intros H. revert a. induction l as [|y l IH]; intros a; cbn [foldl]; [done|].
  by rewrite H, IH.
Qed.

Lemma length_moved h cs k : length k = length cs → length (moved h cs k) = length cs.
Proof. intros H. unfold moved. by rewrite length_zip_with_l_eq. Qed.

Lemma lookup_moved h cs k t c d :
  cs !! t = Some c → k !! t = Some d →
  moved h cs k !! t
  = Some (if Charge.pinned c then c
          else setMotion c (advance h (snapshot c) d)).
Proof.
  intros Hc Hd. unfold moved. by rewrite lookup_zip_with, Hc, Hd.
Qed.

Lemma length_stageDerivative cs magnets options :
  length (stageDerivative cs magnets options) = length cs.
Proof.
  unfold stageDerivative. by rewrite length_fmap, length_computeAccelerations.
Qed.

Lemma sameBody_moved h cs k :
  length k = length cs → Forall2 sameBody cs (moved h cs k).
Proof.
  intros Hlen. apply Forall2_same_length_lookup. split.
  { by rewrite length_moved. }
  intros t c b Hc Hb. unfold moved in Hb.
  rewrite lookup_zip_with, Hc in Hb. simpl in Hb.
  destruct (k !! t) as [d|]; [|done]. simpl in Hb.
  injection Hb as <-. unfold sameBody.
  by destruct (Charge.pinned c) eqn:Hp.
Qed.

(** One stage loop: from any stage point of [cs] to the stage point
    [state0 + h * k], whatever the accelerations are. *)
Lemma stage_loop h cs bs A k :
  length k = length cs → Forall2 sameBody cs bs →
  foldl (λ l i, stageStep h (snapshot <$> cs) k i l) (withAcc bs A)
        (seq 0 (length cs))
  = withAcc (moved h cs k) A.
Proof.
  intros Hk Hbs.
  rewrite (foldl_ext_list _ (λ l i, alter (stageFn h (snapshot <$> cs) k i) i l))
    by (intros; apply stageStep_alter).
  pose proof (Forall2_length _ _ _ Hbs) as Hlen.
  rewrite alter_loop_len by (by rewrite length_withAcc).
  apply list_eq. intros t.
  rewrite list_lookup_imap, !lookup_withAcc. unfold moved.
  rewrite lookup_zip_with. unfold stageFn. rewrite list_lookup_fmap.
  destruct (cs !! t) as [c|] eqn:Hc; simpl.
  - destruct (Forall2_lookup_l _ _ _ _ _ Hbs Hc) as (b & Hb & Hq & Hm & Hp & Hpin).
    rewrite Hb. simpl.
    destruct (lookup_lt_is_Some_2 k t) as [d Hd].
    { rewrite Hk. by eapply lookup_lt_Some. }
    rewrite Hd. simpl. f_equal. rewrite Hp.
    destruct (Charge.pinned c) eqn:Hpc.
    + specialize (Hpin eq_refl).
      destruct c, b; simpl in *. injection Hpin as -> -> -> ->. by subst.
    + unfold setMotion, setAccel. simpl. by rewrite Hq, Hm, Hp, Hpc.
  - rewrite (lookup_ge_None_2 bs t); [done|].
    rewrite <- Hlen. by apply lookup_ge_None.
Qed.

Lemma sameBody_refl cs : Forall2 sameBody cs cs.
Proof. apply Forall_Forall2_diag, Forall_forall. by intros c _. Qed.

(** Moving to the next stage point and evaluating the forces there. *)
Lemma stage_next h cs bs k magnets options :
  length k = length cs → Forall2 sameBody cs bs →
  computeAccelerations
    (foldl (λ l i, stageStep h (snapshot <$> cs) k i l)
           (computeAccelerations bs magnets options) (seq 0 (length cs)))
    magnets options
  = computeAccelerations (moved h cs k) magnets options.
Proof.
  intros Hk Hbs.
  rewrite (computeAccelerations_withAcc bs), stage_loop by done.
  apply computeAccelerations_ignores_accel.
Qed.

(** [stepPhysicsRK4] is the combining loop applied to the charges as the
    fourth force evaluation leaves them, with the four stage derivatives
    of the textbook scheme. *)
Lemma stepPhysicsRK4_spec cs magnets dt options :
  stepPhysicsRK4 cs magnets dt options
  = imap (combineFn dt (default num_1 (Options.damping options))
                    (snapshot <$> cs)
                    (rk4_k1 cs magnets dt options)
                    (rk4_k2 cs magnets dt options)
                    (rk4_k3 cs magnets dt options)
                    (rk4_k4 cs magnets dt options))
         (computeAccelerations (moved dt cs (rk4_k3 cs magnets dt options))
                               magnets options).
Proof.
  assert (Hk1 : length (rk4_k1 cs magnets dt options) = length cs)
    by apply length_stageDerivative.
  assert (Hk2 : length (rk4_k2 cs magnets dt options) = length cs).
  { unfold rk4_k2. by rewrite length_stageDerivative, length_moved. }
  assert (Hk3 : length (rk4_k3 cs magnets dt options) = length cs).
  { unfold rk4_k3. by rewrite length_stageDerivative, length_moved. }
  assert (E2 : computeAccelerations
                 (foldl (λ l i, stageStep (num_half * dt) (snapshot <$> cs)
                                  (rk4_k1 cs magnets dt options) i l)
                        (computeAccelerations cs magnets options)
                        (seq 0 (length cs))) magnets options
               = computeAccelerations
                   (moved (num_half * dt) cs (rk4_k1 cs magnets dt options))
                   magnets options)
    by (apply stage_next; [done|apply sameBody_refl]).
  assert (E3 : computeAccelerations
                 (foldl (λ l i, stageStep (num_half * dt) (snapshot <$> cs)
                                  (rk4_k2 cs magnets dt options) i l)
                        (computeAccelerations
                           (moved (num_half * dt) cs
                                  (rk4_k1 cs magnets dt options))
                           magnets options)
                        (seq 0 (length cs))) magnets options
               = computeAccelerations
                   (moved (num_half * dt) cs (rk4_k2 cs magnets dt options))
                   magnets options)
    by (apply stage_next; [done|by apply sameBody_moved]).
  assert (E4 : computeAccelerations
                 (foldl (λ l i, stageStep dt (snapshot <$> cs)
                                  (rk4_k3 cs magnets dt options) i l)
                        (computeAccelerations
                           (moved (num_half * dt) cs
                                  (rk4_k2 cs magnets dt options))
                           magnets options)
                        (seq 0 (length cs))) magnets options
               = computeAccelerations
                   (moved dt cs (rk4_k3 cs magnets dt options))
                   magnets options)
    by (apply stage_next; [done|by apply sameBody_moved]).
  unfold stepPhysicsRK4. cbv zeta.
  change (derivative <$> computeAccelerations cs magnets options)
    with (rk4_k1 cs magnets dt options).
  rewrite E2.
  change (derivative <$> computeAccelerations
            (moved (num_half * dt) cs (rk4_k1 cs magnets dt options))
            magnets options)
    with (rk4_k2 cs magnets dt options).
  rewrite E3.
  change (derivative <$> computeAccelerations
            (moved (num_half * dt) cs (rk4_k2 cs magnets dt options))
            magnets options)
    with (rk4_k3 cs magnets dt options).
  rewrite E4.
  change (derivative <$> computeAccelerations
            (moved dt cs (rk4_k3 cs magnets dt options)) magnets options)
    with (rk4_k4 cs magnets dt options).
  rewrite (foldl_ext_list _
             (λ l i, alter (combineFn dt (default num_1 (Options.damping options))
                              (snapshot <$> cs)
                              (rk4_k1 cs magnets dt options)
                              (rk4_k2 cs magnets dt options)
                              (rk4_k3 cs magnets dt options)
                              (rk4_k4 cs magnets dt options) i) i l))
    by (intros; apply combineStep_alter).
  apply alter_loop_len.
  by rewrite length_computeAccelerations, length_moved.
Qed.

End Stages.

(** ** Pinned charges and the Runge-Kutta combination *)

Section Integrators.
Context {T : Type} {NT : Number T}.
Local Open Scope num_scope.
Implicit Types (cs : list (Charge.t T)).

Lemma stepPhysics_lookup cs magnets dt options t :
  stepPhysics cs magnets dt options !! t
  = (λ c, integrate dt (default num_1 (Options.damping options))
                    (setAccel c (netAccel magnets options cs t)))
    <$> cs !! t.
Proof.
  unfold stepPhysics. rewrite computeAccelerations_withAcc.
  rewrite list_lookup_fmap, lookup_withAcc. by destruct (cs !! t).
Qed.

(** The charge the combining loop of [stepPhysicsRK4] starts from. *)
Lemma rk4_last_stage_lookup cs magnets dt options t c :
  cs !! t = Some c →
  ∃ d3, rk4_k3 cs magnets dt options !! t = Some d3
    ∧ computeAccelerations (moved dt cs (rk4_k3 cs magnets dt options))
                           magnets options !! t
      = Some (setAccel
                (if Charge.pinned c then c
                 else setMotion c (advance dt (snapshot c) d3))
                (netAccel magnets options
                   (moved dt cs (rk4_k3 cs magnets dt options)) t)).
Proof.
  intros Hc.
  destruct (lookup_lt_is_Some_2 (rk4_k3 cs magnets dt options) t) as [d3 Hd3].
  { unfold rk4_k3. rewrite length_stageDerivative, length_moved.
    - by eapply lookup_lt_Some.
    - unfold rk4_k2. rewrite length_stageDerivative, length_moved; [done|].
      apply length_stageDerivative. }
  exists d3. split; [done|].
  rewrite computeAccelerations_withAcc, lookup_withAcc.
  by rewrite (lookup_moved _ _ _ _ c d3).
Qed.

Lemma call_pinned cl cs t c :
  cs !! t = Some c → Charge.pinned c = true →
  ∃ c', call cl cs !! t = Some c'
    ∧ snapshot c' = snapshot c ∧ Charge.pinned c' = true.
Proof.
  intros Hc Hp. destruct cl as [magnets dt options|magnets dt options]; simpl.
  - rewrite stepPhysics_lookup, Hc. simpl. eexists. split; [done|].
    unfold integrate. simpl. rewrite Hp. by split.
  - rewrite stepPhysicsRK4_spec, list_lookup_imap.
    destruct (rk4_last_stage_lookup cs magnets dt options t c Hc)
      as (d3 & _ & ->).
    rewrite Hp. simpl. eexists. split; [done|].
    unfold combineFn.
    repeat match goal with |- context [match ?o with Some _ => _ | None => _ end] =>
      destruct o end; simpl; rewrite ?Hp; by split.
Qed.

(** C2: a charge whose [pinned] flag is set keeps its position [(x, y)]
    and its velocity [(vx, vy)], and stays pinned, through every call of
    [stepPhysics] and of [stepPhysicsRK4] and through every finite
    sequence of such calls, whatever the charges, magnets, time steps and
    options are.  The values are equal as Numbers, not just close. *)
Theorem pinned_charge_untouched (calls : list (Call T)) cs t c :
  cs !! t = Some c → Charge.pinned c = true →
  ∃ c', run calls cs !! t = Some c'
    ∧ Charge.x c' = Charge.x c ∧ Charge.y c' = Charge.y c
    ∧ Charge.vx c' = Charge.vx c ∧ Charge.vy c' = Charge.vy c
    ∧ Charge.pinned c' = true.
Proof.
  unfold run. revert cs c.
  induction calls as [|cl calls IH]; intros cs c Hc Hp; cbn [foldl].
  - exists c. by rewrite Hc.
  - destruct (call_pinned cl cs t c Hc Hp) as (c1 & Hc1 & Hs & Hp1).
    destruct (IH _ _ Hc1 Hp1) as (c' & Hc' & Hx & Hy & Hvx & Hvy & Hp').
    exists c'. split; [done|].
    injection Hs as Ex Ey Evx Evy. by rewrite Hx, Hy, Hvx, Hvy.
Qed.

(** What the combining loop leaves in a charge that is not pinned, in
    terms of the stage derivatives of the proofs. *)
Lemma rk4_combination_lookup cs magnets dt options t c :
  cs !! t = Some c → Charge.pinned c = false →
  ∃ d1 d2 d3 d4 c',
    rk4_k1 cs magnets dt options !! t = Some d1
    ∧ rk4_k2 cs magnets dt options !! t = Some d2
    ∧ rk4_k3 cs magnets dt options !! t = Some d3
    ∧ rk4_k4 cs magnets dt options !! t = Some d4
    ∧ stepPhysicsRK4 cs magnets dt options !! t = Some c'
    ∧ Charge.x c'
      = Charge.x c
        + dt * ((State.x d1 + num_2 * State.x d2 + num_2 * State.x d3
                 + State.x d4) / num_6)
    ∧ Charge.y c'
      = Charge.y c
        + dt * ((State.y d1 + num_2 * State.y d2 + num_2 * State.y d3
                 + State.y d4) / num_6)
    ∧ Charge.vx c'
      = (Charge.vx c
         + dt * ((State.vx d1 + num_2 * State.vx d2 + num_2 * State.vx d3
                  + State.vx d4) / num_6))
        * default num_1 (Options.damping options)
    ∧ Charge.vy c'
      = (Charge.vy c
         + dt * ((State.vy d1 + num_2 * State.vy d2 + num_2 * State.vy d3
                  + State.vy d4) / num_6))
        * default num_1 (Options.damping options).
Proof.
  intros Hc Hp.
  assert (Hlt : t < length cs) by (by eapply lookup_lt_Some).
  assert (Hk1 : length (rk4_k1 cs magnets dt options) = length cs)
    by apply length_stageDerivative.
  assert (Hk2 : length (rk4_k2 cs magnets dt options) = length cs).
  { unfold rk4_k2. by rewrite length_stageDerivative, length_moved. }
  assert (Hk3 : length (rk4_k3 cs magnets dt options) = length cs).
  { unfold rk4_k3. by rewrite length_stageDerivative, length_moved. }
  assert (Hk4 : length (rk4_k4 cs magnets dt options) = length cs).
  { unfold rk4_k4. by rewrite length_stageDerivative, length_moved. }
  destruct (lookup_lt_is_Some_2 (rk4_k1 cs magnets dt options) t) as [d1 Hd1];
    [lia|].
  destruct (lookup_lt_is_Some_2 (rk4_k2 cs magnets dt options) t) as [d2 Hd2];
    [lia|].
  destruct (lookup_lt_is_Some_2 (rk4_k4 cs magnets dt options) t) as [d4 Hd4];
    [lia|].
  destruct (rk4_last_stage_lookup cs magnets dt options t c Hc)
    as (d3 & Hd3 & Hlast).
  rewrite Hp in Hlast.
  exists d1, d2, d3, d4. eexists. repeat (split; [done|]).
  split.
  { rewrite stepPhysicsRK4_spec, list_lookup_imap, Hlast. simpl.
    unfold combineFn. rewrite list_lookup_fmap, Hc, Hd1, Hd2, Hd3, Hd4.
    simpl. rewrite Hp. reflexivity. }
  unfold rkMean. simpl. repeat split; reflexivity.
Qed.

(** The derivative at a charge array, charge by charge. *)
Lemma slopes_lookup cs magnets options t c :
  cs !! t = Some c →
  slopes cs magnets options !! t
  = Some {| State.x := Charge.vx c; State.y := Charge.vy c;
            State.vx := (netAccel magnets options cs t).1;
            State.vy := (netAccel magnets options cs t).2 |}.
Proof.
  intros Hc. unfold slopes.
  by rewrite list_lookup_fmap, computeAccelerations_withAcc, lookup_withAcc, Hc.
Qed.

(** The velocity of a free charge at a stage point is the rate of change
    of its position there. *)
Lemma slopes_stagePoint_lookup h cs (k : list (State.t T)) magnets options
    t c d d' :
  cs !! t = Some c → Charge.pinned c = false → k !! t = Some d →
  slopes (stagePoint h cs k) magnets options !! t = Some d' →
  State.x d' = Charge.vx c + h * State.vx d
  ∧ State.y d' = Charge.vy c + h * State.vy d.
Proof.
  intros Hc Hp Hd Hd'.
  assert (Hs : stagePoint h cs k !! t
               = Some {| Charge.x := Charge.x c + h * State.x d;
                         Charge.y := Charge.y c + h * State.y d;
                         Charge.vx := Charge.vx c + h * State.vx d;
                         Charge.vy := Charge.vy c + h * State.vy d;
                         Charge.ax := Charge.ax c; Charge.ay := Charge.ay c;
                         Charge.q := Charge.q c; Charge.m := Charge.m c;
                         Charge.pinned := Charge.pinned c |}).
  { unfold stagePoint. by rewrite lookup_zip_with, Hc, Hd; simpl; rewrite Hp. }
  rewrite (slopes_lookup _ _ _ _ _ Hs) in Hd'. by injection Hd' as <-.
Qed.

(** C4: [stepPhysicsRK4] is the fourth-order Runge-Kutta scheme of the
    specification.  Let [k1] be the derivative [(dx/dt, dv/dt) = (v, a)]
    at the charges as they are on entry ([state0]), [k2] the derivative
    at [state0 + 0.5*dt*k1], [k3] the derivative at [state0 + 0.5*dt*k2]
    and [k4] the derivative at [state0 + dt*k3], the accelerations being
    those of [computeAccelerations] at these points.  Then a charge that
    is not pinned ends at
    [x = state0.x + dt * ((k1.x + 2*k2.x + 2*k3.x + k4.x) / 6)], the same
    for [y], and at
    [vx = (state0.vx + dt * ((k1.vx + 2*k2.vx + 2*k3.vx + k4.vx) / 6)) * damping],
    the same for [vy]: the damping multiplies the velocity once, after
    the combination, and not the position.  The position parts of
    [k1] .. [k4] are the velocities at the four points: [v], [v + 0.5*dt*k1.v],
    [v + 0.5*dt*k2.v] and [v + dt*k3.v]. *)
Theorem stepPhysicsRK4_combination cs magnets dt options t c :
  cs !! t = Some c → Charge.pinned c = false →
  let k1 := slopes cs magnets options in
  let k2 := slopes (stagePoint (num_half * dt) cs k1) magnets options in
  let k3 := slopes (stagePoint (num_half * dt) cs k2) magnets options in
  let k4 := slopes (stagePoint dt cs k3) magnets options in
  ∃ d1 d2 d3 d4 c',
    k1 !! t = Some d1 ∧ k2 !! t = Some d2
    ∧ k3 !! t = Some d3 ∧ k4 !! t = Some d4
    ∧ stepPhysicsRK4 cs magnets dt options !! t = Some c'
    ∧ Charge.x c'
      = Charge.x c
        + dt * ((State.x d1 + num_2 * State.x d2 + num_2 * State.x d3
                 + State.x d4) / num_6)
    ∧ Charge.y c'
      = Charge.y c
        + dt * ((State.y d1 + num_2 * State.y d2 + num_2 * State.y d3
                 + State.y d4) / num_6)
    ∧ Charge.vx c'
      = (Charge.vx c
         + dt * ((State.vx d1 + num_2 * State.vx d2 + num_2 * State.vx d3
                  + State.vx d4) / num_6))
        * default num_1 (Options.damping options)
    ∧ Charge.vy c'
      = (Charge.vy c
         + dt * ((State.vy d1 + num_2 * State.vy d2 + num_2 * State.vy d3
                  + State.vy d4) / num_6))
        * default num_1 (Options.damping options)
    ∧ (State.x d1 = Charge.vx c ∧ State.y d1 = Charge.vy c)
    ∧ (State.x d2 = Charge.vx c + num_half * dt * State.vx d1
       ∧ State.y d2 = Charge.vy c + num_half * dt * State.vy d1)
    ∧ (State.x d3 = Charge.vx c + num_half * dt * State.vx d2
       ∧ State.y d3 = Charge.vy c + num_half * dt * State.vy d2)
    ∧ (State.x d4 = Charge.vx c + dt * State.vx d3
       ∧ State.y d4 = Charge.vy c + dt * State.vy d3).
Proof.
  intros Hc Hp k1 k2 k3 k4.
  destruct (rk4_combination_lookup cs magnets dt options t c Hc Hp)
    as (d1 & d2 & d3 & d4 & c' & H1 & H2 & H3 & H4 & Hc' & Hx & Hy & Hvx & Hvy).
  change (rk4_k1 cs magnets dt options) with k1 in H1.
  change (rk4_k2 cs magnets dt options) with k2 in H2.
  change (rk4_k3 cs magnets dt options) with k3 in H3.
  change (rk4_k4 cs magnets dt options) with k4 in H4.
  exists d1, d2, d3, d4, c'.
  do 9 (split; [assumption|]).
  split; [|split; [|split]].
  - unfold k1 in H1. rewrite (slopes_lookup _ _ _ _ _ Hc) in H1.
    by injection H1 as <-.
  - exact (slopes_stagePoint_lookup _ _ _ _ _ _ _ _ _ Hc Hp H1 H2).
  - exact (slopes_stagePoint_lookup _ _ _ _ _ _ _ _ _ Hc Hp H2 H3).
  - exact (slopes_stagePoint_lookup _ _ _ _ _ _ _ _ _ Hc Hp H3 H4).
Qed.

End Integrators.

(** ** Facts about binary64 *)

Section Binary64.
Local Open Scope float_scope.

(** Nothing is greater than [Infinity]. *)
Lemma gt_infinity (a : float) : (infinity <? a) = false.
Proof.
  rewrite ltb_spec. change (Prim2SF infinity) with (S754_infinity false).
  by destruct (Prim2SF a) as [| [] | |].
Qed.

(** With [maxAccel = Infinity] the clamp never fires. *)
Lemma clamp_unbounded (L : Libm) (inc : float * float) :
  clamp (NT := Float64 L) infinity inc = inc.
Proof. unfold clamp. simpl. by rewrite gt_infinity. Qed.

(** Without magnets no charge gets a magnetic term, provided
    [Math.hypot(0, 0)] is [0], as ECMAScript requires. *)
Lemma lorentz_no_magnets (L : Libm) options (c : Charge.t float) :
  lm_hypot L 0 0 = 0 →
  lorentz (NT := Float64 L) [] options c = None.
Proof.
  intros H0. unfold lorentz. simpl. rewrite H0.
  change (0 <? 0) with false. by rewrite andb_false_r.
Qed.

Lemma hypotOfZeros_ref : hypotOfZeros libm_ref.
Proof. intros a b [-> | ->] [-> | ->]; reflexivity. Qed.

(** A charge at rest gets no magnetic term. *)
Lemma lorentz_at_rest (L : Libm) magnets options (c : Charge.t float) :
  hypotOfZeros L → isZero (Charge.vx c) → isZero (Charge.vy c) →
  lorentz (NT := Float64 L) magnets options c = None.
Proof.
  intros H0 Hx Hy. unfold lorentz. cbn [hypot ngt num_0 Float64].
  rewrite (H0 _ _ Hx Hy). reflexivity.
Qed.

(** A charge where the total magnetic field is zero gets no magnetic
    term. *)
Lemma lorentz_zero_field (L : Libm) magnets options (c : Charge.t float) :
  hypotOfZeros L →
  isZero (totalMagneticFieldAt (NT := Float64 L) (Charge.x c) (Charge.y c)
            magnets options).1 →
  isZero (totalMagneticFieldAt (NT := Float64 L) (Charge.x c) (Charge.y c)
            magnets options).2 →
  lorentz (NT := Float64 L) magnets options c = None.
Proof.
  intros H0 Hx Hy. unfold lorentz. cbn [hypot ngt num_0 Float64].
  rewrite (H0 _ _ Hx Hy). change (0 <? 0) with false.
  by rewrite andb_false_r.
Qed.

(** Rounding does not look at the sign. *)
Lemma binary_round_aux_opp (s : bool) (m e : Z) (l : location) :
  SFopp (binary_round_aux prec emax s m e l)
  = binary_round_aux prec emax (negb s) m e l.
Proof.
  unfold binary_round_aux.
  destruct (shr_fexp prec emax m e l) as [mrs' e'].
  destruct (shr_fexp prec emax _ e' loc_Exact) as [mrs'' e''].
  destruct (shr_m mrs''); try reflexivity.
  by destruct (Z.leb e'' (emax - prec)).
Qed.

(** [-a / b] is [-(a / b)], bit for bit. *)
Lemma opp_div (a b : float) : - a / b = - (a / b).
Proof.
  apply Prim2SF_inj. rewrite opp_spec, !div_spec, opp_spec.
  unfold SF64div, SFdiv.
  destruct (Prim2SF a) as [sa|sa| |sa ma ea], (Prim2SF b) as [sb|sb| |sb mb eb];
    cbn [SFopp]; try reflexivity;
    try (by destruct sa, sb).
  destruct (SFdiv_core_binary prec emax (Z.pos ma) ea (Z.pos mb) eb)
    as [[mz ez] lz].
  rewrite binary_round_aux_opp. by destruct sa, sb.
Qed.

(** Two binary64 values that differ in [Leibniz.eqb] are different. *)
Lemma float_neq (a b : float) : Leibniz.eqb a b = false → a ≠ b.
Proof.
  intros H E. apply Leibniz.eqb_spec in E. rewrite E in H. discriminate.
Qed.

(** C5, with equal masses: for two charges of equal mass, whatever their
    charges and positions and whatever [k] and the softening, the two
    acceleration increments of the pair, taken before the clamp, are
    opposite vectors: the increment of [b] is the increment of [a] with
    both components negated, bit for bit in binary64 (so of the same
    magnitude and of opposite direction). *)
Theorem equal_mass_increments_opposite (L : Libm) (k soft : float)
    (a b : Charge.t float) :
  Charge.m a = Charge.m b →
  rawIncB (NT := Float64 L) k soft a b
  = (- (rawIncA (NT := Float64 L) k soft a b).1,
     - (rawIncA (NT := Float64 L) k soft a b).2).
Proof.
  intros Hm. unfold rawIncB, rawIncA. cbn [fst snd nneg ndiv Float64].
  by rewrite Hm, !opp_div.
Qed.

(** *** Products and sums that round to an operand *)

Lemma is_finite_SF (a : float) : is_finite a = finiteSF (Prim2SF a).
Proof.
  unfold is_finite, is_nan, is_infinity.
  rewrite !FloatAxioms.eqb_spec, abs_spec.
  destruct (Prim2SF a) as [s|s| |s m e]; try destruct s; try reflexivity;
    cbn [SFabs finiteSF]; unfold SFeqb, SFcompare;
    by rewrite Z.compare_refl, Pos.compare_cont_refl.
Qed.

Lemma isZero_SF (a : float) : (∃ s, Prim2SF a = S754_zero s) → isZero a.
Proof. intros [[] H]; [right|left]; apply Prim2SF_inj; by rewrite H. Qed.

Lemma fmul_zero_l (a : float) : is_finite a = true → isZero (0 * a).
Proof.
  rewrite is_finite_SF. intros Hf. apply isZero_SF. rewrite mul_spec.
  change (Prim2SF 0) with (S754_zero false).
  destruct (Prim2SF a) as [s|s| |s m e]; try discriminate; cbn; eauto.
Qed.

Lemma fmul_zero_r (a : float) : is_finite a = true → isZero (a * 0).
Proof.
  rewrite is_finite_SF. intros Hf. apply isZero_SF. rewrite mul_spec.
  change (Prim2SF 0) with (S754_zero false).
  destruct (Prim2SF a) as [s|s| |s m e]; try discriminate; cbn; eauto.
Qed.

(** Adding a zero changes nothing, except that [-0 + 0] is [+0]. *)
Lemma fadd_zero_r (a z : float) : isZero z → a ≠ -0 → a + z = a.
Proof.
  intros Hz Ha. apply Prim2SF_inj. rewrite add_spec.
  assert (Hz' : Prim2SF z = S754_zero false ∨ Prim2SF z = S754_zero true)
    by (destruct Hz as [-> | ->]; [left|right]; reflexivity).
  assert (Ha' : Prim2SF a ≠ S754_zero true).
  { intros E. apply Ha. apply Prim2SF_inj. by rewrite E. }
  destruct (Prim2SF a) as [s|s| |s m e]; destruct Hz' as [-> | ->]; cbn;
    try reflexivity; destruct s; try reflexivity; congruence.
Qed.

(** [v + 0 * h] and [v + h * 0] are [v]. *)
Lemma drift_l (v h : float) : is_finite h = true → v ≠ -0 → v + 0 * h = v.
Proof. intros Hh Hv. apply fadd_zero_r; [by apply fmul_zero_l|done]. Qed.

Lemma drift_r (v h : float) : is_finite h = true → v ≠ -0 → v + h * 0 = v.
Proof. intros Hh Hv. apply fadd_zero_r; [by apply fmul_zero_r|done]. Qed.

Lemma shift52 (m : positive) :
  SpecFloat.iter_pos shr_1 52
    {| shr_m := Z.pos (4503599627370496 * m); shr_r := false; shr_s := false |}
  = {| shr_m := Z.pos m; shr_r := false; shr_s := false |}.
Proof. reflexivity. Qed.

Lemma digits_shift (m : positive) (n : nat) :
  Z.pos (digits2_pos (Nat.iter n xO m))
  = (Z.pos (digits2_pos m) + Z.of_nat n)%Z.
Proof.
  unfold Nat.iter. induction n as [|n IH]; [simpl; lia|].
  cbn [nat_rect digits2_pos]. rewrite Pos2Z.inj_succ, IH. lia.
Qed.

Lemma digits52 (m : positive) :
  Z.pos (digits2_pos (4503599627370496 * m))
  = (Z.pos (digits2_pos m) + 52)%Z.
Proof. exact (digits_shift m 52). Qed.

Lemma digits_succ (p : positive) :
  (Z.pos (digits2_pos (Pos.succ p)) <= Z.pos (digits2_pos p) + 1)%Z.
Proof.
  induction p as [p IH|p IH|];
    [change (Pos.succ (xI p)) with (xO (Pos.succ p))
    |change (Pos.succ (xO p)) with (xI p)
    |change (Pos.succ xH) with (xO xH)];
    cbn [digits2_pos]; rewrite ?Pos2Z.inj_succ; lia.
Qed.

Lemma digits_half (p : positive) :
  (Z.pos (digits2_pos p~0) = Z.pos (digits2_pos p) + 1
   ∧ Z.pos (digits2_pos p~1) = Z.pos (digits2_pos p) + 1)%Z.
Proof. cbn [digits2_pos]. rewrite !Pos2Z.inj_succ. lia. Qed.

(** The mantissa of a binary64 value times [2^52], at an exponent [52]
    lower, rounds to the value. *)
Lemma round_exact (s : bool) (m : positive) (e : Z) :
  SpecFloat.bounded prec emax m e = true →
  binary_round_aux prec emax s (Z.pos (m * 4503599627370496)) (e + -52)
    loc_Exact
  = S754_finite s m e.
Proof.
  intros Hb. apply andb_prop in Hb as [Hc He].
  unfold canonical_mantissa in Hc. apply Z.eqb_eq in Hc.
  rewrite Pos.mul_comm. unfold binary_round_aux.
  assert (H1 : shr_fexp prec emax (Z.pos (4503599627370496 * m)) (e + -52)
                 loc_Exact
               = ({| shr_m := Z.pos m; shr_r := false; shr_s := false |}, e)).
  { unfold shr_fexp. cbn [Zdigits2]. rewrite digits52.
    replace (Z.pos (digits2_pos m) + 52 + (e + -52))%Z
      with (Z.pos (digits2_pos m) + e)%Z by lia.
    rewrite Hc. replace (e - (e + -52))%Z with 52%Z by lia.
    cbn [shr shr_record_of_loc]. rewrite shift52. f_equal. lia. }
  rewrite H1. cbn [shr_m loc_of_shr_record round_nearest_even].
  assert (H2 : shr_fexp prec emax (Z.pos m) e loc_Exact
               = ({| shr_m := Z.pos m; shr_r := false; shr_s := false |}, e)).
  { unfold shr_fexp. cbn [Zdigits2]. rewrite Hc, Z.sub_diag. reflexivity. }
  rewrite H2. cbn [shr_m]. by rewrite He.
Qed.

(** [a * 1] is [a], bit for bit. *)
Lemma fmul_1_r (a : float) : a * 1 = a.
Proof.
  apply Prim2SF_inj. rewrite mul_spec.
  change (Prim2SF 1) with (S754_finite false 4503599627370496 (-52)).
  pose proof (Prim2SF_valid a) as Hv.
  destruct (Prim2SF a) as [s|s| |s m e]; cbn [SF64mul SFmul]; try reflexivity.
  - by destruct s.
  - by destruct s.
  - unfold SF64mul, SFmul. rewrite xorb_false_r. by apply round_exact.
Qed.

(** A mantissa of at most 53 digits at the least exponent needs no
    shift. *)
Lemma settle_min (s : bool) (m2 : Z) :
  (0 <= m2)%Z → (Zdigits2 m2 <= 53)%Z →
  finiteSF
    (let '(mrs, e) := shr_fexp prec emax m2 (-1074) loc_Exact in
     match shr_m mrs with
     | Z0 => S754_zero s
     | Z.pos m =>
         if (e <=? emax - prec)%Z then S754_finite s m e else S754_infinity s
     | Z.neg _ => S754_nan
     end) = true.
Proof.
  intros H0 Hd. unfold shr_fexp.
  replace (fexp prec emax (Zdigits2 m2 + -1074) - -1074)%Z with 0%Z
    by (unfold fexp, emin, prec, emax in *; lia).
  cbn [shr shr_record_of_loc shr_m]. destruct m2 as [|p|p]; [reflexivity| |lia].
  reflexivity.
Qed.

(** Halving a finite value rounds to a finite value: exactly above the
    least exponent, with one bit rounded away at the least exponent. *)
Lemma half_round (s : bool) (m : positive) (e : Z) :
  SpecFloat.bounded prec emax m e = true →
  finiteSF (binary_round_aux prec emax s (Z.pos (4503599627370496 * m))
              (-53 + e) loc_Exact)
  = true.
Proof.
  intros Hb. apply andb_prop in Hb as [Hc He].
  unfold canonical_mantissa in Hc. apply Z.eqb_eq in Hc. apply Z.leb_le in He.
  unfold binary_round_aux.
  destruct (Z.eq_dec e (-1074)%Z) as [->|Hne].
  - assert (Hd : (Z.pos (digits2_pos m) <= 53)%Z)
      by (unfold fexp, emin, prec, emax in Hc; lia).
    assert (H1 : shr_fexp prec emax (Z.pos (4503599627370496 * m))
                   (-53 + -1074) loc_Exact
                 = (shr_1 {| shr_m := Z.pos m; shr_r := false;
                             shr_s := false |}, (-1074)%Z)).
    { unfold shr_fexp. cbn [Zdigits2]. rewrite digits52.
      replace (fexp prec emax (Z.pos (digits2_pos m) + 52 + (-53 + -1074))
               - (-53 + -1074))%Z
        with 53%Z by (unfold fexp, emin, prec, emax in *; lia).
      reflexivity. }
    rewrite H1.
    destruct m as [p|p|].
    + cbn [shr_1 orb shr_m loc_of_shr_record round_nearest_even].
      destruct (digits_half p) as [_ Hp]. rewrite Hp in Hd.
      destruct (Z.even (Z.pos p)).
      * apply settle_min; [lia|cbn [Zdigits2]; lia].
      * change (Z.pos p + 1)%Z with (Z.pos (p + 1)). rewrite Pos.add_1_r.
        apply settle_min; [lia|]. cbn [Zdigits2].
        pose proof (digits_succ p). lia.
    + cbn [shr_1 orb shr_m loc_of_shr_record round_nearest_even].
      destruct (digits_half p) as [Hp _]. rewrite Hp in Hd.
      apply settle_min; [lia|cbn [Zdigits2]; lia].
    + reflexivity.
  - assert (He' : fexp prec emax (Z.pos (digits2_pos m) + e - 1) = (e - 1)%Z)
      by (unfold fexp, emin, prec, emax in *; lia).
    assert (H1 : shr_fexp prec emax (Z.pos (4503599627370496 * m)) (-53 + e)
                   loc_Exact
                 = ({| shr_m := Z.pos m; shr_r := false; shr_s := false |},
                    (e - 1)%Z)).
    { unfold shr_fexp. cbn [Zdigits2]. rewrite digits52.
      replace (Z.pos (digits2_pos m) + 52 + (-53 + e))%Z
        with (Z.pos (digits2_pos m) + e - 1)%Z by lia.
      rewrite He'. replace (e - 1 - (-53 + e))%Z with 52%Z by lia.
      cbn [shr shr_record_of_loc]. f_equal. lia. }
    rewrite H1. cbn [shr_m loc_of_shr_record round_nearest_even].
    assert (H2 : shr_fexp prec emax (Z.pos m) (e - 1) loc_Exact
                 = ({| shr_m := Z.pos m; shr_r := false; shr_s := false |},
                    (e - 1)%Z)).
    { unfold shr_fexp. cbn [Zdigits2].
      replace (Z.pos (digits2_pos m) + (e - 1))%Z
        with (Z.pos (digits2_pos m) + e - 1)%Z by lia.
      rewrite He', Z.sub_diag. reflexivity. }
    rewrite H2. cbn [shr_m].
    replace (e - 1 <=? emax - prec)%Z with true; [reflexivity|].
    symmetry. apply Z.leb_le. lia.
Qed.

(** [0.5 * dt] is finite when [dt] is. *)
Lemma half_finite (a : float) : is_finite a = true → is_finite (0.5 * a) = true.
Proof.
  rewrite !is_finite_SF, mul_spec.
  change (Prim2SF 0.5) with (S754_finite false 4503599627370496 (-53)).
  pose proof (Prim2SF_valid a) as Hv.
  destruct (Prim2SF a) as [s|s| |s m e]; try discriminate; intros _.
  - reflexivity.
  - unfold SF64mul, SFmul. by apply half_round.
Qed.

(** *** A single free charge in binary64 *)

(** A charge alone, without magnets, gets the acceleration [(0, 0)]. *)
Lemma lone_charge_accel (L : Libm) (c : Charge.t float)
    (options : Options.t float) :
  lm_hypot L 0 0 = 0 →
  computeAccelerations (NT := Float64 L) [c] [] options = [setAccel c (0, 0)].
Proof.
  intros H0.
  rewrite computeAccelerations_withAcc. unfold withAcc. cbn [imap]. f_equal.
  unfold netAccel. cbn [lookup list_lookup].
  rewrite (lorentz_no_magnets L _ _ H0).
  unfold pairSum. cbn [length seq foldl]. by rewrite accum_self.
Qed.

(** [stepPhysics] keeps the velocity and moves the charge by the rounded
    product [v * dt]. *)
Lemma lone_charge_euler (L : Libm) (c : Charge.t float) (dt : float)
    (options : Options.t float) :
  lm_hypot L 0 0 = 0 →
  Charge.pinned c = false →
  default 1 (Options.damping options) = 1 →
  is_finite dt = true →
  Charge.vx c ≠ -0 → Charge.vy c ≠ -0 →
  ∃ c', stepPhysics (NT := Float64 L) [c] [] dt options = [c']
    ∧ Charge.vx c' = Charge.vx c ∧ Charge.vy c' = Charge.vy c
    ∧ Charge.x c' = Charge.x c + Charge.vx c * dt
    ∧ Charge.y c' = Charge.y c + Charge.vy c * dt.
Proof.
  intros H0 Hp Hd Hdt Hvx Hvy.
  unfold stepPhysics. rewrite (lone_charge_accel L _ _ H0).
  cbn [fmap list_fmap]. eexists. split; [reflexivity|].
  unfold integrate. cbn [setAccel Charge.pinned]. rewrite Hp.
  change (default num_1 (Options.damping options))
    with (default 1 (Options.damping options)).
  rewrite Hd.
  cbn [setMotion setAccel Charge.vx Charge.vy Charge.x Charge.y
       Charge.ax Charge.ay State.x State.y State.vx State.vy fst snd
       nadd nmul Float64].
  rewrite !fmul_1_r, !drift_l by done. done.
Qed.

(** [stepPhysicsRK4] keeps the velocity and moves the charge by [dt]
    times the rounded mean [(v + 2*v + 2*v + v) / 6]. *)
Lemma lone_charge_rk4 (L : Libm) (c : Charge.t float) (dt : float)
    (options : Options.t float) :
  lm_hypot L 0 0 = 0 →
  Charge.pinned c = false →
  default 1 (Options.damping options) = 1 →
  is_finite dt = true →
  Charge.vx c ≠ -0 → Charge.vy c ≠ -0 →
  ∃ c', stepPhysicsRK4 (NT := Float64 L) [c] [] dt options = [c']
    ∧ Charge.vx c' = Charge.vx c ∧ Charge.vy c' = Charge.vy c
    ∧ Charge.x c'
      = Charge.x c
        + dt * ((Charge.vx c + 2 * Charge.vx c + 2 * Charge.vx c
                 + Charge.vx c) / 6)
    ∧ Charge.y c'
      = Charge.y c
        + dt * ((Charge.vy c + 2 * Charge.vy c + 2 * Charge.vy c
                 + Charge.vy c) / 6).
Proof.
  intros H0 Hp Hd Hdt Hvx Hvy.
  pose proof (half_finite dt Hdt) as Hh.
  rewrite stepPhysicsRK4_spec.
  unfold rk4_k4, rk4_k3, rk4_k2, rk4_k1, stageDerivative.
  repeat (rewrite (lone_charge_accel L _ _ H0);
          cbn [fmap list_fmap moved zip_with setAccel Charge.pinned];
          rewrite ?Hp).
  cbn [imap]. eexists. split; [reflexivity|].
  unfold combineFn. cbn [lookup list_lookup fmap list_fmap].
  cbn [Charge.pinned setMotion setAccel]. rewrite Hp.
  change (default num_1 (Options.damping options))
    with (default 1 (Options.damping options)).
  rewrite Hd. unfold rkMean.
  cbn [setMotion setAccel snapshot derivative advance
       Charge.vx Charge.vy Charge.x Charge.y Charge.ax Charge.ay
       State.x State.y State.vx State.vy fst snd
       nadd nmul ndiv num_0 num_2 num_6 num_half Float64].
  rewrite !(drift_r _ (0.5 * dt)) by done.
  change ((0 + 2 * 0 + 2 * 0 + 0) / 6) with 0.
  rewrite !(drift_r _ dt) by done.
  rewrite !fmul_1_r. done.
Qed.

End Binary64.

(** ** The two-charge Euler scenario *)

Section Scenario.
Local Open Scope float_scope.

(** C1: for the charges [{x:0, y:0, q:1, m:1, vx:0, vy:0, pinned:false}]
    and [{x:10, y:0, q:1, m:1, pinned:true}], no magnets, [k = 1],
    [softening = 0], [maxAccel = Infinity], [damping = 1] and [dt = 1],
    one call of [stepPhysics] leaves the free charge with acceleration
    [(-1/100, 0)], velocity [(-0.01, 0)] and position [(-0.01, 0)], as
    binary64 values: [-1/100] is the quotient computed in binary64 and
    [-0.01] the literal, [-0x1.47ae147ae147bp-7] both. *)
Theorem euler_two_charge_scenario (L : Libm) (ax0 ay0 vx1 vy1 ax1 ay1 : float) :
  lm_hypot L 0 0 = 0 →
  ∃ c', stepPhysics (NT := Float64 L)
          [scenario_free ax0 ay0; scenario_pinned vx1 vy1 ax1 ay1]
          [] 1 scenario_options !! 0%nat = Some c'
    ∧ Charge.ax c' = -1 / 100 ∧ Charge.ay c' = 0
    ∧ Charge.vx c' = -0x1.47ae147ae147bp-7 ∧ Charge.vy c' = 0
    ∧ Charge.x c' = -0x1.47ae147ae147bp-7 ∧ Charge.y c' = 0.
Proof.
  intros H0. eexists. split.
  - rewrite stepPhysics_lookup. cbn [lookup list_lookup fmap option_fmap option_map].
    unfold netAccel. cbn [lookup list_lookup].
    rewrite (lorentz_no_magnets L _ _ H0).
    unfold pairSum, accum, pairInc. cbn [length seq foldl lookup list_lookup].
    rewrite (decide_True (P := 0%nat = 0%nat)) by done.
    rewrite (decide_False (P := 0%nat = 1%nat)) by done.
    rewrite (decide_True (P := (0 < 1)%nat)) by lia.
    cbn [Options.maxAccel scenario_options default].
    rewrite clamp_unbounded. reflexivity.
  - vm_compute. repeat split; reflexivity.
Qed.

End Scenario.

(** ** The kernel in exact arithmetic *)

Section ExactArithmetic.
Local Open Scope R_scope.
Implicit Types (c : Charge.t R) (cs : list (Charge.t R)).

Lemma Rgtb_irrefl (a : R) : Rgtb a a = false.
Proof. unfold Rgtb. destruct (Rlt_dec a a) as [H|H]; [lra|done]. Qed.

Lemma hypot_exact_0 : hypot (Number := Exact) 0 0 = 0.
Proof. simpl. replace (0 * 0 + 0 * 0) with 0 by ring. apply sqrt_0. Qed.

Lemma Rpower_three_halves (r : R) : 0 < r → Rpower r (3 / 2) = sqrt r * r.
Proof.
  intros Hr. replace (3 / 2) with (/ 2 + 1) by lra.
  by rewrite Rpower_plus, Rpower_sqrt, Rpower_1.
Qed.

(** With a softening other than zero no [r2] is zero: every point is
    off the charges, no two charges are at the same place and no charge
    is on a magnet. *)
Lemma softened_r2 (soft dx dy : R) :
  soft ≠ 0 → 0 < dx * dx + dy * dy + soft * soft.
Proof.
  intros Hs. assert (0 < soft * soft) by (destruct (Rtotal_order soft 0)
    as [H|[H|H]]; [nra|done|nra]).
  nra.
Qed.

Lemma offCharges_softened (soft px py : R) cs :
  soft ≠ 0 → offCharges soft px py cs.
Proof. intros Hs. apply Forall_forall. intros c _. by apply softened_r2. Qed.

Lemma apart_softened (soft : R) cs : soft ≠ 0 → apart soft cs.
Proof. intros Hs i j a b _ _ _. by apply softened_r2. Qed.

Lemma offMagnets_softened (soft : R) cs (magnets : list (Magnet.t R)) :
  soft ≠ 0 → offMagnets soft cs magnets.
Proof.
  intros Hs. apply Forall_forall. intros c _.
  apply Forall_forall. intros g _. by apply softened_r2.
Qed.

(** [k * q * invR3 * d], as the code computes it, is the term of the
    specification, where [r2] is positive. *)
Lemma coulomb_factor (k qc r2 d : R) :
  0 < r2 →
  k * qc * (1 / (sqrt r2 * r2)) * d = k * qc * d / Rpower r2 (3 / 2).
Proof.
  intros Hpos. rewrite Rpower_three_halves by done.
  assert (sqrt r2 ≠ 0) by (apply Rgt_not_eq; by apply sqrt_lt_R0).
  field. split; [lra|done].
Qed.

(** In exact arithmetic, off the charge, the term of the code is the
    term of the specification. *)
Lemma fieldTerm_exact (k eps px py : R) c :
  0 < (px - Charge.x c) * (px - Charge.x c)
      + (py - Charge.y c) * (py - Charge.y c) + eps * eps →
  fieldTerm (NT := Exact) k eps px py c = coulombTerm k eps px py c.
Proof.
  intros Hpos. unfold fieldTerm, coulombTerm.
  cbn [nadd nsub nmul ndiv nsqrt num_1 Exact].
  by rewrite !coulomb_factor.
Qed.

(** In the reals the order of a sum does not matter. *)
Lemma sumList_exact (l : list R) : sumList (NT := Exact) l = Rsum l.
Proof.
  unfold sumList, Rsum. cbn [nadd num_0 Exact].
  assert (H : ∀ a, foldl Rplus a l = a + foldr Rplus 0 l).
  { induction l as [|r l IH]; intros a; cbn [foldl foldr]; [ring|].
    rewrite IH. ring. }
  rewrite H. ring.
Qed.

(** C3, as the code has it.  First part: in any arithmetic, binary64
    included, [electricFieldAt] returns the sum, added up from [0] in
    array order, of the terms [k * q * (1 / (sqrt r2 * r2)) * D] of all
    the charges of the list, none left out, where
    [D = (px, py) - (c.x, c.y)] and [r2 = D.x*D.x + D.y*D.y + eps*eps].
    Second part: in exact arithmetic, at a point that is off the charges
    (always so when the softening is not zero), these terms are the
    [k * q * D / (|D|^2 + softening^2)^1.5] of the specification, and
    the result is their sum, for every list of charges and every [k]. *)
Theorem electricFieldAt_is_coulomb_sum :
  (∀ (T : Type) (NT : Number T) (px py : T) (charges : list (Charge.t T))
     (options : Options.t T),
     electricFieldAt px py charges options
     = (sumList ((λ ch, (fieldTerm (default num_1 (Options.k options))
                                  (default num_tenth (Options.softening options))
                                  px py ch).1) <$> charges),
        sumList ((λ ch, (fieldTerm (default num_1 (Options.k options))
                                  (default num_tenth (Options.softening options))
                                  px py ch).2) <$> charges)))
  ∧ (∀ (px py : R) cs (options : Options.t R),
       offCharges (default (1 / 10) (Options.softening options)) px py cs →
       electricFieldAt (NT := Exact) px py cs options
       = (Rsum ((λ c, (coulombTerm (default 1 (Options.k options))
                                   (default (1 / 10) (Options.softening options))
                                   px py c).1) <$> cs),
          Rsum ((λ c, (coulombTerm (default 1 (Options.k options))
                                   (default (1 / 10) (Options.softening options))
                                   px py c).2) <$> cs))).
Proof.
  split.
  - intros T NT px py charges options. apply electricFieldAt_sum.
  - intros px py cs options Hoff. rewrite electricFieldAt_sum, !sumList_exact.
    f_equal; f_equal; apply Forall_fmap_ext_1; eapply Forall_impl;
      [exact Hoff| |exact Hoff|]; intros c Hc; cbn beta;
      change (default num_1 (Options.k options))
        with (default 1 (Options.k options));
      change (default num_tenth (Options.softening options))
        with (default (1 / 10) (Options.softening options));
      by rewrite fieldTerm_exact.
Qed.

(** C8, in exact arithmetic: for two charges of equal magnitude and
    opposite sign, at a point equidistant from the two and off them
    (always so when the softening is not zero), the field of
    [electricFieldAt] is parallel to the line joining the charges (its
    component across the line is zero), for every softening and every
    [k]. *)
Theorem dipole_field_along_axis_exact (px py : R) (c1 c2 : Charge.t R)
    (options : Options.t R) :
  Charge.q c2 = - Charge.q c1 →
  (px - Charge.x c1) * (px - Charge.x c1) + (py - Charge.y c1) * (py - Charge.y c1)
  = (px - Charge.x c2) * (px - Charge.x c2) + (py - Charge.y c2) * (py - Charge.y c2) →
  offCharges (default (1 / 10) (Options.softening options)) px py [c1; c2] →
  acrossLine (NT := Exact)
    (electricFieldAt (NT := Exact) px py [c1; c2] options) c1 c2 = 0.
Proof.
  intros Hq Hd _. unfold acrossLine, electricFieldAt.
  cbn [foldl fst snd nadd nsub nmul ndiv nsqrt num_0 num_1 num_tenth Exact].
  rewrite <- Hd, Hq. unfold Rdiv. ring.
Qed.

Lemma lorentz_zero_field_exact (magnets : list (Magnet.t R))
    (options : Options.t R) c :
  totalMagneticFieldAt (NT := Exact) (Charge.x c) (Charge.y c)
    magnets options = (0, 0) →
  lorentz (NT := Exact) magnets options c = None.
Proof.
  intros HB. unfold lorentz. rewrite HB. cbn [fst snd].
  change (ngt (hypot 0 0) num_0) with (Rgtb (hypot (Number := Exact) 0 0) 0).
  by rewrite hypot_exact_0, Rgtb_irrefl, andb_false_r.
Qed.

(** A charge alone, without magnets, gets no acceleration. *)
Lemma lone_charge_accel_exact c (options : Options.t R) :
  computeAccelerations (NT := Exact) [c] [] options = [setAccel c (0, 0)].
Proof.
  rewrite computeAccelerations_withAcc. unfold withAcc. cbn [imap]. f_equal.
  unfold netAccel. cbn [lookup list_lookup].
  rewrite lorentz_zero_field_exact by done.
  unfold pairSum. cbn [length seq foldl]. by rewrite accum_self.
Qed.

(** C7, as the code has it: on a single charge that is not pinned, with
    no magnets and [damping = 1], for every [k], [softening] and
    [maxAccel]: in exact arithmetic [stepPhysics] and [stepPhysicsRK4]
    both leave the velocity [(vx, vy)] as it is and add
    [(vx * dt, vy * dt)] to the position, for every [dt]; in binary64, for
    a finite [dt] and velocity components other than [-0], both leave the
    velocity as it is, bit for bit, [stepPhysics] moves the charge to
    [x + vx * dt] and [stepPhysicsRK4] to
    [x + dt * ((vx + 2*vx + 2*vx + vx) / 6)]. *)
Theorem lone_charge_straight_line :
  (∀ c (dt : R) (options : Options.t R),
     Charge.pinned c = false →
     default 1 (Options.damping options) = 1 →
     ∃ c', stepPhysics (NT := Exact) [c] [] dt options = [c']
       ∧ Charge.vx c' = Charge.vx c ∧ Charge.vy c' = Charge.vy c
       ∧ Charge.x c' = Charge.x c + Charge.vx c * dt
       ∧ Charge.y c' = Charge.y c + Charge.vy c * dt)
  ∧ (∀ c (dt : R) (options : Options.t R),
       Charge.pinned c = false →
       default 1 (Options.damping options) = 1 →
       ∃ c', stepPhysicsRK4 (NT := Exact) [c] [] dt options = [c']
         ∧ Charge.vx c' = Charge.vx c ∧ Charge.vy c' = Charge.vy c
         ∧ Charge.x c' = Charge.x c + Charge.vx c * dt
         ∧ Charge.y c' = Charge.y c + Charge.vy c * dt)
  ∧ (∀ (L : Libm) (ch : Charge.t float) (dt : float)
       (options : Options.t float),
       lm_hypot L 0%float 0%float = 0%float →
       Charge.pinned ch = false →
       default 1%float (Options.damping options) = 1%float →
       is_finite dt = true →
       Charge.vx ch ≠ (-0)%float → Charge.vy ch ≠ (-0)%float →
       ∃ ch', stepPhysics (NT := Float64 L) [ch] [] dt options = [ch']
         ∧ Charge.vx ch' = Charge.vx ch ∧ Charge.vy ch' = Charge.vy ch
         ∧ Charge.x ch' = (Charge.x ch + Charge.vx ch * dt)%float
         ∧ Charge.y ch' = (Charge.y ch + Charge.vy ch * dt)%float)
  ∧ (∀ (L : Libm) (ch : Charge.t float) (dt : float)
       (options : Options.t float),
       lm_hypot L 0%float 0%float = 0%float →
       Charge.pinned ch = false →
       default 1%float (Options.damping options) = 1%float →
       is_finite dt = true →
       Charge.vx ch ≠ (-0)%float → Charge.vy ch ≠ (-0)%float →
       ∃ ch', stepPhysicsRK4 (NT := Float64 L) [ch] [] dt options = [ch']
         ∧ Charge.vx ch' = Charge.vx ch ∧ Charge.vy ch' = Charge.vy ch
         ∧ Charge.x ch'
           = (Charge.x ch
              + dt * ((Charge.vx ch + 2 * Charge.vx ch + 2 * Charge.vx ch
                       + Charge.vx ch) / 6))%float
         ∧ Charge.y ch'
           = (Charge.y ch
              + dt * ((Charge.vy ch + 2 * Charge.vy ch + 2 * Charge.vy ch
                       + Charge.vy ch) / 6))%float).
Proof.
  split; [|split; [|split]].
  - intros c dt options Hp Hd.
    unfold stepPhysics. rewrite lone_charge_accel_exact.
    cbn [fmap list_fmap]. eexists. split; [reflexivity|].
    unfold integrate. cbn [setAccel Charge.pinned]. rewrite Hp.
    change (default num_1 (Options.damping options))
      with (default 1 (Options.damping options)).
    rewrite Hd. simpl. repeat split; ring.
  - intros c dt options Hp Hd.
    rewrite stepPhysicsRK4_spec.
    unfold rk4_k4, rk4_k3, rk4_k2, rk4_k1, stageDerivative.
    repeat (rewrite lone_charge_accel_exact;
            cbn [fmap list_fmap moved zip_with setAccel Charge.pinned];
            rewrite ?Hp).
    cbn [imap]. eexists. split; [reflexivity|].
    unfold combineFn. simpl. rewrite Hp.
    change (default num_1 (Options.damping options))
      with (default 1 (Options.damping options)).
    rewrite Hd. unfold rkMean. simpl. repeat split; field.
  - intros L ch dt options. apply lone_charge_euler.
  - intros L ch dt options. apply lone_charge_rk4.
Qed.

(** C10, as the code has it: the magnetic term that
    [computeAccelerations] adds to a charge of a mass other than zero,
    at a place that is on no magnet (unless the softening is not zero),
    is perpendicular to the velocity of the charge (their dot product is
    zero) in exact arithmetic; a charge at rest gets no magnetic term,
    and neither does
    a charge at a point where the total magnetic field is zero, in exact
    arithmetic and in binary64 alike (for a [Math.hypot] that returns
    [+0] on zeros, as ECMAScript requires). *)
Theorem lorentz_perpendicular :
  (∀ (magnets : list (Magnet.t R)) (options : Options.t R) c d,
     Charge.m c ≠ 0 →
     offMagnets (default (1 / 10) (Options.softening options)) [c] magnets →
     lorentz (NT := Exact) magnets options c = Some d →
     alongVelocity (NT := Exact) d c = 0)
  ∧ (∀ (magnets : list (Magnet.t R)) (options : Options.t R) c,
       Charge.vx c = 0 → Charge.vy c = 0 →
       lorentz (NT := Exact) magnets options c = None)
  ∧ (∀ (magnets : list (Magnet.t R)) (options : Options.t R) c,
       totalMagneticFieldAt (NT := Exact) (Charge.x c) (Charge.y c)
         magnets options = (0, 0) →
       lorentz (NT := Exact) magnets options c = None)
  ∧ (∀ (L : Libm) magnets options (ch : Charge.t float),
       hypotOfZeros L → isZero (Charge.vx ch) → isZero (Charge.vy ch) →
       lorentz (NT := Float64 L) magnets options ch = None)
  ∧ (∀ (L : Libm) magnets options (ch : Charge.t float),
       hypotOfZeros L →
       isZero (totalMagneticFieldAt (NT := Float64 L) (Charge.x ch)
                 (Charge.y ch) magnets options).1 →
       isZero (totalMagneticFieldAt (NT := Float64 L) (Charge.x ch)
                 (Charge.y ch) magnets options).2 →
       lorentz (NT := Float64 L) magnets options ch = None).
Proof.
  repeat split.
  - intros magnets options c d _ _. unfold lorentz.
    destruct (_ && _); [|done]. intros [= <-].
    unfold alongVelocity. simpl. unfold Rdiv. ring.
  - intros magnets options c Hx Hy. unfold lorentz. rewrite Hx, Hy.
    change (ngt (hypot 0 0) num_0) with (Rgtb (hypot (Number := Exact) 0 0) 0).
    by rewrite hypot_exact_0, Rgtb_irrefl.
  - intros magnets options c. apply lorentz_zero_field_exact.
  - intros L magnets options ch. apply lorentz_at_rest.
  - intros L magnets options ch. apply lorentz_zero_field.
Qed.

End ExactArithmetic.

(** ** The field-based step *)

Section FieldStep.
Context {T : Type} {NT : Number T}.
Local Open Scope num_scope.
Implicit Types (cs : list (Charge.t T)) (A : nat → T * T).

Lemma withAcc_ext_in cs A A' :
  (∀ t, t < length cs → A t = A' t) → withAcc cs A = withAcc cs A'.
Proof.
  intros H. apply imap_ext. intros t c Ht. simpl.
  rewrite H; [done|]. by eapply lookup_lt_Some.
Qed.

Lemma fieldFromOthers_withAcc k soft i c a cs A :
  fieldFromOthers k soft i (setAccel c a) (withAcc cs A)
  = fieldFromOthers k soft i c cs.
Proof.
  unfold fieldFromOthers. rewrite length_withAcc.
  apply foldl_ext_list. intros E j. unfold fieldAccum.
  rewrite lookup_withAcc. by destruct (cs !! j).
Qed.

Lemma fieldStep_withAcc k soft i cs A :
  fieldStep k soft i (withAcc cs A)
  = withAcc cs (λ t, if decide (t = i) then fieldAcc k soft cs t else A t).
Proof.
  unfold fieldStep. rewrite lookup_withAcc.
  destruct (cs !! i) as [c|] eqn:Hc; simpl; apply list_eq; intros t.
  - rewrite fieldFromOthers_withAcc.
    destruct (decide (t = i)) as [->|Hne].
    + rewrite list_lookup_insert_eq
        by (rewrite length_withAcc; by eapply lookup_lt_Some).
      rewrite lookup_withAcc, Hc. rewrite decide_True by done.
      unfold fieldAcc. by rewrite Hc.
    + rewrite list_lookup_insert_ne by done. rewrite !lookup_withAcc.
      by rewrite decide_False.
  - rewrite !lookup_withAcc. destruct (decide (t = i)) as [->|Hne].
    + by rewrite Hc.
    + done.
Qed.

Lemma field_loop k soft cs A (ixs : list nat) :
  foldl (λ l i, fieldStep k soft i l) (withAcc cs A) ixs
  = withAcc cs (λ t, if decide (t ∈ ixs) then fieldAcc k soft cs t else A t).
Proof.
  revert A. induction ixs as [|i ixs IH]; intros A; cbn [foldl].
  - apply withAcc_ext. intros t. rewrite decide_False; [done|].
    apply not_elem_of_nil.
  - rewrite fieldStep_withAcc, IH. apply withAcc_ext. intros t.
    destruct (decide (t ∈ ixs)) as [Hin|Hin].
    + rewrite decide_True; [done|]. by right.
    + destruct (decide (t = i)) as [->|Hne].
      * rewrite decide_True; [done|]. left.
      * rewrite decide_False; [done|]. rewrite elem_of_cons. tauto.
Qed.

(** [stepPhysicsUsingFields], charge by charge. *)
Lemma stepPhysicsUsingFields_spec cs dt options :
  stepPhysicsUsingFields cs dt options
  = integrate dt (default num_1 (Options.damping options))
    <$> withAcc cs (fieldAcc (default num_1 (Options.k options))
                             (default num_tenth (Options.softening options))
                             cs).
Proof.
  unfold stepPhysicsUsingFields. f_equal.
  rewrite alter_loop_fmap, fmap_zeroAccel, field_loop.
  apply withAcc_ext_in. intros t Ht. rewrite decide_True; [done|].
  rewrite elem_of_seq. lia.
Qed.

Lemma stepPhysics_spec cs magnets dt options :
  stepPhysics cs magnets dt options
  = integrate dt (default num_1 (Options.damping options))
    <$> withAcc cs (netAccel magnets options cs).
Proof. unfold stepPhysics. by rewrite computeAccelerations_withAcc. Qed.

End FieldStep.

(** ** Pairwise forces and the field query agree, in exact arithmetic *)

Section ExactConsistency.
Local Open Scope R_scope.
Implicit Types (c : Charge.t R) (cs : list (Charge.t R)).

Lemma clamp_idle_exact (M : R) (inc : R * R) :
  ngt (Number := Exact) (hypot (Number := Exact) inc.1 inc.2) M = false →
  clamp (NT := Exact) M inc = inc.
Proof. intros H. unfold clamp. by rewrite H. Qed.

(** The running sum of the pairwise loop for charge [t] stays [q / m]
    times the running field of the field-based loop. *)
Lemma accum_matches_field (k soft M : R) cs t c :
  cs !! t = Some c →
  noClampFires (NT := Exact) k soft M cs →
  ∀ (js : list nat) (a E : R * R),
    a = (Charge.q c * E.1 / Charge.m c, Charge.q c * E.2 / Charge.m c) →
    foldl (accum (NT := Exact) k soft M cs t) a js
    = (Charge.q c * (foldl (fieldAccum (NT := Exact) k soft t c cs) E js).1
       / Charge.m c,
       Charge.q c * (foldl (fieldAccum (NT := Exact) k soft t c cs) E js).2
       / Charge.m c).
Proof.
  intros Hc Hno js. induction js as [|j js IH]; intros a E Ha; cbn [foldl].
  - done.
  - apply IH. unfold accum, fieldAccum, pairInc. rewrite Hc.
    destruct (decide (t = j)) as [->|Hne]; [done|].
    destruct (cs !! j) as [o|] eqn:Ho; [|done].
    destruct (decide (t < j)%nat) as [Hlt|Hge].
    + destruct (Hno t j c o Hc Ho Hlt) as [HA _].
      rewrite clamp_idle_exact by done. subst a.
      unfold vadd, rawIncA, pairForce. simpl. unfold Rdiv. f_equal; ring.
    + assert (Hjt : (j < t)%nat) by lia.
      destruct (Hno j t o c Ho Hc Hjt) as [_ HB].
      rewrite clamp_idle_exact by done. subst a.
      unfold vadd, rawIncB, pairForce. simpl.
      replace ((Charge.x o - Charge.x c) * (Charge.x o - Charge.x c)
               + (Charge.y o - Charge.y c) * (Charge.y o - Charge.y c)
               + soft * soft)
        with ((Charge.x c - Charge.x o) * (Charge.x c - Charge.x o)
              + (Charge.y c - Charge.y o) * (Charge.y c - Charge.y o)
              + soft * soft) by ring.
      unfold Rdiv. f_equal; ring.
Qed.

(** C6, in exact arithmetic: without magnets, with masses other than
    zero, no two charges at the same place (unless the softening is not
    zero) and [maxAccel] large enough that no pairwise clamp fires,
    [stepPhysics] returns the charges that the field-based step
    [stepPhysicsUsingFields] returns: the same acceleration, velocity and
    position for every charge. *)
Theorem pairwise_step_matches_field_step_exact cs (dt : R)
    (options : Options.t R) :
  Forall (λ c, Charge.m c ≠ 0) cs →
  apart (default (1 / 10) (Options.softening options)) cs →
  noClampFires (NT := Exact)
    (default 1 (Options.k options))
    (default (1 / 10) (Options.softening options))
    (default 2000 (Options.maxAccel options)) cs →
  stepPhysics (NT := Exact) cs [] dt options
  = stepPhysicsUsingFields (NT := Exact) cs dt options.
Proof.
  intros _ _ Hno. rewrite stepPhysics_spec, stepPhysicsUsingFields_spec. f_equal.
  apply withAcc_ext_in. intros t Ht.
  destruct (lookup_lt_is_Some_2 cs t Ht) as [c Hc].
  unfold netAccel, fieldAcc. rewrite Hc.
  rewrite lorentz_zero_field_exact by done.
  unfold pairSum, fieldFromOthers.
  apply (accum_matches_field _ _ _ cs t c Hc Hno).
  simpl. unfold Rdiv. f_equal; ring.
Qed.

End ExactConsistency.

(** ** The kernel run on binary64 inputs *)

Section Binary64Runs.
Local Open Scope float_scope.

(** *** Unequal masses: the increments of a pair are not opposite *)

(** Two unit charges, of the same sign or of opposite signs, ten apart,
    of masses [1] and [2], with [k = 1] and no softening: the increments
    are [(-0.01, 0)] and [(0.005, 0)] (signs swapped for opposite
    charges), of different magnitudes, and they are the accelerations
    [computeAccelerations] leaves in the two charges when nothing is
    clamped. *)
Lemma unequal_mass_increments_differ :
  rawIncA (NT := Float64 libm_ref) 1 0 light (heavy 1)
  = (-0x1.47ae147ae147bp-7, 0)
  ∧ rawIncB (NT := Float64 libm_ref) 1 0 light (heavy 1)
    = (0x1.47ae147ae147bp-8, -0)
  ∧ (λ c, (Charge.ax c, Charge.ay c))
    <$> computeAccelerations (NT := Float64 libm_ref) [light; heavy 1] []
          scenario_options
    = [(-0x1.47ae147ae147bp-7, 0); (0x1.47ae147ae147bp-8, 0)]
  ∧ rawIncB (NT := Float64 libm_ref) 1 0 light (heavy 1)
    ≠ (- (rawIncA (NT := Float64 libm_ref) 1 0 light (heavy 1)).1,
       - (rawIncA (NT := Float64 libm_ref) 1 0 light (heavy 1)).2)
  ∧ rawIncB (NT := Float64 libm_ref) 1 0 light (heavy (-1))
    ≠ (- (rawIncA (NT := Float64 libm_ref) 1 0 light (heavy (-1))).1,
       - (rawIncA (NT := Float64 libm_ref) 1 0 light (heavy (-1))).2).
Proof.
  repeat split; try (vm_compute; reflexivity);
    intros H; apply (f_equal fst) in H; vm_compute in H;
    by apply float_neq in H.
Qed.

(** The same pair with equal masses, for the theorem above. *)
Lemma equal_mass_increments_opposite_witness :
  Charge.m light = Charge.m (charge 10 0 0 0 1 1 false)
  ∧ rawIncB (NT := Float64 libm_ref) 1 0 light (charge 10 0 0 0 1 1 false)
    = (- (rawIncA (NT := Float64 libm_ref) 1 0 light
            (charge 10 0 0 0 1 1 false)).1,
       - (rawIncA (NT := Float64 libm_ref) 1 0 light
            (charge 10 0 0 0 1 1 false)).2).
Proof.
  split; [reflexivity|].
  apply (equal_mass_increments_opposite libm_ref). reflexivity.
Defined.

(** *** The scenario of C1, and a pinned charge through two steps *)

Lemma euler_two_charge_scenario_witness :
  lm_hypot libm_ref 0 0 = 0
  ∧ ∃ c', stepPhysics (NT := Float64 libm_ref)
            [scenario_free nan nan; scenario_pinned nan nan nan nan]
            [] 1 scenario_options !! 0%nat = Some c'
      ∧ Charge.ax c' = -1 / 100 ∧ Charge.ay c' = 0
      ∧ Charge.vx c' = -0x1.47ae147ae147bp-7 ∧ Charge.vy c' = 0
      ∧ Charge.x c' = -0x1.47ae147ae147bp-7 ∧ Charge.y c' = 0.
Proof.
  split; [reflexivity|].
  apply (euler_two_charge_scenario libm_ref). reflexivity.
Defined.

Lemma pinned_charge_untouched_witness :
  scenario !! 1%nat = Some (scenario_pinned nan nan nan nan)
  ∧ Charge.pinned (scenario_pinned nan nan nan nan) = true
  ∧ ∃ c', run (NT := Float64 libm_ref)
            [Euler [] 1 scenario_options; RK4 [] 0.5 scenario_options]
            scenario !! 1%nat = Some c'
      ∧ Charge.x c' = 10 ∧ Charge.y c' = 0
      ∧ Charge.vx c' = nan ∧ Charge.vy c' = nan
      ∧ Charge.pinned c' = true.
Proof.
  split; [reflexivity|]. split; [reflexivity|].
  apply (pinned_charge_untouched (NT := Float64 libm_ref)
           [Euler [] 1 scenario_options; RK4 [] 0.5 scenario_options]
           scenario 1 (scenario_pinned nan nan nan nan));
    reflexivity.
Defined.

(** A free unit charge at the origin, ten from a pinned one, with
    [dt = 0.5] and [damping = 0.5].  The accelerations at the four stage
    points are [-0.01], [-0.01], [-0.009998750117177737] and
    [-0.009997500468671885], the velocities there [0], [-0.0025],
    [-0.0025] and [-0.0049993750585888685]; the charge ends at
    [x = -0.0012499479215490725] with [vx = -0.002499791695959473], the
    damping having halved the velocity once. *)
Lemma stepPhysicsRK4_combination_witness :
  ∃ d1 d2 d3 d4 c',
    d1 = State.mk 0 0 (-0x1.47ae147ae147bp-7) 0
    ∧ d2 = State.mk (-0x1.47ae147ae147bp-9) 0 (-0x1.47ae147ae147bp-7) 0
    ∧ d3 = State.mk (-0x1.47ae147ae147bp-9) 0 (-0x1.47a398608822ep-7) 0
    ∧ d4 = State.mk (-0x1.47a398608822ep-8) 0 (-0x1.47991cc700188p-7) 0
    ∧ stepPhysicsRK4 (NT := Float64 libm_ref) tethered [] 0.5
        tethered_options !! 0%nat = Some c'
    ∧ Charge.x c'
      = 0 + 0.5 * ((State.x d1 + 2 * State.x d2 + 2 * State.x d3
                    + State.x d4) / 6)
    ∧ Charge.y c'
      = 0 + 0.5 * ((State.y d1 + 2 * State.y d2 + 2 * State.y d3
                    + State.y d4) / 6)
    ∧ Charge.vx c'
      = (0 + 0.5 * ((State.vx d1 + 2 * State.vx d2 + 2 * State.vx d3
                     + State.vx d4) / 6)) * 0.5
    ∧ Charge.vy c'
      = (0 + 0.5 * ((State.vy d1 + 2 * State.vy d2 + 2 * State.vy d3
                     + State.vy d4) / 6)) * 0.5
    ∧ Charge.x c' = -0x1.47aa95c76e3b7p-10 ∧ Charge.y c' = 0
    ∧ Charge.vx c' = -0x1.47a71729735e3p-9 ∧ Charge.vy c' = 0.
Proof.
  destruct (stepPhysicsRK4_combination (NT := Float64 libm_ref)
              tethered [] 0.5 tethered_options 0
              (charge 0 0 0 0 1 1 false) eq_refl eq_refl)
    as (d1 & d2 & d3 & d4 & c' & H1 & H2 & H3 & H4 & Hc' & Hx & Hy & Hvx & Hvy
        & _).
  vm_compute in H1. vm_compute in H2. vm_compute in H3. vm_compute in H4.
  injection H1 as <-. injection H2 as <-. injection H3 as <-.
  injection H4 as <-.
  do 4 eexists. exists c'.
  do 4 (split; [reflexivity|]). split; [exact Hc'|].
  split; [exact Hx|]. split; [exact Hy|]. split; [exact Hvx|].
  split; [exact Hvy|].
  rewrite Hx, Hy, Hvx, Hvy. vm_compute. repeat split.
Defined.

(** *** Pairwise forces against the field query *)

(** With the options of the scenario ([k = 1], no softening, no clamp,
    no damping) and [dt = 1], the pairwise step computes
    [k*q*q*(1/125)*(-5) = 0.07200000000000001*(-5)] for the first charge
    and the field-based step [q*(k*q*(1/125)*(-5)) = 3*(-0.12)]: the
    accelerations differ in the last bit, [-0.36000000000000004] against
    [-0.36], and so do the velocities and positions. *)
Lemma pairwise_step_differs_from_field_step :
  Charge.ax <$> stepPhysics (NT := Float64 libm_ref) threes [] 1 scenario_options
  = [-0x1.70a3d70a3d70bp-2; 0x1.70a3d70a3d70bp-2]
  ∧ Charge.ax <$> stepPhysicsUsingFields (NT := Float64 libm_ref) threes 1
                    scenario_options
    = [-0x1.70a3d70a3d70ap-2; 0x1.70a3d70a3d70ap-2]
  ∧ stepPhysics (NT := Float64 libm_ref) threes [] 1 scenario_options
    ≠ stepPhysicsUsingFields (NT := Float64 libm_ref) threes 1 scenario_options.
Proof.
  repeat split; try (vm_compute; reflexivity).
  intros H. apply (f_equal (λ l, from_option Charge.ax 0 (l !! 0%nat))) in H.
  vm_compute in H. by apply float_neq in H.
Qed.

(** *** A single free charge under RK4 *)

(** With [dt = 1] and the default options, [stepPhysicsRK4] moves the
    charge to [x = 0.09999999999999999], which is
    [1 * ((0.1 + 2*0.1 + 2*0.1 + 0.1) / 6)], and not to
    [0 + 0.1 * 1 = 0.1]. *)
Lemma rk4_lone_charge_misses_v_dt :
  Charge.pinned drifting = false
  ∧ default 1 (Options.damping (@Options.empty float)) = 1
  ∧ Charge.x <$> stepPhysicsRK4 (NT := Float64 libm_ref) [drifting] [] 1
                   Options.empty
    = [0x1.9999999999999p-4]
  ∧ Charge.x drifting + Charge.vx drifting * 1 = 0x1.999999999999ap-4
  ∧ Charge.x <$> stepPhysicsRK4 (NT := Float64 libm_ref) [drifting] [] 1
                   Options.empty
    ≠ [Charge.x drifting + Charge.vx drifting * 1].
Proof.
  repeat split; try (vm_compute; reflexivity).
  intros H. apply (f_equal (λ l, default 0 (l !! 0%nat))) in H.
  vm_compute in H. by apply float_neq in H.
Qed.

(** *** The field of a dipole off its axis *)

(** The point [(3, 4)] is at distance [5] from both poles.  With
    [k = 1] and no softening both charges have [invR3 = 1/125 = 0.008]
    and [factor = 0.024] and [-0.024]; the field is
    [(0.072 + 0.096, 0.096 - 0.072) = (0.168, 0.023999999999999994)].
    The line joining the poles has direction [(7, 1)], and the first
    component is not seven times the second: the component across the
    line is [2^-54], not zero. *)
Lemma dipole_field_off_axis :
  Charge.q minus_pole = - Charge.q plus_pole
  ∧ (3 - 0) * (3 - 0) + (4 - 0) * (4 - 0) = (3 - 7) * (3 - 7) + (4 - 1) * (4 - 1)
  ∧ electricFieldAt (NT := Float64 libm_ref) 3 4 [plus_pole; minus_pole]
      unsoftened
    = (0x1.5810624dd2f1bp-3, 0x1.89374bc6a7ef8p-6)
  ∧ acrossLine (NT := Float64 libm_ref)
      (electricFieldAt (NT := Float64 libm_ref) 3 4 [plus_pole; minus_pole]
         unsoftened) plus_pole minus_pole
    = 0x1p-54
  ∧ acrossLine (NT := Float64 libm_ref)
      (electricFieldAt (NT := Float64 libm_ref) 3 4 [plus_pole; minus_pole]
         unsoftened) plus_pole minus_pole
    ≠ 0.
Proof.
  repeat split; try (vm_compute; reflexivity).
  intros H. vm_compute in H. by apply float_neq in H.
Qed.

(** *** The magnetic term against the velocity *)

(** For every [Libm] that is exact at the five arguments used, the field
    at the charge is [(20, 0)], [|v| = 13], and the magnetic term is
    [(1*(-12/13)*20*13, 1*(5/13)*20*13) = (-240.00000000000003, 100)]. *)
Lemma lorentz_mover (L : Libm) :
  lm_cos L 0 = 1 → lm_sin L 0 = 0 → lm_hypot L 20 0 = 20 →
  lm_hypot L 5 12 = 13 → lm_hypot L (-12) 5 = 13 →
  lorentz (NT := Float64 L) [bar] unsoftened mover
  = Some (-0x1.e000000000001p+7, 100).
Proof.
  intros Hc Hs HB Hv Hp. unfold lorentz.
  assert (HBt : totalMagneticFieldAt (NT := Float64 L) (Charge.x mover)
                  (Charge.y mover) [bar] unsoftened = (20, 0)).
  { unfold totalMagneticFieldAt, magneticFieldAt.
    cbn [foldl bar mover charge Magnet.x Magnet.y Magnet.angle Magnet.strength
         Charge.x Charge.y ncos nsin Float64].
    rewrite Hc, Hs. vm_compute. reflexivity. }
  rewrite HBt.
  cbn [fst snd mover charge Charge.vx Charge.vy Charge.q Charge.m
       hypot nneg Float64].
  change (- (12))%float with (-12)%float.
  rewrite HB, Hv, Hp. vm_compute. reflexivity.
Qed.

(** That term is what [computeAccelerations] leaves in the charge, which
    has no partner.  Its dot product with the velocity is
    [-240.00000000000003*5 + 100*12 = -1200.0000000000002 + 1200], not
    zero. *)
Lemma lorentz_term_not_perpendicular :
  ∃ d, lorentz (NT := Float64 libm_ref) [bar] unsoftened mover = Some d
    ∧ d = (-0x1.e000000000001p+7, 100)
    ∧ (λ c, (Charge.ax c, Charge.ay c))
      <$> computeAccelerations (NT := Float64 libm_ref) [mover] [bar] unsoftened
      = [d]
    ∧ alongVelocity (NT := Float64 libm_ref) d mover = -0x1p-42
    ∧ alongVelocity (NT := Float64 libm_ref) d mover ≠ 0.
Proof.
  eexists. split; [|split; [reflexivity|split; [|split]]].
  - apply (lorentz_mover libm_ref); vm_compute; reflexivity.
  - vm_compute. reflexivity.
  - vm_compute. reflexivity.
  - intros H. vm_compute in H. by apply float_neq in H.
Qed.

End Binary64Runs.

(** ** The kernel run on real inputs *)

Section ExactRuns.
Local Open Scope R_scope.

Lemma Rgtb_sqrt_small (x M : R) :
  0 <= M → x <= M * M → Rgtb (sqrt x) M = false.
Proof.
  intros HM Hx. unfold Rgtb. destruct (Rlt_dec M (sqrt x)) as [H|H]; [|done].
  exfalso. apply (Rlt_irrefl M). eapply Rlt_le_trans; [exact H|].
  rewrite <- (sqrt_square M) by done. by apply sqrt_le_1_alt.
Qed.

Lemma Rgtb_sqrt_pos (x : R) : 0 < x → Rgtb (sqrt x) 0 = true.
Proof.
  intros Hx. unfold Rgtb. destruct (Rlt_dec 0 (sqrt x)) as [H|H]; [done|].
  exfalso. apply H. by apply sqrt_lt_R0.
Qed.

(** *** Two unit charges, one apart *)

(** Their increments have magnitude [1], far below the default
    [maxAccel = 2000]. *)
Lemma near_pair_unclamped : noClampFires (NT := Exact) 1 0 2000 near_pair.
Proof.
  intros i j a b Ha Hb Hij.
  destruct i as [|[|i]], j as [|[|j]]; simplify_eq/=; try lia.
  unfold rawIncA, rawIncB, pairForce. simpl.
  replace ((0 - 1) * (0 - 1) + (0 - 0) * (0 - 0) + 0 * 0) with 1 by ring.
  rewrite sqrt_1.
  split; apply Rgtb_sqrt_small; lra.
Qed.

Lemma near_pair_masses : Forall (λ c : Charge.t R, Charge.m c ≠ 0) near_pair.
Proof. repeat constructor; cbn; lra. Qed.

Lemma near_pair_apart : apart 0 near_pair.
Proof.
  intros i j a b Ha Hb Hij.
  destruct i as [|[|i]], j as [|[|j]]; simplify_eq/=; lra.
Qed.

Lemma pairwise_step_matches_field_step_exact_witness :
  Forall (λ c : Charge.t R, Charge.m c ≠ 0) near_pair
  ∧ apart (default (1 / 10) (Options.softening no_soft)) near_pair
  ∧ noClampFires (NT := Exact)
      (default 1 (Options.k no_soft))
      (default (1 / 10) (Options.softening no_soft))
      (default 2000 (Options.maxAccel no_soft)) near_pair
  ∧ stepPhysics (NT := Exact) near_pair [] 2 no_soft
    = stepPhysicsUsingFields (NT := Exact) near_pair 2 no_soft.
Proof.
  split; [exact near_pair_masses|]. split; [exact near_pair_apart|].
  split; [exact near_pair_unclamped|].
  apply (pairwise_step_matches_field_step_exact near_pair 2 no_soft).
  - exact near_pair_masses.
  - exact near_pair_apart.
  - exact near_pair_unclamped.
Defined.

(** *** A single free charge *)

Lemma lone_charge_straight_line_witness :
  (∃ c', stepPhysics (NT := Exact) [coasting] [] 2 no_soft = [c']
     ∧ Charge.vx c' = 3 ∧ Charge.vy c' = 4
     ∧ Charge.x c' = 1 + 3 * 2 ∧ Charge.y c' = 2 + 4 * 2)
  ∧ (∃ c', stepPhysicsRK4 (NT := Exact) [coasting] [] 2 no_soft = [c']
       ∧ Charge.vx c' = 3 ∧ Charge.vy c' = 4
       ∧ Charge.x c' = 1 + 3 * 2 ∧ Charge.y c' = 2 + 4 * 2)
  ∧ (∃ c', stepPhysics (NT := Float64 libm_ref) [drifting] [] 1%float
             Options.empty = [c']
       ∧ Charge.vx c' = 0x1.999999999999ap-4%float ∧ Charge.vy c' = 0%float
       ∧ Charge.x c' = (0 + 0x1.999999999999ap-4 * 1)%float
       ∧ Charge.y c' = (0 + 0 * 1)%float)
  ∧ (∃ c', stepPhysicsRK4 (NT := Float64 libm_ref) [drifting] [] 1%float
             Options.empty = [c']
       ∧ Charge.vx c' = 0x1.999999999999ap-4%float ∧ Charge.vy c' = 0%float
       ∧ Charge.x c' = 0x1.9999999999999p-4%float
       ∧ Charge.y c' = 0%float).
Proof.
  destruct lone_charge_straight_line as (Ha & Hb & Hc & Hd).
  split; [|split; [|split]].
  - exact (Ha coasting 2 no_soft eq_refl eq_refl).
  - exact (Hb coasting 2 no_soft eq_refl eq_refl).
  - apply (Hc libm_ref drifting 1%float Options.empty); try reflexivity;
      by apply float_neq.
  - destruct (Hd libm_ref drifting 1%float Options.empty)
      as (c' & E & Hvx & Hvy & Hx & Hy); try reflexivity;
      try (by apply float_neq).
    exists c'. split; [exact E|]. split; [exact Hvx|]. split; [exact Hvy|].
    split; [by rewrite Hx|by rewrite Hy].
Defined.

(** *** A dipole *)

Lemma dipole_field_along_axis_exact_witness :
  Charge.q rminus_pole = - Charge.q rplus_pole
  ∧ (3 - 0) * (3 - 0) + (4 - 0) * (4 - 0) = (3 - 7) * (3 - 7) + (4 - 1) * (4 - 1)
  ∧ offCharges 0 3 4 [rplus_pole; rminus_pole]
  ∧ acrossLine (NT := Exact)
      (electricFieldAt (NT := Exact) 3 4 [rplus_pole; rminus_pole] no_soft)
      rplus_pole rminus_pole = 0.
Proof.
  assert (Hq : Charge.q rminus_pole = - Charge.q rplus_pole) by (simpl; lra).
  assert (Hd : (3 - Charge.x rplus_pole) * (3 - Charge.x rplus_pole)
               + (4 - Charge.y rplus_pole) * (4 - Charge.y rplus_pole)
               = (3 - Charge.x rminus_pole) * (3 - Charge.x rminus_pole)
                 + (4 - Charge.y rminus_pole) * (4 - Charge.y rminus_pole))
    by (simpl; lra).
  assert (Hoff : offCharges 0 3 4 [rplus_pole; rminus_pole])
    by (repeat constructor; cbn; lra).
  split; [exact Hq|]. split; [exact Hd|]. split; [exact Hoff|].
  exact (dipole_field_along_axis_exact 3 4 rplus_pole rminus_pole
           no_soft Hq Hd Hoff).
Defined.

(** *** The field of one charge *)

(** The field of the charge [q = 9] at [(5, 0)], at the origin, without
    softening: the sum of the specification has the one term
    [1 * 9 * (-5, 0) / 25^1.5 = (-9/25, 0)]. *)
Lemma electricFieldAt_is_coulomb_sum_witness :
  offCharges (default (1 / 10) (Options.softening no_soft)) 0 0 [rnine]
  ∧ electricFieldAt (NT := Exact) 0 0 [rnine] no_soft
    = (Rsum ((λ c, (coulombTerm 1 0 0 0 c).1) <$> [rnine]),
       Rsum ((λ c, (coulombTerm 1 0 0 0 c).2) <$> [rnine])).
Proof.
  assert (Hoff : offCharges (default (1 / 10) (Options.softening no_soft))
                   0 0 [rnine]) by (repeat constructor; cbn; lra).
  split; [exact Hoff|].
  exact (proj2 electricFieldAt_is_coulomb_sum 0 0 [rnine] no_soft Hoff).
Defined.

Lemma toR_finite (a : float) (s : bool) (m : positive) (e : Z) :
  Prim2SF a = S754_finite s m e → toR a = SF2R (S754_finite s m e).
Proof. intros H. unfold toR. by rewrite H. Qed.

(** The same charge on binary64.  [invR3 = 1 / (5 * 25) = 0.008],
    [factor = 1 * 9 * 0.008 = 0.07200000000000001], and the code returns
    [Ex = 0 + 0.07200000000000001 * (-5) = -0.36000000000000004], for
    every [Libm].  The sum of the specification is [-9/25]; the code's
    value is not that number, and not the binary64 value nearest to it
    either: [-0.36], one unit in the last place above, is nearer. *)
Lemma electricFieldAt_misses_coulomb_sum :
  (∀ L : Libm,
     electricFieldAt (NT := Float64 L) 0%float 0%float [nine] unsoftened
     = ((-0x1.70a3d70a3d70bp-2)%float, 0%float))
  ∧ (toR (Charge.x nine) = Charge.x rnine
     ∧ toR (Charge.y nine) = Charge.y rnine
     ∧ toR (Charge.q nine) = Charge.q rnine)
  ∧ Rsum ((λ c, (coulombTerm 1 0 0 0 c).1) <$> [rnine]) = - 9 / 25
  ∧ toR (-0x1.70a3d70a3d70bp-2) ≠ - 9 / 25
  ∧ Rabs (toR (-0x1.70a3d70a3d70ap-2) - (- 9 / 25))
    < Rabs (toR (-0x1.70a3d70a3d70bp-2) - (- 9 / 25)).
Proof.
  split; [intros L; vm_compute; reflexivity|].
  split.
  { unfold nine, rnine, charge, rcharge. cbn [Charge.x Charge.y Charge.q].
    rewrite (toR_finite 5 false 5629499534213120 (-50))
      by (vm_compute; reflexivity).
    rewrite (toR_finite 9 false 5066549580791808 (-49))
      by (vm_compute; reflexivity).
    cbv [SF2R Z.leb Z.compare Z.opp].
    change (2 ^ 50)%Z with 1125899906842624%Z.
    change (2 ^ 49)%Z with 562949953421312%Z.
    split; [lra|]. split; [|lra]. vm_compute. reflexivity. }
  split.
  { cbn. replace ((0 - 5) * (0 - 5) + (0 - 0) * (0 - 0) + 0 * 0) with 25
      by ring.
    rewrite Rpower_three_halves by lra.
    replace (sqrt 25) with 5 by (symmetry; apply sqrt_lem_1; lra).
    lra. }
  rewrite (toR_finite (-0x1.70a3d70a3d70bp-2) true 6485183463413515 (-54))
    by (vm_compute; reflexivity).
  rewrite (toR_finite (-0x1.70a3d70a3d70ap-2) true 6485183463413514 (-54))
    by (vm_compute; reflexivity).
  cbv [SF2R Z.leb Z.compare Z.opp].
  change (2 ^ 54)%Z with 18014398509481984%Z.
  split; [lra|].
  unfold Rabs. repeat destruct (Rcase_abs _); lra.
Qed.

(** *** A moving charge next to a magnet, and a charge at rest *)


(** With [|v| = 5] the term is
    [(1 * (-4/5) * 2 * 5 / 1, 1 * (3/5) * 2 * 5 / 1) = (-8, 6)]. *)
Lemma lorentz_rmover_value :
  lorentz (NT := Exact) [rbar] no_soft rmover = Some (-8, 6).
Proof.
  unfold lorentz.
  assert (HB : totalMagneticFieldAt (NT := Exact) (Charge.x rmover)
                 (Charge.y rmover) [rbar] no_soft = (2, 0)).
  { unfold totalMagneticFieldAt, magneticFieldAt. simpl.
    rewrite cos_0, sin_0.
    replace ((1 - 0) * (1 - 0) + (0 - 0) * (0 - 0) + 0 * 0) with 1 by ring.
    rewrite sqrt_1. unfold vadd. simpl. f_equal; field. }
  rewrite HB. simpl. rewrite !Rgtb_sqrt_pos by lra. simpl.
  replace (2 * 2 + 0 * 0) with (2 * 2) by ring.
  replace (3 * 3 + 4 * 4) with (5 * 5) by ring.
  replace (- (4) * - (4) + 3 * 3) with (5 * 5) by ring.
  rewrite !sqrt_square by lra.
  f_equal. f_equal; field.
Qed.

Lemma lorentz_perpendicular_witness :
  (Charge.m rmover ≠ 0
   ∧ offMagnets 0 [rmover] [rbar]
   ∧ lorentz (NT := Exact) [rbar] no_soft rmover = Some (-8, 6)
   ∧ alongVelocity (NT := Exact) (-8, 6) rmover = 0)
  ∧ (Charge.vx resting = 0 ∧ Charge.vy resting = 0
     ∧ lorentz (NT := Exact) [rbar] no_soft resting = None)
  ∧ (totalMagneticFieldAt (NT := Exact) (Charge.x rmover) (Charge.y rmover)
       [] no_soft = (0, 0)
     ∧ lorentz (NT := Exact) [] no_soft rmover = None)
  ∧ (hypotOfZeros libm_ref
     ∧ lorentz (NT := Float64 libm_ref) [bar] unsoftened
         (charge 1 0 0 (-0) 1 1 false) = None)
  ∧ lorentz (NT := Float64 libm_ref) [] unsoftened mover = None.
Proof.
  destruct lorentz_perpendicular as (Ha & Hb & Hc & Hd & He).
  split; [|split; [|split; [|split]]].
  - assert (Hm : Charge.m rmover ≠ 0) by (cbn; lra).
    assert (Hoff : offMagnets 0 [rmover] [rbar])
      by (repeat constructor; cbn; lra).
    split; [exact Hm|]. split; [exact Hoff|].
    split; [exact lorentz_rmover_value|].
    exact (Ha [rbar] no_soft rmover (-8, 6) Hm Hoff lorentz_rmover_value).
  - split; [reflexivity|]. split; [reflexivity|].
    exact (Hb [rbar] no_soft resting eq_refl eq_refl).
  - split; [reflexivity|]. exact (Hc [] no_soft rmover eq_refl).
  - split; [exact hypotOfZeros_ref|].
    apply (Hd libm_ref); [exact hypotOfZeros_ref|by left|by right].
  - apply (He libm_ref); [exact hypotOfZeros_ref|by left|by left].
Defined.

End ExactRuns.

(** * Beyond the claims

    ** What the force accumulator and the integrators keep *)

Section KernelFrame.
Context {T : Type} {NT : Number T}.
Local Open Scope num_scope.
Implicit Types (cs : list (Charge.t T)).

Lemma Forall2_withAcc cs (A : nat → T * T) :
  Forall2 sameButAccel cs (withAcc cs A).
Proof.
  apply Forall2_same_length_lookup_2; [by rewrite length_withAcc|].
  intros i c c' Hc. rewrite lookup_withAcc, Hc. intros [= <-].
  by repeat split.
Qed.

(** X1: [computeAccelerations] returns an array of the same length in
    which every charge has the position, velocity, charge, mass and pin
    flag it had: the function writes [ax] and [ay] and nothing else. *)
Theorem computeAccelerations_writes_only_accelerations cs
    (magnets : list (Magnet.t T)) (options : Options.t T) :
  Forall2 sameButAccel cs (computeAccelerations cs magnets options).
Proof. rewrite computeAccelerations_withAcc. apply Forall2_withAcc. Qed.

(** X2: the accelerations that [computeAccelerations] writes do not
    depend on the accelerations it finds: a second call on its own result
    changes nothing, and zeroing [ax] and [ay] of every charge before the
    call changes nothing. *)
Theorem computeAccelerations_idempotent cs (magnets : list (Magnet.t T))
    (options : Options.t T) :
  computeAccelerations (computeAccelerations cs magnets options) magnets options
  = computeAccelerations cs magnets options
  ∧ computeAccelerations (zeroAccel <$> cs) magnets options
    = computeAccelerations cs magnets options.
Proof.
  split.
  - rewrite (computeAccelerations_withAcc cs) at 1.
    apply computeAccelerations_ignores_accel.
  - rewrite fmap_zeroAccel. apply computeAccelerations_ignores_accel.
Qed.

Lemma sameKind_integrate dt damping (c : Charge.t T) :
  sameKind c (integrate dt damping c).
Proof.
  unfold integrate, sameKind.
  by destruct (Charge.pinned c) eqn:Hp; simpl; rewrite ?Hp.
Qed.

Lemma sameKind_combineFn dt damping state0 k1 k2 k3 k4 i (c : Charge.t T) :
  sameKind c (combineFn dt damping state0 k1 k2 k3 k4 i c).
Proof.
  unfold combineFn, sameKind.
  repeat match goal with
         | |- context [match ?o with Some _ => _ | None => _ end] => destruct o
         end; try done.
  by destruct (Charge.pinned c) eqn:Hp; simpl; rewrite ?Hp.
Qed.

Lemma sameKind_trans (a b c : Charge.t T) :
  sameKind a b → sameKind b c → sameKind a c.
Proof. unfold sameKind. intros (-> & -> & ->) (-> & -> & ->). done. Qed.

Lemma sameKind_integrate_withAcc dt damping cs (A : nat → T * T) :
  Forall2 sameKind cs (integrate dt damping <$> withAcc cs A).
Proof.
  apply Forall2_fmap_r.
  apply Forall2_same_length_lookup_2; [by rewrite length_withAcc|].
  intros i c c' Hc. rewrite lookup_withAcc, Hc. intros [= <-].
  apply (sameKind_integrate _ _ (setAccel c _)).
Qed.

Lemma call_sameKind (cl : Call T) cs : Forall2 sameKind cs (call cl cs).
Proof.
  destruct cl as [magnets dt options|magnets dt options]; cbn [call].
  - rewrite stepPhysics_spec. apply sameKind_integrate_withAcc.
  - apply Forall2_same_length_lookup_2.
    { rewrite stepPhysicsRK4_spec, length_imap, length_computeAccelerations.
      rewrite length_moved; [done|]. unfold rk4_k3.
      rewrite length_stageDerivative, length_moved; [done|]. unfold rk4_k2.
      rewrite length_stageDerivative, length_moved; [done|].
      apply length_stageDerivative. }
    intros i c c' Hc. rewrite stepPhysicsRK4_spec, list_lookup_imap.
    destruct (rk4_last_stage_lookup cs magnets dt options i c Hc)
      as (d3 & _ & ->).
    cbn [fmap option_fmap option_map]. intros [= <-].
    eapply sameKind_trans; [|apply sameKind_combineFn].
    unfold sameKind. by destruct (Charge.pinned c) eqn:Hp; simpl; rewrite ?Hp.
Qed.

(** X3: none of the steppers adds or removes a charge or changes the
    charge [q], the mass [m] or the pin flag of one: this holds for every
    finite sequence of calls of [stepPhysics] and [stepPhysicsRK4], for
    [stepPhysicsUsingFields] and for the [stepPhysics] of the first
    script. *)
Theorem steppers_keep_the_charges (calls : list (Call T)) cs (dt : T)
    (options : Options.t T) :
  Forall2 sameKind cs (run calls cs)
  ∧ Forall2 sameKind cs (stepPhysicsUsingFields cs dt options)
  ∧ Forall2 sameKind cs (Legacy.stepPhysics cs dt options).
Proof.
  split; [|split].
  - unfold run. revert cs. induction calls as [|cl calls IH]; intros cs;
      cbn [foldl].
    + apply Forall_Forall2_diag, Forall_forall. by intros c _.
    + pose proof (call_sameKind cl cs) as H1. specialize (IH (call cl cs)).
      apply Forall2_same_length_lookup_2.
      { rewrite <- (Forall2_length _ _ _ IH). by eapply Forall2_length. }
      intros i c c' Hc Hc'.
      destruct (Forall2_lookup_l _ _ _ _ _ H1 Hc) as (b & Hb & Hcb).
      destruct (Forall2_lookup_l _ _ _ _ _ IH Hb) as (b' & Hb' & Hbb').
      rewrite Hc' in Hb'. injection Hb' as <-. by eapply sameKind_trans.
  - rewrite stepPhysicsUsingFields_spec. apply sameKind_integrate_withAcc.
  - unfold Legacy.stepPhysics. cbv zeta.
    rewrite alter_loop_fmap, fmap_zeroAccel, pairLoop_spec.
    apply sameKind_integrate_withAcc.
Qed.

(** Without magnets the loop of the magnetic term changes nothing. *)
Lemma lorentz_loop_no_magnets (options : Options.t T) (ixs : list nat)
    (l : list (Charge.t T)) :
  ngt (hypot num_0 num_0) num_0 = false →
  foldl (λ cs i, alter (lorentzStep [] options) i cs) l ixs = l.
Proof.
  intros H. revert l. induction ixs as [|i ixs IH]; intros l; cbn [foldl];
    [done|].
  rewrite IH. apply list_eq. intros j.
  destruct (decide (j = i)) as [->|Hne].
  - rewrite list_lookup_alter_eq. destruct (l !! i) as [c|]; [|done].
    cbn [fmap option_fmap option_map]. unfold lorentzStep, lorentz.
    cbn [totalMagneticFieldAt foldl fst snd]. by rewrite H, andb_false_r.
  - by rewrite list_lookup_alter_ne.
Qed.

(** X4: the [stepPhysics] of the first script is the [stepPhysics] of
    the second script with an empty magnet array, in every arithmetic in
    which [Math.hypot(0, 0) > 0] is false. *)
Theorem legacy_stepPhysics_is_magnet_free cs (dt : T) (options : Options.t T) :
  ngt (hypot num_0 num_0) num_0 = false →
  Legacy.stepPhysics cs dt options = stepPhysics cs [] dt options.
Proof.
  intros H. unfold Legacy.stepPhysics, stepPhysics, computeAccelerations.
  cbv zeta. f_equal. symmetry. by apply lorentz_loop_no_magnets.
Qed.

(** The inner loop of the field-based step, over the indices
    [s .. s+n-1], none of which is [i]. *)
Lemma fieldAccum_range k soft i (c : Charge.t T) cs (s n : nat) (E : T * T) :
  (i < s ∨ s + n ≤ i)%nat →
  foldl (fieldAccum k soft i c cs) E (seq s n)
  = foldl (λ E o, vadd E (fieldTerm k soft (Charge.x c) (Charge.y c) o)) E
          (take n (drop s cs)).
Proof.
  revert s E. induction n as [|n IH]; intros s E Hi; cbn [seq foldl].
  { by rewrite take_0. }
  unfold fieldAccum at 2. rewrite decide_False by lia.
  destruct (cs !! s) as [o|] eqn:Ho.
  - rewrite (drop_S _ _ _ Ho). cbn [take foldl]. rewrite IH by lia. done.
  - rewrite IH by lia. apply lookup_ge_None in Ho.
    rewrite !drop_ge by lia. by rewrite !take_nil.
Qed.

Lemma electricFieldAt_fold (px py : T) cs (options : Options.t T) :
  electricFieldAt px py cs options
  = foldl (λ E o, vadd E (fieldTerm (default num_1 (Options.k options))
                            (default num_tenth (Options.softening options))
                            px py o)) (num_0, num_0) cs.
Proof. reflexivity. Qed.

Lemma fieldFromOthers_delete (i : nat) (c : Charge.t T) cs
    (options : Options.t T) :
  cs !! i = Some c →
  fieldFromOthers (default num_1 (Options.k options))
                  (default num_tenth (Options.softening options)) i c cs
  = electricFieldAt (Charge.x c) (Charge.y c) (delete i cs) options.
Proof.
  intros Hc. pose proof (lookup_lt_Some _ _ _ Hc) as Hlt.
  unfold fieldFromOthers.
  replace (length cs) with (i + S (length cs - S i))%nat at 1 by lia.
  rewrite seq_app, foldl_app. cbn [seq foldl plus].
  rewrite fieldAccum_range by lia.
  unfold fieldAccum at 1. rewrite decide_True by done.
  rewrite fieldAccum_range by lia.
  rewrite electricFieldAt_fold.
  rewrite delete_take_drop, foldl_app, drop_0.
  f_equal. apply take_ge. rewrite length_drop. lia.
Qed.

(** X5: the acceleration that [stepPhysicsUsingFields] gives to the
    charge of index [t] is [q * E / m], where [E] is what
    [electricFieldAt] returns at the place of that charge for the array
    without its element [t], with the same options.  The two are the same
    Numbers, not just close. *)
Theorem field_step_uses_the_field_of_the_others cs (dt : T)
    (options : Options.t T) (t : nat) (c : Charge.t T) :
  cs !! t = Some c →
  ∃ c', stepPhysicsUsingFields cs dt options !! t = Some c'
    ∧ Charge.ax c'
      = Charge.q c
        * (electricFieldAt (Charge.x c) (Charge.y c) (delete t cs) options).1
        / Charge.m c
    ∧ Charge.ay c'
      = Charge.q c
        * (electricFieldAt (Charge.x c) (Charge.y c) (delete t cs) options).2
        / Charge.m c.
Proof.
  intros Hc. rewrite stepPhysicsUsingFields_spec, list_lookup_fmap.
  rewrite lookup_withAcc, Hc. cbn [fmap option_fmap option_map].
  eexists. split; [reflexivity|].
  unfold fieldAcc. rewrite Hc, (fieldFromOthers_delete t c cs options Hc).
  unfold integrate. cbn [setAccel Charge.pinned].
  by destruct (Charge.pinned c).
Qed.

End KernelFrame.

(** ** Division by zero in binary64 *)

Section Singular.
Local Open Scope float_scope.

Lemma fsub_self (a : float) : is_finite a = true → a - a = 0.
Proof.
  rewrite is_finite_SF. intros Hf. apply Prim2SF_inj. rewrite sub_spec.
  change (Prim2SF 0) with (S754_zero false).
  destruct (Prim2SF a) as [s|s| |s m e]; try discriminate.
  - by destruct s.
  - unfold SF64sub, SFsub. by rewrite Z.sub_diag.
Qed.

Lemma fadd_nan_r (a : float) : a + nan = nan.
Proof.
  apply Prim2SF_inj. rewrite add_spec. change (Prim2SF nan) with S754_nan.
  by destruct (Prim2SF a).
Qed.

Lemma fadd_nan_l (a : float) : nan + a = nan.
Proof.
  apply Prim2SF_inj. rewrite add_spec. by change (Prim2SF nan) with S754_nan.
Qed.

Lemma fsub_nan_l (a : float) : nan - a = nan.
Proof.
  apply Prim2SF_inj. rewrite sub_spec. by change (Prim2SF nan) with S754_nan.
Qed.

Lemma fmul_nan_l (a : float) : nan * a = nan.
Proof.
  apply Prim2SF_inj. rewrite mul_spec. by change (Prim2SF nan) with S754_nan.
Qed.

Lemma fmul_nan_r (a : float) : a * nan = nan.
Proof.
  apply Prim2SF_inj. rewrite mul_spec. change (Prim2SF nan) with S754_nan.
  by destruct (Prim2SF a).
Qed.

Lemma fdiv_nan_l (a : float) : nan / a = nan.
Proof.
  apply Prim2SF_inj. rewrite div_spec. by change (Prim2SF nan) with S754_nan.
Qed.

(** Whatever [a] is, [a * Infinity * 0] is [NaN]. *)
Lemma fmul_inf_zero (a : float) : a * infinity * 0 = nan.
Proof.
  apply Prim2SF_inj. rewrite !mul_spec.
  change (Prim2SF infinity) with (S754_infinity false).
  change (Prim2SF 0) with (S754_zero false). change (Prim2SF nan) with S754_nan.
  by destruct (Prim2SF a) as [s|s| |s m e].
Qed.

(** Whatever [a] and [b] are, [3 * (a * 0 + b * 0) * 0 / 0] is [NaN]. *)
Lemma zero_over_zero (a b : float) : 3 * (a * 0 + b * 0) * 0 / 0 = nan.
Proof.
  apply Prim2SF_inj. rewrite div_spec, !mul_spec, add_spec, !mul_spec.
  change (Prim2SF 3) with (S754_finite false 6755399441055744 (-51)).
  change (Prim2SF 0) with (S754_zero false). change (Prim2SF nan) with S754_nan.
  by destruct (Prim2SF a) as [[]|[]| |[] ? ?], (Prim2SF b) as [[]|[]| |[] ? ?].
Qed.

(** At distance zero and without softening, [r2] and [r] are [0] and
    [invR3] is [Infinity]. *)
Lemma r2_singular (z : float) :
  isZero z →
  0 * 0 + 0 * 0 + z * z = 0
  ∧ PrimFloat.sqrt (0 * 0 + 0 * 0 + z * z) = 0.
Proof. intros [-> | ->]; split; reflexivity. Qed.

Lemma invR3_singular (z : float) :
  isZero z →
  1 / (PrimFloat.sqrt (0 * 0 + 0 * 0 + z * z) * (0 * 0 + 0 * 0 + z * z))
  = infinity.
Proof. intros [-> | ->]; reflexivity. Qed.

Lemma vadd_nan_r (L : Libm) (a : float * float) :
  vadd (NT := Float64 L) a (nan, nan) = (nan, nan).
Proof. unfold vadd. cbn [fst snd nadd Float64]. by rewrite !fadd_nan_r. Qed.

Lemma vadd_nan_l (L : Libm) (d : float * float) :
  vadd (NT := Float64 L) (nan, nan) d = (nan, nan).
Proof. unfold vadd. cbn [fst snd nadd Float64]. by rewrite !fadd_nan_l. Qed.

Lemma foldl_vadd_nan (L : Libm) {B} (f : B → float * float) (l : list B) :
  foldl (λ E b, vadd (NT := Float64 L) E (f b)) (nan, nan) l = (nan, nan).
Proof.
  induction l as [|b l IH]; cbn [foldl]; [done|]. by rewrite vadd_nan_l.
Qed.

Lemma fieldTerm_singular (L : Libm) (k eps : float) (c : Charge.t float) :
  is_finite (Charge.x c) = true → is_finite (Charge.y c) = true →
  isZero eps →
  fieldTerm (NT := Float64 L) k eps (Charge.x c) (Charge.y c) c = (nan, nan).
Proof.
  intros Hx Hy Hz. unfold fieldTerm.
  cbn [nadd nsub nmul ndiv nsqrt num_1 Float64].
  rewrite !fsub_self by done. rewrite (invR3_singular eps Hz).
  by rewrite fmul_inf_zero.
Qed.

(** X6: with a softening of zero, [electricFieldAt] evaluated at the
    place of one of the charges, a place with finite coordinates, returns
    [NaN] for both components of the field, whatever [k], the charges
    [q] and the other charges are: [invR3] is [1 / 0 = Infinity] and the
    term of that charge is [Infinity * 0]. *)
Theorem electricFieldAt_at_a_charge (L : Libm) (c : Charge.t float)
    (charges : list (Charge.t float)) (options : Options.t float) :
  c ∈ charges →
  is_finite (Charge.x c) = true → is_finite (Charge.y c) = true →
  isZero (default 0x1.999999999999ap-4 (Options.softening options)) →
  electricFieldAt (NT := Float64 L) (Charge.x c) (Charge.y c) charges options
  = (nan, nan).
Proof.
  intros Hin Hx Hy Hz. rewrite electricFieldAt_fold.
  change (@num_tenth float (Float64 L)) with 0x1.999999999999ap-4.
  generalize (@num_0 float (Float64 L), @num_0 float (Float64 L)).
  induction charges as [|b l IH]; intros E; cbn [foldl].
  - by apply elem_of_nil in Hin.
  - apply elem_of_cons in Hin as [<-|Hin]; [|by apply IH].
    rewrite fieldTerm_singular by done. rewrite vadd_nan_r.
    apply (foldl_vadd_nan L).
Qed.

(** X7: with a softening of zero, [magneticFieldAt] evaluated at the
    place of the magnet itself, a place with finite coordinates, returns
    [NaN] for both components, whatever the strength and the angle of the
    magnet are, and so does [totalMagneticFieldAt] at the place of any of
    its magnets. *)
Theorem magneticFieldAt_at_the_magnet (L : Libm) (mag : Magnet.t float)
    (magnets : list (Magnet.t float)) (options : Options.t float) :
  is_finite (Magnet.x mag) = true → is_finite (Magnet.y mag) = true →
  isZero (default 0x1.999999999999ap-4 (Options.softening options)) →
  magneticFieldAt (NT := Float64 L) (Magnet.x mag) (Magnet.y mag) mag options
  = (nan, nan)
  ∧ (mag ∈ magnets →
     totalMagneticFieldAt (NT := Float64 L) (Magnet.x mag) (Magnet.y mag)
       magnets options = (nan, nan)).
Proof.
  intros Hx Hy Hz.
  assert (H : magneticFieldAt (NT := Float64 L) (Magnet.x mag) (Magnet.y mag)
                mag options = (nan, nan)).
  { unfold magneticFieldAt.
    change (@num_tenth float (Float64 L)) with 0x1.999999999999ap-4.
    cbn [nadd nsub nmul ndiv nsqrt num_3 ncos nsin Float64].
    rewrite !fsub_self by done.
    destruct (r2_singular _ Hz) as [-> ->].
    change (0 * 0 * 0) with 0. change (0 * 0) with 0.
    by rewrite !zero_over_zero, !fsub_nan_l. }
  split; [done|]. intros Hin. unfold totalMagneticFieldAt.
  generalize (@num_0 float (Float64 L), @num_0 float (Float64 L)).
  induction magnets as [|b l IH]; intros B; cbn [foldl].
  - by apply elem_of_nil in Hin.
  - apply elem_of_cons in Hin as [<-|Hin]; [|by apply IH].
    rewrite H, vadd_nan_r. apply (foldl_vadd_nan L).
Qed.

Lemma pairForce_singular (L : Libm) (k soft : float) (a b : Charge.t float) :
  Charge.x b = Charge.x a → Charge.y b = Charge.y a →
  is_finite (Charge.x a) = true → is_finite (Charge.y a) = true →
  isZero soft →
  pairForce (NT := Float64 L) k soft a b = (nan, nan).
Proof.
  intros Ex Ey Hx Hy Hz. unfold pairForce. rewrite Ex, Ey.
  cbn [nadd nsub nmul ndiv nsqrt num_1 Float64].
  rewrite !fsub_self by done. rewrite (invR3_singular soft Hz).
  by rewrite fmul_inf_zero.
Qed.

(** The clamp leaves [NaN] as it is, whether it fires or not. *)
Lemma clamp_nan (L : Libm) (M : float) :
  clamp (NT := Float64 L) M (nan, nan) = (nan, nan).
Proof.
  unfold clamp. cbn [fst snd nmul ndiv hypot ngt Float64].
  destruct (_ <? _); [|done]. by rewrite fmul_nan_l.
Qed.

Lemma pairInc_singular (L : Libm) (k soft M : float) cs (t j : nat)
    (c o : Charge.t float) :
  t ≠ j → cs !! t = Some c → cs !! j = Some o →
  Charge.x o = Charge.x c → Charge.y o = Charge.y c →
  is_finite (Charge.x c) = true → is_finite (Charge.y c) = true →
  isZero soft →
  pairInc (NT := Float64 L) k soft M cs t j = Some (nan, nan).
Proof.
  intros Hne Hc Ho Ex Ey Hx Hy Hz. unfold pairInc. rewrite Hc, Ho. f_equal.
  destruct (decide (t < j)%nat).
  - unfold rawIncA. rewrite pairForce_singular by done.
    cbn [fst snd ndiv Float64]. rewrite fdiv_nan_l. apply clamp_nan.
  - unfold rawIncB.
    rewrite pairForce_singular by (try done; congruence).
    cbn [fst snd ndiv nneg Float64].
    change (- nan) with nan. rewrite fdiv_nan_l. apply clamp_nan.
Qed.

Lemma accum_nan (L : Libm) (k soft M : float) cs (t j : nat) :
  accum (NT := Float64 L) k soft M cs t (nan, nan) j = (nan, nan).
Proof.
  unfold accum. case_decide; [done|].
  destruct (pairInc _ _ _ _ _ _); [|done]. apply vadd_nan_l.
Qed.

Lemma foldl_accum_nan (L : Libm) (k soft M : float) cs (t : nat)
    (js : list nat) :
  foldl (accum (NT := Float64 L) k soft M cs t) (nan, nan) js = (nan, nan).
Proof.
  induction js as [|j js IH]; cbn [foldl]; [done|]. by rewrite accum_nan.
Qed.

Lemma pairSum_singular (L : Libm) (k soft M : float) cs (t j : nat)
    (c o : Charge.t float) :
  t ≠ j → cs !! t = Some c → cs !! j = Some o →
  Charge.x o = Charge.x c → Charge.y o = Charge.y c →
  is_finite (Charge.x c) = true → is_finite (Charge.y c) = true →
  isZero soft →
  pairSum (NT := Float64 L) k soft M cs t = (nan, nan).
Proof.
  intros Hne Hc Ho Ex Ey Hx Hy Hz. unfold pairSum.
  assert (Hin : j ∈ seq 0 (length cs)).
  { apply elem_of_seq. apply lookup_lt_Some in Ho. lia. }
  generalize (@num_0 float (Float64 L), @num_0 float (Float64 L)).
  induction (seq 0 (length cs)) as [|i js IH]; intros a; cbn [foldl].
  - by apply elem_of_nil in Hin.
  - apply elem_of_cons in Hin as [<-|Hin]; [|by apply IH].
    unfold accum at 2. rewrite decide_False by done.
    rewrite (pairInc_singular L k soft M cs t j c o) by done.
    rewrite vadd_nan_r. apply foldl_accum_nan.
Qed.

Lemma netAccel_singular (L : Libm) magnets options cs (t j : nat)
    (c o : Charge.t float) :
  t ≠ j → cs !! t = Some c → cs !! j = Some o →
  Charge.x o = Charge.x c → Charge.y o = Charge.y c →
  is_finite (Charge.x c) = true → is_finite (Charge.y c) = true →
  isZero (default 0x1.999999999999ap-4 (Options.softening options)) →
  netAccel (NT := Float64 L) magnets options cs t = (nan, nan).
Proof.
  intros Hne Hc Ho Ex Ey Hx Hy Hz. unfold netAccel.
  rewrite (pairSum_singular L _ _ _ cs t j c o) by done.
  rewrite Hc. destruct (lorentz _ _ _); [|done]. apply vadd_nan_l.
Qed.

(** X8: with a softening of zero, a charge that shares its place, a
    place with finite coordinates, with another charge of the array gets
    the acceleration [(NaN, NaN)] from [computeAccelerations], and, if it
    is not pinned, [stepPhysics] leaves it with [NaN] for its position and
    its velocity - whatever the charges, the masses, [k], [maxAccel], the
    damping, the magnets and [dt] are. *)
Theorem coincident_charges_become_nan (L : Libm) cs magnets (dt : float)
    options (t j : nat) (c o : Charge.t float) :
  t ≠ j → cs !! t = Some c → cs !! j = Some o →
  Charge.x o = Charge.x c → Charge.y o = Charge.y c →
  is_finite (Charge.x c) = true → is_finite (Charge.y c) = true →
  isZero (default 0x1.999999999999ap-4 (Options.softening options)) →
  (∃ c', computeAccelerations (NT := Float64 L) cs magnets options !! t
         = Some c'
     ∧ Charge.ax c' = nan ∧ Charge.ay c' = nan)
  ∧ (Charge.pinned c = false →
     ∃ c', stepPhysics (NT := Float64 L) cs magnets dt options !! t = Some c'
       ∧ Charge.x c' = nan ∧ Charge.y c' = nan
       ∧ Charge.vx c' = nan ∧ Charge.vy c' = nan).
Proof.
  intros Hne Hc Ho Ex Ey Hx Hy Hz. split.
  - rewrite computeAccelerations_withAcc, lookup_withAcc, Hc.
    rewrite (netAccel_singular L magnets options cs t j c o) by done.
    eexists. split; [reflexivity|]. done.
  - intros Hp. rewrite stepPhysics_lookup, Hc.
    rewrite (netAccel_singular L magnets options cs t j c o) by done.
    eexists. split; [reflexivity|].
    unfold integrate. cbn [setAccel Charge.pinned]. rewrite Hp.
    cbn [setMotion Charge.x Charge.y Charge.vx Charge.vy Charge.ax Charge.ay
         State.x State.y State.vx State.vy fst snd nadd nmul Float64].
    by rewrite !fmul_nan_l, !fadd_nan_r, !fmul_nan_l, !fadd_nan_r.
Qed.

Lemma stageDerivative_lookup (L : Libm) cs magnets options (t : nat)
    (c : Charge.t float) :
  cs !! t = Some c →
  stageDerivative (NT := Float64 L) cs magnets options !! t
  = Some (derivative
            (setAccel c (netAccel (NT := Float64 L) magnets options cs t))).
Proof.
  intros Hc. unfold stageDerivative.
  by rewrite list_lookup_fmap, computeAccelerations_withAcc, lookup_withAcc, Hc.
Qed.

(** X9: the same under [stepPhysicsRK4]: with a softening of zero, a
    charge that is not pinned and shares its place, a place with finite
    coordinates, with another charge of the array ends with [NaN] for its
    position and its velocity. *)
Theorem rk4_coincident_charges_become_nan (L : Libm) cs magnets (dt : float)
    options (t j : nat) (c o : Charge.t float) :
  t ≠ j → cs !! t = Some c → cs !! j = Some o →
  Charge.x o = Charge.x c → Charge.y o = Charge.y c →
  is_finite (Charge.x c) = true → is_finite (Charge.y c) = true →
  isZero (default 0x1.999999999999ap-4 (Options.softening options)) →
  Charge.pinned c = false →
  ∃ c', stepPhysicsRK4 (NT := Float64 L) cs magnets dt options !! t = Some c'
     ∧ Charge.x c' = nan ∧ Charge.y c' = nan
     ∧ Charge.vx c' = nan ∧ Charge.vy c' = nan.
Proof.
  intros Hne Hc Ho Ex Ey Hx Hy Hz Hp.
  assert (Hlt : (t < length cs)%nat) by (by eapply lookup_lt_Some).
  assert (Hk4 : length (rk4_k4 (NT := Float64 L) cs magnets dt options)
                = length cs).
  { unfold rk4_k4. rewrite length_stageDerivative, length_moved; [done|].
    unfold rk4_k3. rewrite length_stageDerivative, length_moved; [done|].
    unfold rk4_k2. rewrite length_stageDerivative, length_moved; [done|].
    apply length_stageDerivative. }
  pose proof (stageDerivative_lookup L cs magnets options t c Hc
              : rk4_k1 (NT := Float64 L) cs magnets dt options !! t = Some _)
    as Hd1.
  rewrite (netAccel_singular L magnets options cs t j c o) in Hd1 by done.
  pose proof (lookup_moved (NT := Float64 L) (0.5 * dt) cs _ t c _ Hc Hd1)
    as Hm2.
  rewrite Hp in Hm2.
  pose proof (stageDerivative_lookup L _ magnets options t _ Hm2
              : rk4_k2 (NT := Float64 L) cs magnets dt options !! t = Some _)
    as Hd2.
  destruct (lookup_lt_is_Some_2
              (rk4_k4 (NT := Float64 L) cs magnets dt options) t)
    as [d4 Hd4]; [lia|].
  destruct (rk4_last_stage_lookup (NT := Float64 L) cs magnets dt options t c Hc)
    as (d3 & Hd3 & Hlast).
  rewrite Hp in Hlast.
  eexists. split.
  { rewrite stepPhysicsRK4_spec, list_lookup_imap, Hlast.
    cbn [fmap option_fmap option_map].
    unfold combineFn. rewrite list_lookup_fmap, Hc, Hd1, Hd2, Hd3, Hd4.
    cbn [fmap option_fmap option_map setAccel setMotion Charge.pinned].
    rewrite Hp. reflexivity. }
  unfold rkMean.
  cbn [setMotion setAccel snapshot derivative advance
       Charge.vx Charge.vy Charge.x Charge.y Charge.ax Charge.ay
       State.x State.y State.vx State.vy fst snd
       nadd nmul ndiv num_0 num_2 num_6 num_half Float64].
  repeat first [rewrite fmul_nan_r | rewrite fmul_nan_l | rewrite fadd_nan_r
               | rewrite fadd_nan_l | rewrite fdiv_nan_l].
  done.
Qed.

End Singular.

(** ** The clamp and the pairwise forces, in exact arithmetic *)

Section ExactForces.
Local Open Scope R_scope.
Implicit Types (c : Charge.t R) (cs l : list (Charge.t R)).

Lemma norm2_pos (a : R * R) : 0 <= norm2 a.
Proof. apply sqrt_pos. Qed.

Lemma norm2_sq (a : R * R) : norm2 a * norm2 a = a.1 * a.1 + a.2 * a.2.
Proof. apply sqrt_sqrt. nra. Qed.

Lemma norm2_triangle (a b : R * R) :
  norm2 (vadd (NT := Exact) a b) <= norm2 a + norm2 b.
Proof.
  pose proof (norm2_pos a) as Ha. pose proof (norm2_pos b) as Hb.
  pose proof (norm2_pos (vadd (NT := Exact) a b)) as Hab.
  pose proof (norm2_sq a) as Sa. pose proof (norm2_sq b) as Sb.
  pose proof (norm2_sq (vadd (NT := Exact) a b)) as Sab.
  pose proof (sqrt_cauchy a.1 a.2 b.1 b.2) as Hc.
  unfold Rsqr in Hc. fold (norm2 a) in Hc. fold (norm2 b) in Hc.
  unfold vadd in *. cbn [fst snd nadd Exact] in *.
  nra.
Qed.

(** After the clamp an increment is no longer than [maxAccel]. *)
Lemma clamp_bound_exact (M : R) (inc : R * R) :
  0 <= M → norm2 (clamp (NT := Exact) M inc) <= M.
Proof.
  intros HM. unfold clamp. cbn [hypot ngt nmul ndiv Exact]. fold (norm2 inc).
  unfold Rgtb. destruct (Rlt_dec M (norm2 inc)) as [Hlt|Hge]; [|lra].
  pose proof (norm2_sq inc) as Sq.
  assert (H : norm2 (inc.1 * (M / norm2 inc), inc.2 * (M / norm2 inc)) = M).
  { unfold norm2 at 1. cbn [fst snd]. apply sqrt_lem_1; [nra|lra|].
    replace (inc.1 * (M / norm2 inc) * (inc.1 * (M / norm2 inc))
             + inc.2 * (M / norm2 inc) * (inc.2 * (M / norm2 inc)))
      with ((inc.1 * inc.1 + inc.2 * inc.2)
            * (M / norm2 inc * (M / norm2 inc))) by ring.
    rewrite <- Sq. field. lra. }
  rewrite H. lra.
Qed.

Lemma accum_bound (k soft M : R) cs (t j : nat) (a : R * R) :
  0 <= M → norm2 (accum (NT := Exact) k soft M cs t a j) <= norm2 a + M.
Proof.
  intros HM. unfold accum. pose proof (norm2_pos a).
  case_decide; [lra|]. unfold pairInc.
  destruct (cs !! t) as [c|]; [|lra]. destruct (cs !! j) as [o|]; [|lra].
  etransitivity; [apply norm2_triangle|].
  apply Rplus_le_compat_l.
  case_decide; by apply clamp_bound_exact.
Qed.

Lemma foldl_accum_bound (k soft M : R) cs (t : nat) (js : list nat)
    (a : R * R) :
  0 <= M →
  norm2 (foldl (accum (NT := Exact) k soft M cs t) a js)
  <= norm2 a + INR (length js) * M.
Proof.
  intros HM. revert a. induction js as [|j js IH]; intros a.
  - cbn [foldl length INR]. lra.
  - cbn [foldl]. etransitivity; [apply IH|].
    pose proof (accum_bound k soft M cs t j a HM).
    rewrite length_cons, S_INR. lra.
Qed.

Lemma pairSum_bound (k soft M : R) cs (t : nat) :
  0 <= M → (t < length cs)%nat →
  norm2 (pairSum (NT := Exact) k soft M cs t) <= INR (length cs - 1) * M.
Proof.
  intros HM Ht. unfold pairSum.
  replace (length cs) with (t + S (length cs - S t))%nat at 1 by lia.
  rewrite seq_app, foldl_app. cbn [seq foldl plus]. rewrite accum_self.
  etransitivity; [apply foldl_accum_bound; done|].
  etransitivity; [apply Rplus_le_compat_r, foldl_accum_bound; done|].
  rewrite !length_seq.
  replace (length cs - 1)%nat with (t + (length cs - S t))%nat by lia.
  rewrite plus_INR.
  replace (norm2 (@num_0 R Exact, @num_0 R Exact)) with 0; [lra|].
  unfold norm2. cbn [fst snd num_0 Exact].
  replace (0 * 0 + 0 * 0) with 0 by ring. by rewrite sqrt_0.
Qed.

(** X10: in exact arithmetic, with [maxAccel >= 0], without magnets,
    with masses other than zero and no two charges at the same place
    (unless the softening is not zero), the acceleration that
    [computeAccelerations] gives to a charge is no longer than
    [(N - 1) * maxAccel], [N] being the number of charges: the clamp
    bounds each of the [N - 1] increments of a charge, not their sum. *)
Theorem electric_acceleration_bounded_exact cs (options : Options.t R)
    (t : nat) (c : Charge.t R) :
  0 <= default 2000 (Options.maxAccel options) →
  Forall (λ c, Charge.m c ≠ 0) cs →
  apart (default (1 / 10) (Options.softening options)) cs →
  cs !! t = Some c →
  ∃ c', computeAccelerations (NT := Exact) cs [] options !! t = Some c'
    ∧ sqrt (Charge.ax c' * Charge.ax c' + Charge.ay c' * Charge.ay c')
      <= INR (length cs - 1) * default 2000 (Options.maxAccel options).
Proof.
  intros HM _ _ Hc. rewrite computeAccelerations_withAcc, lookup_withAcc, Hc.
  eexists. split; [reflexivity|].
  cbn [setAccel Charge.ax Charge.ay]. unfold netAccel. rewrite Hc.
  rewrite lorentz_zero_field_exact by done.
  apply (pairSum_bound _ _ _ cs t HM). by eapply lookup_lt_Some.
Qed.

Lemma Rsum_alter (f : Charge.t R → R) (g : Charge.t R → Charge.t R) l
    (i : nat) c :
  l !! i = Some c →
  Rsum (f <$> alter g i l) = Rsum (f <$> l) + (f (g c) - f c).
Proof.
  revert i. induction l as [|b l IH]; intros [|i] Hc; try done.
  - injection Hc as ->. cbn. lra.
  - cbn in Hc. cbn [alter list_alter fmap list_fmap Rsum foldr].
    change (foldr Rplus 0 (f <$> alter g i l)) with (Rsum (f <$> alter g i l)).
    rewrite (IH i Hc). unfold Rsum. lra.
Qed.

Lemma totalForce_addAccel l (i : nat) c (d : R * R) :
  l !! i = Some c →
  totalForce (alter (addAccel (NT := Exact) d) i l)
  = ((totalForce l).1 + Charge.m c * d.1, (totalForce l).2 + Charge.m c * d.2).
Proof.
  intros Hc. unfold totalForce. rewrite !(Rsum_alter _ _ _ _ _ Hc).
  cbn [fst snd addAccel setAccel vadd Charge.m Charge.ax Charge.ay nadd Exact].
  f_equal; ring.
Qed.

(** One pair leaves the total as it is: the two increments are equal
    and opposite forces. *)
Lemma totalForce_pairStep (k soft M : R) (i j : nat) l (a b : Charge.t R) :
  i ≠ j → l !! i = Some a → l !! j = Some b →
  Charge.m a ≠ 0 → Charge.m b ≠ 0 →
  ngt (Number := Exact)
      (hypot (Number := Exact) (rawIncA (NT := Exact) k soft a b).1
             (rawIncA (NT := Exact) k soft a b).2) M = false →
  ngt (Number := Exact)
      (hypot (Number := Exact) (rawIncB (NT := Exact) k soft a b).1
             (rawIncB (NT := Exact) k soft a b).2) M = false →
  totalForce (pairStep (NT := Exact) k soft M i j l) = totalForce l.
Proof.
  intros Hne Ha Hb Hma Hmb HA HB. unfold pairStep. rewrite Ha, Hb.
  rewrite !clamp_idle_exact by done.
  rewrite (totalForce_addAccel _ j b).
  2:{ by rewrite list_lookup_alter_ne. }
  rewrite (totalForce_addAccel _ i a) by done.
  cbn [fst snd]. unfold rawIncA, rawIncB. cbn [fst snd ndiv nneg Exact].
  destruct (totalForce l) as [u v]. cbn [fst snd]. f_equal; field; done.
Qed.

Lemma totalForce_stepAcc (k soft M : R) cs (i j : nat) (A : nat → R * R) :
  (i < j)%nat →
  noClampFires (NT := Exact) k soft M cs →
  Forall (λ c, Charge.m c ≠ 0) cs →
  totalForce (withAcc cs (stepAcc (NT := Exact) k soft M cs i j A))
  = totalForce (withAcc cs A).
Proof.
  intros Hij Hno Hm. rewrite <- pairStep_withAcc by done.
  destruct (cs !! i) as [a|] eqn:Ha.
  2:{ unfold pairStep. by rewrite lookup_withAcc, Ha. }
  destruct (cs !! j) as [b|] eqn:Hb.
  2:{ unfold pairStep. by rewrite !lookup_withAcc, Ha, Hb. }
  destruct (Hno i j a b Ha Hb Hij) as [HA HB].
  apply (totalForce_pairStep _ _ _ _ _ _ (setAccel a (A i)) (setAccel b (A j))).
  - lia.
  - by rewrite lookup_withAcc, Ha.
  - by rewrite lookup_withAcc, Hb.
  - apply (proj1 (Forall_lookup _ _) Hm i a Ha).
  - apply (proj1 (Forall_lookup _ _) Hm j b Hb).
  - exact HA.
  - exact HB.
Qed.

Lemma totalForce_inner (k soft M : R) cs (i : nat) (js : list nat)
    (A : nat → R * R) :
  Forall (λ j, i < j)%nat js →
  noClampFires (NT := Exact) k soft M cs →
  Forall (λ c, Charge.m c ≠ 0) cs →
  totalForce
    (withAcc cs (foldl (λ A' j, stepAcc (NT := Exact) k soft M cs i j A') A js))
  = totalForce (withAcc cs A).
Proof.
  intros Hjs Hno Hm. revert A.
  induction Hjs as [|j js Hj Hjs IH]; intros A; cbn [foldl]; [done|].
  rewrite IH. by apply totalForce_stepAcc.
Qed.

Lemma totalForce_pairLoop (k soft M : R) cs (N : nat) (A : nat → R * R) :
  noClampFires (NT := Exact) k soft M cs →
  Forall (λ c, Charge.m c ≠ 0) cs →
  totalForce (pairLoop (NT := Exact) k soft M N (withAcc cs A))
  = totalForce (withAcc cs A).
Proof.
  intros Hno Hm. rewrite pairLoop_withAcc.
  generalize (seq 0 N). intros ixs. revert A.
  induction ixs as [|i ixs IH]; intros A; cbn [foldl]; [done|].
  rewrite IH. apply totalForce_inner; [|done..].
  apply Forall_forall. intros j Hj. apply elem_of_seq in Hj. lia.
Qed.

Lemma totalForce_zeroed cs :
  totalForce (withAcc cs (λ _, (@num_0 R Exact, @num_0 R Exact))) = (0, 0).
Proof.
  rewrite <- fmap_zeroAccel. unfold totalForce. rewrite <- !list_fmap_compose.
  induction cs as [|c cs IH]; [done|].
  injection IH as IH1 IH2. cbn [fmap list_fmap Rsum foldr compose].
  unfold Rsum in IH1, IH2. rewrite IH1, IH2.
  cbn [zeroAccel setAccel Charge.m Charge.ax Charge.ay fst snd num_0 Exact].
  f_equal; ring.
Qed.

Lemma totalForce_computeAccelerations cs (options : Options.t R) :
  noClampFires (NT := Exact)
    (default 1 (Options.k options))
    (default (1 / 10) (Options.softening options))
    (default 2000 (Options.maxAccel options)) cs →
  Forall (λ c, Charge.m c ≠ 0) cs →
  totalForce (computeAccelerations (NT := Exact) cs [] options) = (0, 0).
Proof.
  intros Hno Hm. rewrite <- (totalForce_zeroed cs).
  rewrite <- (totalForce_pairLoop _ _ _ cs (length cs) _ Hno Hm).
  f_equal. rewrite pairLoop_spec, computeAccelerations_withAcc.
  apply withAcc_ext_in. intros t Ht.
  destruct (lookup_lt_is_Some_2 cs t Ht) as [c Hc].
  unfold netAccel. rewrite Hc. by rewrite lorentz_zero_field_exact.
Qed.

(** X11: in exact arithmetic, without magnets, with masses other than
    zero, no two charges at the same place (unless the softening is not
    zero) and [maxAccel] large enough that no pairwise clamp fires, the
    accelerations that [computeAccelerations] writes satisfy
    [sum of m * ax = 0] and [sum of m * ay = 0]: the forces of every pair
    are equal and opposite, and the total force is zero. *)
Theorem total_force_is_zero_exact cs (options : Options.t R) :
  noClampFires (NT := Exact)
    (default 1 (Options.k options))
    (default (1 / 10) (Options.softening options))
    (default 2000 (Options.maxAccel options)) cs →
  Forall (λ c, Charge.m c ≠ 0) cs →
  apart (default (1 / 10) (Options.softening options)) cs →
  Rsum ((λ c, Charge.m c * Charge.ax c)
          <$> computeAccelerations (NT := Exact) cs [] options) = 0
  ∧ Rsum ((λ c, Charge.m c * Charge.ay c)
            <$> computeAccelerations (NT := Exact) cs [] options) = 0.
Proof.
  intros Hno Hm _.
  pose proof (totalForce_computeAccelerations cs options Hno Hm) as H.
  by injection H.
Qed.

Lemma totalMomentum_integrate (dt : R) l :
  Forall (λ c, Charge.pinned c = false) l →
  totalMomentum (integrate (NT := Exact) dt 1 <$> l)
  = ((totalMomentum l).1 + dt * (totalForce l).1,
     (totalMomentum l).2 + dt * (totalForce l).2).
Proof.
  intros Hp. unfold totalMomentum, totalForce. cbn [fst snd].
  induction Hp as [|c l Hc Hp IH].
  { cbn. f_equal; ring. }
  injection IH as IH1 IH2. cbn [fmap list_fmap Rsum foldr].
  unfold Rsum in IH1, IH2. rewrite IH1, IH2.
  unfold integrate. rewrite Hc.
  cbn [setMotion Charge.m Charge.vx Charge.vy State.vx State.vy
       nadd nmul Exact].
  f_equal; ring.
Qed.

Lemma totalMomentum_withAcc cs (A : nat → R * R) :
  totalMomentum (withAcc cs A) = totalMomentum cs.
Proof.
  assert (H : ∀ f : Charge.t R → R, (∀ c a, f (setAccel c a) = f c) →
              f <$> withAcc cs A = f <$> cs).
  { intros f Hf. apply list_eq. intros i.
    rewrite !list_lookup_fmap, lookup_withAcc.
    destruct (cs !! i); [|done]. cbn. by rewrite Hf. }
  unfold totalMomentum. by rewrite !H.
Qed.

(** X12: in exact arithmetic, without magnets, with [damping = 1], no
    pinned charge, masses other than zero, no two charges at the same
    place (unless the softening is not zero) and [maxAccel] large enough
    that no pairwise clamp fires, [stepPhysics] conserves the total
    momentum: [sum of m * vx] and [sum of m * vy] are after the step what
    they were before, for every [dt]. *)
Theorem euler_conserves_momentum_exact cs (dt : R) (options : Options.t R) :
  noClampFires (NT := Exact)
    (default 1 (Options.k options))
    (default (1 / 10) (Options.softening options))
    (default 2000 (Options.maxAccel options)) cs →
  Forall (λ c, Charge.m c ≠ 0) cs →
  apart (default (1 / 10) (Options.softening options)) cs →
  Forall (λ c, Charge.pinned c = false) cs →
  default 1 (Options.damping options) = 1 →
  Rsum ((λ c, Charge.m c * Charge.vx c)
          <$> stepPhysics (NT := Exact) cs [] dt options)
  = Rsum ((λ c, Charge.m c * Charge.vx c) <$> cs)
  ∧ Rsum ((λ c, Charge.m c * Charge.vy c)
            <$> stepPhysics (NT := Exact) cs [] dt options)
    = Rsum ((λ c, Charge.m c * Charge.vy c) <$> cs).
Proof.
  intros Hno Hm _ Hp Hd.
  pose proof (totalForce_computeAccelerations cs options Hno Hm) as HF.
  assert (H : totalMomentum (stepPhysics (NT := Exact) cs [] dt options)
              = totalMomentum cs).
  { unfold stepPhysics.
    change (default num_1 (Options.damping options))
      with (default 1 (Options.damping options)).
    rewrite Hd, totalMomentum_integrate.
    - rewrite HF. cbn [fst snd].
      rewrite computeAccelerations_withAcc, totalMomentum_withAcc.
      destruct (totalMomentum cs). cbn [fst snd]. f_equal; ring.
    - rewrite computeAccelerations_withAcc. apply Forall_lookup.
      intros i c. rewrite lookup_withAcc.
      destruct (cs !! i) as [c0|] eqn:Hc; [|done]. intros [= <-].
      apply (proj1 (Forall_lookup _ _) Hp i c0 Hc). }
  by injection H.
Qed.

End ExactForces.

(** ** The magnetic term and the step of no duration, in exact arithmetic *)

Section ExactSteps.
Local Open Scope R_scope.
Implicit Types (c : Charge.t R) (cs : list (Charge.t R)).



(** X23: in exact arithmetic, with [maxAccel >= 0], masses other than
    zero, no two charges at the same place and no charge on a magnet
    (unless the softening is not zero), a step with [dt = 0] moves no
    charge, under
    [stepPhysics] and under [stepPhysicsRK4] alike, but it still damps:
    the velocity of a charge that is not pinned is multiplied by
    [damping], whatever the forces are. *)
Theorem zero_step_only_damps_exact cs (magnets : list (Magnet.t R))
    (options : Options.t R) (t : nat) c :
  0 <= default 2000 (Options.maxAccel options) →
  Forall (λ c, Charge.m c ≠ 0) cs →
  apart (default (1 / 10) (Options.softening options)) cs →
  offMagnets (default (1 / 10) (Options.softening options)) cs magnets →
  cs !! t = Some c →
  (∃ c', stepPhysics (NT := Exact) cs magnets 0 options !! t = Some c'
     ∧ Charge.x c' = Charge.x c ∧ Charge.y c' = Charge.y c
     ∧ (Charge.pinned c = false →
        Charge.vx c' = Charge.vx c * default 1 (Options.damping options)
        ∧ Charge.vy c' = Charge.vy c * default 1 (Options.damping options)))
  ∧ (∃ c', stepPhysicsRK4 (NT := Exact) cs magnets 0 options !! t = Some c'
       ∧ Charge.x c' = Charge.x c ∧ Charge.y c' = Charge.y c
       ∧ (Charge.pinned c = false →
          Charge.vx c' = Charge.vx c * default 1 (Options.damping options)
          ∧ Charge.vy c' = Charge.vy c * default 1 (Options.damping options))).
Proof.
  intros _ _ _ _ Hc. split.
  - rewrite stepPhysics_lookup, Hc. eexists. split; [reflexivity|].
    unfold integrate. cbn [setAccel Charge.pinned].
    destruct (Charge.pinned c).
    + by repeat split.
    + cbn [setMotion Charge.x Charge.y Charge.vx Charge.vy Charge.ax Charge.ay
           State.x State.y State.vx State.vy nadd nmul Exact].
      change (default num_1 (Options.damping options))
        with (default 1 (Options.damping options)).
      cbn [setAccel Charge.x Charge.y Charge.vx Charge.vy Charge.ax Charge.ay].
      split; [ring|]. split; [ring|]. intros _. split; ring.
  - assert (Hlen : ∀ k : list (State.t R),
              length k = length cs → ∃ d, k !! t = Some d).
    { intros k Hk. apply lookup_lt_is_Some_2. rewrite Hk.
      by eapply lookup_lt_Some. }
    destruct (Hlen (rk4_k1 (NT := Exact) cs magnets 0 options)) as [d1 Hd1].
    { apply length_stageDerivative. }
    destruct (Hlen (rk4_k2 (NT := Exact) cs magnets 0 options)) as [d2 Hd2].
    { unfold rk4_k2. rewrite length_stageDerivative, length_moved; [done|].
      apply length_stageDerivative. }
    destruct (Hlen (rk4_k4 (NT := Exact) cs magnets 0 options)) as [d4 Hd4].
    { unfold rk4_k4. rewrite length_stageDerivative, length_moved; [done|].
      unfold rk4_k3. rewrite length_stageDerivative, length_moved; [done|].
      unfold rk4_k2. rewrite length_stageDerivative, length_moved; [done|].
      apply length_stageDerivative. }
    destruct (rk4_last_stage_lookup (NT := Exact) cs magnets 0 options t c Hc)
      as (d3 & Hd3 & Hlast).
    rewrite stepPhysicsRK4_spec, list_lookup_imap, Hlast.
    cbn [fmap option_fmap option_map]. eexists. split; [reflexivity|].
    unfold combineFn. rewrite list_lookup_fmap, Hc, Hd1, Hd2, Hd3, Hd4.
    cbn [fmap option_fmap option_map setAccel Charge.pinned].
    destruct (Charge.pinned c) eqn:Hp.
    + cbn [setAccel Charge.pinned Charge.x Charge.y]. rewrite Hp.
      cbn [setAccel Charge.x Charge.y]. by repeat split.
    + cbn [setMotion Charge.pinned]. rewrite Hp.
      cbn [setMotion snapshot Charge.x Charge.y Charge.vx Charge.vy
           State.x State.y State.vx State.vy nadd nmul Exact].
      change (default num_1 (Options.damping options))
        with (default 1 (Options.damping options)).
      cbn [setAccel Charge.x Charge.y Charge.vx Charge.vy Charge.ax Charge.ay].
      split; [ring|]. split; [ring|]. intros _. split; ring.
Qed.

End ExactSteps.

(** ** The field arrows, in exact arithmetic *)

Section ArrowsExact.
Local Open Scope R_scope.

(** X21: in exact arithmetic, with [options.drawField] set, a field
    scale and a grid spacing that are not negative, and at a grid point
    that is off the charges (always so when the softening is not zero),
    the arrow that [draw] draws at the grid point has the length
    [min(mag * s, 0.9 * spacing)], which is at most [0.9 * spacing], and
    it points the way the field [E] at that point does: it is [E] times
    a factor that is not negative.  No arrow is drawn only where the
    field is zero. *)
Theorem field_arrow_length_exact (x y : R) (charges : list (Charge.t R))
    (options : DrawOptions.t R) :
  DrawOptions.drawField options = true →
  0 <= default 20 (DrawOptions.fieldScale options) →
  0 <= spacingOf (CT := CanvasExact) options →
  offCharges (default (1 / 10) (DrawOptions.softening options)) x y charges →
  match fieldArrowAt (NT := Exact) (CT := CanvasExact) x y charges options with
  | None =>
      electricFieldAt (NT := Exact) x y charges
        (Options.mk (DrawOptions.k options) (DrawOptions.softening options)
                    None None) = (0, 0)
  | Some a =>
      let E := electricFieldAt (NT := Exact) x y charges
                 (Options.mk (DrawOptions.k options)
                             (DrawOptions.softening options) None None) in
      sqrt (a.1 * a.1 + a.2 * a.2)
      = Rmin (sqrt (E.1 * E.1 + E.2 * E.2)
              * default 20 (DrawOptions.fieldScale options))
             (spacingOf (CT := CanvasExact) options * (9 / 10))
      ∧ sqrt (a.1 * a.1 + a.2 * a.2)
        <= spacingOf (CT := CanvasExact) options * (9 / 10)
      ∧ ∃ f : R, 0 <= f ∧ a.1 = f * E.1 ∧ a.2 = f * E.2
  end.
Proof.
  intros Hdf Hs Hsp _. unfold fieldArrowAt. rewrite Hdf.
  set (E := electricFieldAt _ _ _ _).
  cbn [hypot is0 nmin nmul ndiv num_09 num_20 Exact CanvasExact].
  set (mag := sqrt (E.1 * E.1 + E.2 * E.2)).
  assert (Hmag : 0 <= mag) by apply sqrt_pos.
  assert (Hsq : mag * mag = E.1 * E.1 + E.2 * E.2) by (apply sqrt_sqrt; nra).
  unfold Reqb. destruct (Req_dec_T mag 0) as [H0|Hne].
  - rewrite H0 in Hsq. destruct E as [u v]. cbn [fst snd] in *.
    assert (u = 0) by nra. assert (v = 0) by nra. by subst.
  - cbn [fst snd].
    set (len := Rmin _ _).
    assert (Hlen : 0 <= len).
    { unfold len. apply Rmin_glb; [|lra].
      change (default num_20 (DrawOptions.fieldScale options))
        with (default 20 (DrawOptions.fieldScale options)). nra. }
    assert (Hn : sqrt (E.1 / mag * len * (E.1 / mag * len)
                       + E.2 / mag * len * (E.2 / mag * len)) = len).
    { apply sqrt_lem_1; [nra|done|].
      replace (E.1 / mag * len * (E.1 / mag * len)
               + E.2 / mag * len * (E.2 / mag * len))
        with ((E.1 * E.1 + E.2 * E.2) * (len / mag * (len / mag)))
        by (field; done).
      rewrite <- Hsq. field. done. }
    rewrite Hn. split; [done|]. split.
    + unfold len. apply Rmin_r.
    + exists (len / mag). split.
      * apply Rmult_le_pos; [done|]. left. apply Rinv_0_lt_compat. lra.
      * split; field; done.
Qed.

End ArrowsExact.

(** ** The order of the Numbers *)

Section Order.
Local Open Scope float_scope.

Lemma SFcompare_key (x y : spec_float) :
  nanSF x = false → nanSF y = false →
  ∃ c, SFcompare x y = Some c
    ∧ match c with
      | Lt => lexlt (SFkey x) (SFkey y)
      | Eq => SFkey x = SFkey y
      | Gt => lexlt (SFkey y) (SFkey x)
      end.
Proof.
  intros Hx Hy.
  destruct x as [sx|sx| |sx mx ex], y as [sy|sy| |sy my ey]; try discriminate;
    try destruct sx; try destruct sy; cbn [SFcompare SFkey];
    try (eexists; split; [reflexivity|]; unfold lexlt; cbn [fst snd];
         first [reflexivity | lia]).
  - fold (Pos.compare mx my).
    destruct (Z.compare_spec ex ey) as [->|H|H];
      [destruct (Pos.compare_spec mx my) as [->|H|H]|..];
      eexists; (split; [reflexivity|]); unfold lexlt; cbn [fst snd CompOpp];
      first [reflexivity | lia].
  - fold (Pos.compare mx my).
    destruct (Z.compare_spec ex ey) as [->|H|H];
      [destruct (Pos.compare_spec mx my) as [->|H|H]|..];
      eexists; (split; [reflexivity|]); unfold lexlt; cbn [fst snd];
      first [reflexivity | lia].
Qed.

Lemma lexlt_irrefl (a : Z * Z * Z) : ¬ lexlt a a.
Proof. unfold lexlt. lia. Qed.

Lemma lexlt_trans (a b c : Z * Z * Z) : lexlt a b → lexlt b c → lexlt a c.
Proof. unfold lexlt. lia. Qed.

Lemma lexlt_asym (a b : Z * Z * Z) : lexlt a b → ¬ lexlt b a.
Proof. unfold lexlt. lia. Qed.

Lemma lexlt_total (a b : Z * Z * Z) : lexlt a b ∨ a = b ∨ lexlt b a.
Proof.
  destruct a as [[a1 a2] a3], b as [[b1 b2] b3]. unfold lexlt. cbn [fst snd].
  destruct (Z.lt_total a1 b1) as [?|[->|?]]; [lia| |lia].
  destruct (Z.lt_total a2 b2) as [?|[->|?]]; [lia| |lia].
  destruct (Z.lt_total a3 b3) as [?|[->|?]]; [lia| |lia].
  right. by left.
Qed.

Lemma is_nan_SF (a : float) : is_nan a = nanSF (Prim2SF a).
Proof.
  unfold is_nan. rewrite FloatAxioms.eqb_spec. unfold SFeqb.
  destruct (Prim2SF a) as [s|s| |s m e] eqn:E; try reflexivity.
  - by destruct s.
  - cbn [SFcompare nanSF].
    destruct s; rewrite Z.compare_refl, Pos.compare_cont_refl; reflexivity.
Qed.

(** [a < b] and [a <= b] on Numbers. *)
Lemma ltb_key (a b : float) :
  (a <? b) = true
  ↔ is_nan a = false ∧ is_nan b = false
    ∧ lexlt (SFkey (Prim2SF a)) (SFkey (Prim2SF b)).
Proof.
  rewrite ltb_spec, !is_nan_SF. unfold SFltb.
  destruct (nanSF (Prim2SF a)) eqn:Ha.
  { destruct (Prim2SF a); try discriminate. cbn [SFcompare].
    split; [done|]. by intros [? _]. }
  destruct (nanSF (Prim2SF b)) eqn:Hb.
  { destruct (Prim2SF b); try discriminate.
    destruct (Prim2SF a); cbn [SFcompare]; (split; [done|]);
      by intros (_ & ? & _). }
  destruct (SFcompare_key _ _ Ha Hb) as (c & -> & Hc).
  destruct c.
  - split; [done|]. intros (_ & _ & H). rewrite Hc in H.
    by apply lexlt_irrefl in H.
  - split; [by intros _|done].
  - split; [done|]. intros (_ & _ & H). by apply lexlt_asym in H.
Qed.

Lemma leb_key (a b : float) :
  (a <=? b) = true
  ↔ is_nan a = false ∧ is_nan b = false
    ∧ (lexlt (SFkey (Prim2SF a)) (SFkey (Prim2SF b))
       ∨ SFkey (Prim2SF a) = SFkey (Prim2SF b)).
Proof.
  rewrite leb_spec, !is_nan_SF. unfold SFleb.
  destruct (nanSF (Prim2SF a)) eqn:Ha.
  { destruct (Prim2SF a); try discriminate. cbn [SFcompare].
    split; [done|]. by intros [? _]. }
  destruct (nanSF (Prim2SF b)) eqn:Hb.
  { destruct (Prim2SF b); try discriminate.
    destruct (Prim2SF a); cbn [SFcompare]; (split; [done|]);
      by intros (_ & ? & _). }
  destruct (SFcompare_key _ _ Ha Hb) as (c & -> & Hc).
  destruct c.
  - split; [intros _; auto|done].
  - split; [intros _; auto|done].
  - split; [done|]. intros (_ & _ & [H|H]).
    + by apply lexlt_asym in H.
    + rewrite H in Hc. by apply lexlt_irrefl in Hc.
Qed.

Lemma ltb_irrefl (a : float) : (a <? a) = false.
Proof.
  destruct (a <? a) eqn:E; [|done].
  apply ltb_key in E as (_ & _ & H). by apply lexlt_irrefl in H.
Qed.

Lemma ltb_trans (a b c : float) :
  (a <? b) = true → (b <? c) = true → (a <? c) = true.
Proof.
  rewrite !ltb_key. intros (Ha & _ & H1) (_ & Hc & H2).
  repeat split; [done..|]. by eapply lexlt_trans.
Qed.

Lemma ltb_asym (a b : float) : (a <? b) = true → (b <? a) = false.
Proof.
  intros H. destruct (b <? a) eqn:E; [|done].
  apply ltb_key in H as (_ & _ & H). apply ltb_key in E as (_ & _ & E).
  by apply lexlt_asym in H.
Qed.

Lemma ltb_number_l (a b : float) : (a <? b) = true → is_nan a = false.
Proof. rewrite ltb_key. by intros [? _]. Qed.

Lemma ltb_nan_r (a b : float) : is_nan b = true → (a <? b) = false.
Proof.
  intros Hb. destruct (a <? b) eqn:E; [|done].
  apply ltb_key in E as (_ & E & _). congruence.
Qed.

Lemma ltb_infinity (a b : float) : (a <? b) = true → (a <? infinity) = true.
Proof.
  rewrite !ltb_key. intros (Ha & Hb & H). repeat split; [done..|].
  change (Prim2SF infinity) with (S754_infinity false).
  rewrite is_nan_SF in Ha, Hb. revert H.
  destruct (Prim2SF a) as [[]|[]| |[] ? ?], (Prim2SF b) as [[]|[]| |[] ? ?];
    try discriminate; unfold lexlt; cbn [SFkey fst snd]; lia.
Qed.

(** [a < b] and not [c < b], for a number [c]: then [a < c]. *)
Lemma ltb_below (a b c : float) :
  (a <? b) = true → (c <? b) = false → is_nan c = false → (a <? c) = true.
Proof.
  intros Hab Hcb Hc. apply ltb_key in Hab as (Ha & Hb & Hab).
  apply ltb_key. repeat split; [done..|].
  destruct (lexlt_total (SFkey (Prim2SF c)) (SFkey (Prim2SF b))) as [K|[K|K]].
  - assert (E : (c <? b) = true) by (apply ltb_key; auto). congruence.
  - by rewrite K.
  - by eapply lexlt_trans.
Qed.

Lemma leb_refl (a : float) : is_nan a = false → (a <=? a) = true.
Proof. intros H. apply leb_key. auto. Qed.

Lemma ltb_leb (a b : float) : (a <? b) = true → (a <=? b) = true.
Proof. rewrite ltb_key, leb_key. intros (? & ? & ?). auto. Qed.

Lemma leb_of_not_ltb (a b : float) :
  is_nan a = false → is_nan b = false →
  (b <? a) = false → (a <=? b) = true.
Proof.
  intros Ha Hb H.
  destruct (lexlt_total (SFkey (Prim2SF a)) (SFkey (Prim2SF b))) as [K|[K|K]].
  - apply leb_key. auto.
  - apply leb_key. auto.
  - assert (E : (b <? a) = true) by (apply ltb_key; auto). congruence.
Qed.

(** [Math.min(a, b)] is never greater than [a] or than [b]. *)
Lemma Math_min_not_above (a b : float) :
  (a <? Math.min a b) = false ∧ (b <? Math.min a b) = false.
Proof.
  unfold Math.min.
  destruct (is_nan a || is_nan b) eqn:Hn.
  { split; by apply ltb_nan_r. }
  destruct (a <? b) eqn:Hab.
  { split; [apply ltb_irrefl|by apply ltb_asym]. }
  destruct (b <? a) eqn:Hba.
  { split; [done|apply ltb_irrefl]. }
  destruct (get_sign a); split; try apply ltb_irrefl; done.
Qed.

Lemma Math_min_spec (a b : float) :
  is_nan a = false → is_nan b = false →
  is_nan (Math.min a b) = false
  ∧ (Math.min a b <=? a) = true ∧ (Math.min a b <=? b) = true.
Proof.
  intros Ha Hb. unfold Math.min. rewrite Ha, Hb. cbn [orb].
  destruct (a <? b) eqn:Hab.
  { split; [done|]. split; [by apply leb_refl|by apply ltb_leb]. }
  destruct (b <? a) eqn:Hba.
  { split; [done|]. split; [by apply ltb_leb|by apply leb_refl]. }
  destruct (get_sign a); (split; [done|]); split;
    first [by apply leb_refl | by apply leb_of_not_ltb].
Qed.

Lemma Math_max_spec (a b : float) :
  is_nan a = false → is_nan b = false →
  is_nan (Math.max a b) = false
  ∧ (a <=? Math.max a b) = true ∧ (b <=? Math.max a b) = true
  ∧ (Math.max a b = a ∨ Math.max a b = b).
Proof.
  intros Ha Hb. unfold Math.max. rewrite Ha, Hb. cbn [orb].
  destruct (a <? b) eqn:Hab.
  { split; [done|]. split; [by apply ltb_leb|].
    split; [by apply leb_refl|auto]. }
  destruct (b <? a) eqn:Hba.
  { split; [done|]. split; [by apply leb_refl|].
    split; [by apply ltb_leb|auto]. }
  destruct (get_sign a); (split; [done|]); (split; [|split; [|auto]]);
    first [by apply leb_refl | by apply leb_of_not_ltb].
Qed.

(** *** Rounding never makes a [NaN] *)

Lemma shr_1_nonneg (mrs : shr_record) :
  (0 <= shr_m mrs)%Z → (0 <= shr_m (shr_1 mrs))%Z.
Proof.
  destruct mrs as [m r s]. cbn [shr_m]. intros H.
  destruct m as [|[p|p|]|p]; cbn; lia.
Qed.

Lemma iter_shr_1_nonneg (n : positive) (mrs : shr_record) :
  (0 <= shr_m mrs)%Z → (0 <= shr_m (SpecFloat.iter_pos shr_1 n mrs))%Z.
Proof.
  revert mrs.
  induction n as [n IH|n IH|]; intros mrs H; cbn [SpecFloat.iter_pos].
  - by apply IH, IH, shr_1_nonneg.
  - by apply IH, IH.
  - by apply shr_1_nonneg.
Qed.

Lemma shr_fexp_nonneg (m e : Z) (l : location) :
  (0 <= m)%Z → (0 <= shr_m (shr_fexp prec emax m e l).1)%Z.
Proof.
  intros H. unfold shr_fexp, shr.
  assert (H0 : (0 <= shr_m (shr_record_of_loc m l))%Z)
    by (destruct l as [|[]]; exact H).
  destruct (_ - e)%Z; cbn [fst]; try done. by apply iter_shr_1_nonneg.
Qed.

Lemma round_nearest_even_nonneg (m : Z) (l : location) :
  (0 <= m)%Z → (0 <= round_nearest_even m l)%Z.
Proof.
  intros H. destruct l as [|[]]; cbn [round_nearest_even]; try lia.
  destruct (Z.even m); lia.
Qed.

Lemma binary_round_aux_number (s : bool) (m : positive) (e : Z)
    (l : location) :
  nanSF (binary_round_aux prec emax s (Z.pos m) e l) = false.
Proof.
  unfold binary_round_aux.
  pose proof (shr_fexp_nonneg (Z.pos m) e l) as H1.
  destruct (shr_fexp prec emax (Z.pos m) e l) as [mrs' e'].
  cbn [fst] in H1.
  pose proof (shr_fexp_nonneg
                (round_nearest_even (shr_m mrs') (loc_of_shr_record mrs')) e'
                loc_Exact) as H2.
  destruct (shr_fexp prec emax _ e' loc_Exact) as [mrs'' e''].
  cbn [fst] in H2.
  assert (H : (0 <= shr_m mrs'')%Z).
  { apply H2, round_nearest_even_nonneg, H1. lia. }
  destruct (shr_m mrs''); [done| |lia]. by destruct (_ <=? _)%Z.
Qed.

(** [Math.abs(q) * 4] is a number when [q] is. *)
Lemma abs_times_4_number (q : float) :
  is_nan q = false → is_nan (abs q * 4) = false.
Proof.
  rewrite !is_nan_SF, mul_spec, abs_spec.
  change (Prim2SF 4) with (S754_finite false 4503599627370496 (-50)).
  destruct (Prim2SF q) as [s|s| |s m e]; try done. intros _.
  apply binary_round_aux_number.
Qed.

End Order.

(** ** The page *)

Section PageFacts.
Local Open Scope float_scope.

(** X13: the time step that [loop] passes to the integrator is never
    greater than [0.03], for every pair of time stamps: it is
    [(now - last) / 1000] or [0.03], whichever is smaller, and [NaN] when
    [(now - last) / 1000] is [NaN].  It is not bounded from below. *)
Theorem frame_step_at_most_30ms (now last : float) :
  (0x1.eb851eb851eb8p-6 <? frameStep now last) = false
  ∧ (is_nan ((now - last) / 1000) = false →
     (frameStep now last <=? 0x1.eb851eb851eb8p-6) = true
     ∧ (frameStep now last <=? (now - last) / 1000) = true)
  ∧ (is_nan ((now - last) / 1000) = true → frameStep now last = nan).
Proof.
  unfold frameStep. split; [apply Math_min_not_above|]. split.
  - intros H. by apply Math_min_spec.
  - intros H. unfold Math.min. rewrite H. by rewrite orb_true_r.
Qed.

(** X14: the radius that [draw] and the [mousedown] handler compute for
    a charge without the field [_r] is between [6] and [20], whatever the
    charge [q] is, as long as [q] is not [NaN]. *)
Theorem radius_between_6_and_20 (c : Dot.t) :
  Dot._r c = None → is_nan (Charge.q (Dot.charge c)) = false →
  (6 <=? radius c) = true ∧ (radius c <=? 20) = true.
Proof.
  intros Hr Hq. unfold radius. rewrite Hr.
  pose proof (abs_times_4_number _ Hq) as Hv.
  destruct (Math_min_spec 20 _ eq_refl Hv) as (Hu & Hu20 & _).
  destruct (Math_max_spec 6 _ eq_refl Hu) as (_ & H6 & _ & [E|E]).
  - split; [done|]. by rewrite E.
  - split; [done|]. by rewrite E.
Qed.

Lemma falsy_orElse (v d : float) : falsy d = false → falsy (orElse v d) = false.
Proof. intros Hd. unfold orElse. by destruct (falsy v) eqn:E. Qed.

(** X15: the button [addChargeBtn] appends one charge to the array and
    leaves the others alone: a charge at the centre [(400, 300)] of the
    canvas, at rest, not pinned, with a charge [q] and a mass [m] that
    are never [0], [-0] or [NaN] - the Number parsed from the input field
    if that is none of these, and [1] otherwise.  The button
    [addMagnetBtn] appends a magnet at the centre, with angle [0] and a
    strength that is never [0], [-0] or [NaN]: a thousand times the
    Number parsed, or [10]. *)
Theorem added_objects (qv mv sv : float) (charges : list Dot.t)
    (magnets : list Bar.t) :
  (∃ c, addCharge qv mv charges = charges ++ [c]
     ∧ Dot._r c = None
     ∧ snapshot (Dot.charge c) = State.mk 400 300 0 0
     ∧ Charge.pinned (Dot.charge c) = false
     ∧ falsy (Charge.q (Dot.charge c)) = false
     ∧ falsy (Charge.m (Dot.charge c)) = false
     ∧ (falsy qv = false → Charge.q (Dot.charge c) = qv)
     ∧ (falsy qv = true → Charge.q (Dot.charge c) = 1)
     ∧ (falsy mv = false → Charge.m (Dot.charge c) = mv)
     ∧ (falsy mv = true → Charge.m (Dot.charge c) = 1))
  ∧ (∃ m, addMagnet sv magnets = magnets ++ [m]
       ∧ (Magnet.x (Bar.magnet m), Magnet.y (Bar.magnet m)) = (400, 300)
       ∧ Magnet.angle (Bar.magnet m) = 0
       ∧ Magnet.pinned (Bar.magnet m) = false
       ∧ falsy (Magnet.strength (Bar.magnet m)) = false
       ∧ (falsy (sv * 1000) = false →
          Magnet.strength (Bar.magnet m) = sv * 1000)
       ∧ (falsy (sv * 1000) = true → Magnet.strength (Bar.magnet m) = 10)).
Proof.
  split.
  - eexists. split; [reflexivity|].
    cbn [Dot._r Dot.charge charge snapshot Charge.x Charge.y Charge.vx
         Charge.vy Charge.pinned Charge.q Charge.m].
    repeat split; try (by apply falsy_orElse);
      intros H; unfold orElse; by rewrite H.
  - eexists. split; [reflexivity|].
    cbn [Bar.magnet Magnet.x Magnet.y Magnet.angle Magnet.pinned
         Magnet.strength].
    repeat split; try (by apply falsy_orElse);
      intros H; unfold orElse; by rewrite H.
Qed.

(** X16: a click on a delete button after a click on the matching add
    button gives back the array as it was, and a click on a delete button
    leaves an empty array empty. *)
Theorem delete_undoes_add (qv mv sv : float) (charges : list Dot.t)
    (magnets : list Bar.t) :
  delCharge (addCharge qv mv charges) = charges
  ∧ delMagnet (addMagnet sv magnets) = magnets
  ∧ delCharge [] = [] ∧ delMagnet [] = [].
Proof.
  unfold delCharge, delMagnet, addCharge, addMagnet.
  repeat split; try done.
  - rewrite length_app. cbn [length]. rewrite decide_True by lia.
    replace (length charges + 1 - 1)%nat with (length charges) by lia.
    by rewrite take_app_length.
  - rewrite length_app. cbn [length]. rewrite decide_True by lia.
    replace (length magnets + 1 - 1)%nat with (length magnets) by lia.
    by rewrite take_app_length.
Qed.

(** X17: when the canvas is shown at its natural size, 800 by 600,
    [getMousePos] returns the pointer relative to the corner of the
    canvas, [(clientX - left, clientY - top)], without any rounding of
    its own. *)
Theorem getMousePos_natural_size (r : Rect.t) (e : MouseEvent.t) :
  Rect.width r = 800 → Rect.height r = 600 →
  getMousePos r e
  = (MouseEvent.clientX e - Rect.left r, MouseEvent.clientY e - Rect.top r).
Proof.
  intros Hw Hh. unfold getMousePos, canvas_width, canvas_height.
  rewrite Hw, Hh. change (800 / 800) with 1. change (600 / 600) with 1.
  by rewrite !fmul_1_r.
Qed.

End PageFacts.

(** *** Picking *)

Section Picking.
Context (sq : float → float).
Local Open Scope float_scope.
Implicit Types (pos : float * float) (p : Pick.t).

Lemma indexed_snoc {A} (l : list A) (x : A) :
  indexed (l ++ [x]) = indexed l ++ [(length l, x)].
Proof. unfold indexed. rewrite imap_app. cbn [imap]. by rewrite Nat.add_0_r. Qed.

Lemma pickCharge_loop pos (l : list Dot.t) (dtype : option DragType) :
  chargesSeen sq pos l dtype
    (foldl (pickCharge sq pos) (Pick.mk None infinity dtype) (indexed l)).
Proof.
  induction l as [|x l IH] using rev_ind.
  { split; [done|]. cbn. split; [done|]. intros j c. by rewrite lookup_nil. }
  rewrite indexed_snoc, foldl_app. cbn [foldl].
  set (p := foldl _ _ (indexed l)) in *.
  destruct IH as [Hd IH]. unfold pickCharge at 1. cbn [fst snd].
  destruct (onCharge sq pos x) eqn:Hx; cbn [andb].
  2:{ (* the charge is out of reach *)
    split; [done|]. destruct (Pick.best p) as [[i|i]|]; [| done |].
    - destruct IH as (c & Hc & Hon & Hb & Hn). exists c.
      split; [by apply lookup_app_l_Some|]. do 2 (split; [done|]).
      intros j c' Hj Hon'. apply lookup_app_Some in Hj as [Hj|[_ Hj]].
      + by apply Hn.
      + apply list_lookup_singleton_Some in Hj as [_ <-]. congruence.
    - destruct IH as [Hb Hn]. split; [done|]. intros j c Hj.
      apply lookup_app_Some in Hj as [Hj|[_ Hj]]; [by eapply Hn|].
      by apply list_lookup_singleton_Some in Hj as [_ <-]. }
  assert (Hxl : (l ++ [x]) !! length l = Some x).
  { by rewrite lookup_app_r, Nat.sub_diag by lia. }
  destruct (chargeDist2 sq pos x <? Pick.bestDist p) eqn:Hlt.
  - (* nearer than the best so far *)
    split; [done|]. cbn [Pick.best Pick.bestDist]. exists x.
    do 3 (split; [done|]).
    intros j c' Hj Hon'. apply lookup_app_Some in Hj as [Hj|[Hge Hj]].
    + pose proof (lookup_lt_Some _ _ _ Hj) as Hjl.
      destruct (Pick.best p) as [[i|i]|]; [| done |].
      * destruct IH as (c & Hc & Hon & Hb & Hn).
        destruct (Hn j c' Hj Hon') as [Hn1 _]. rewrite Hb in Hlt.
        assert (Hc' : is_nan (chargeDist2 sq pos c') = false).
        { unfold onCharge in Hon'. by apply ltb_number_l in Hon'. }
        pose proof (ltb_below _ _ _ Hlt Hn1 Hc') as H1.
        split; [by apply ltb_asym|done].
      * destruct IH as [_ Hn]. rewrite (Hn j c' Hj) in Hon'. discriminate.
    + apply list_lookup_singleton_Some in Hj as [Hj <-].
      split; [apply ltb_irrefl|]. intros H. exfalso. clear -H Hge. lia.
  - (* not nearer: the best stays *)
    split; [done|]. destruct (Pick.best p) as [[i|i]|]; [| done |].
    + destruct IH as (c & Hc & Hon & Hb & Hn). exists c.
      split; [by apply lookup_app_l_Some|]. do 2 (split; [done|]).
      intros j c' Hj Hon'. apply lookup_app_Some in Hj as [Hj|[Hge Hj]].
      * by apply Hn.
      * apply list_lookup_singleton_Some in Hj as [Hj <-].
        rewrite <- Hb. split; [done|].
        apply lookup_lt_Some in Hc. intros H. exfalso. clear -H Hc Hge. lia.
    + destruct IH as [Hb Hn]. rewrite Hb in Hlt.
      unfold onCharge in Hx. apply ltb_infinity in Hx. congruence.
Qed.

Lemma pickMagnet_loop pos (l : list Bar.t) (p1 : Pick.t) :
  magnetsSeen sq pos l p1 (foldl (pickMagnet sq pos) p1 (indexed l)).
Proof.
  induction l as [|x l IH] using rev_ind.
  { left. split; [done|]. intros j m. by rewrite lookup_nil. }
  rewrite indexed_snoc, foldl_app. cbn [foldl].
  set (p := foldl _ _ (indexed l)) in *.
  unfold pickMagnet at 1. cbn [fst snd].
  destruct (onMagnet sq pos x) eqn:Hx; cbn [andb].
  2:{ (* the magnet is out of reach *)
    destruct IH as [[-> Hn]|(i & m & Hb & Hd & Hm & Hon & Hbd & Hlt & Hn)].
    - left. split; [done|]. intros j m Hj Hon.
      apply lookup_app_Some in Hj as [Hj|[_ Hj]]; [by eapply Hn|].
      apply list_lookup_singleton_Some in Hj as [_ <-]. congruence.
    - right. exists i, m. do 2 (split; [done|]).
      split; [by apply lookup_app_l_Some|]. do 3 (split; [done|]).
      intros j m' Hj Hon'. apply lookup_app_Some in Hj as [Hj|[_ Hj]].
      + by apply Hn.
      + apply list_lookup_singleton_Some in Hj as [_ <-]. congruence. }
  assert (Hxl : (l ++ [x]) !! length l = Some x).
  { by rewrite lookup_app_r, Nat.sub_diag by lia. }
  assert (Hxn : is_nan (magnetDist2 sq pos x) = false).
  { unfold onMagnet in Hx. by apply ltb_number_l in Hx. }
  destruct (magnetDist2 sq pos x <? Pick.bestDist p) eqn:Hlt.
  - (* nearer than the best so far *)
    right. exists (length l), x.
    cbn [Pick.best Pick.bestDist Pick.draggingType].
    do 5 (split; [done|]).
    destruct IH as [[Hp Hn]|(i & m & Hb & Hd & Hm & Hon & Hbd & Hlt1 & Hn)].
    + rewrite Hp in Hlt. split; [done|].
      intros j m' Hj Hon'. apply lookup_app_Some in Hj as [Hj|[Hge Hj]].
      * assert (Hm' : is_nan (magnetDist2 sq pos m') = false).
        { unfold onMagnet in Hon'. by apply ltb_number_l in Hon'. }
        pose proof (ltb_below _ _ _ Hlt (Hn j m' Hj Hon') Hm') as H1.
        split; [by apply ltb_asym|done].
      * apply list_lookup_singleton_Some in Hj as [Hj <-].
        split; [apply ltb_irrefl|]. intros H. exfalso. clear -H Hge. lia.
    + rewrite Hbd in Hlt. split; [by eapply ltb_trans|].
      intros j m' Hj Hon'. apply lookup_app_Some in Hj as [Hj|[Hge Hj]].
      * assert (Hm' : is_nan (magnetDist2 sq pos m') = false).
        { unfold onMagnet in Hon'. by apply ltb_number_l in Hon'. }
        destruct (Hn j m' Hj Hon') as [Hn1 _].
        pose proof (ltb_below _ _ _ Hlt Hn1 Hm') as H1.
        split; [by apply ltb_asym|done].
      * apply list_lookup_singleton_Some in Hj as [Hj <-].
        split; [apply ltb_irrefl|]. intros H. exfalso. clear -H Hge. lia.
  - (* not nearer: the best stays *)
    destruct IH as [[Hp Hn]|(i & m & Hb & Hd & Hm & Hon & Hbd & Hlt1 & Hn)].
    + left. split; [done|]. rewrite Hp in Hlt.
      intros j m' Hj Hon'. apply lookup_app_Some in Hj as [Hj|[_ Hj]].
      * by eapply Hn.
      * by apply list_lookup_singleton_Some in Hj as [_ <-].
    + right. exists i, m. do 2 (split; [done|]).
      split; [by apply lookup_app_l_Some|]. do 3 (split; [done|]).
      intros j m' Hj Hon'. apply lookup_app_Some in Hj as [Hj|[Hge Hj]].
      * by apply Hn.
      * apply list_lookup_singleton_Some in Hj as [Hj <-].
        rewrite <- Hbd. split; [done|].
        apply lookup_lt_Some in Hm. intros H. exfalso. clear -H Hm Hge. lia.
Qed.

(** What the two loops of the [mousedown] handler leave in [best]. *)
Lemma pick_spec pos (w : World.t) :
  match Pick.best (pick sq pos w) with
  | None =>
      (∀ j c, World.charges w !! j = Some c → onCharge sq pos c = false)
      ∧ (∀ j m, World.magnets w !! j = Some m → onMagnet sq pos m = false)
  | Some (ChargeRef i) =>
      ∃ c, World.charges w !! i = Some c ∧ onCharge sq pos c = true
        ∧ (∀ j c', World.charges w !! j = Some c' →
             onCharge sq pos c' = true →
             (chargeDist2 sq pos c' <? chargeDist2 sq pos c) = false
             ∧ ((j < i)%nat →
                (chargeDist2 sq pos c <? chargeDist2 sq pos c') = true))
        ∧ (∀ j m, World.magnets w !! j = Some m → onMagnet sq pos m = true →
             (magnetDist2 sq pos m <? chargeDist2 sq pos c) = false)
  | Some (MagnetRef i) =>
      ∃ m, World.magnets w !! i = Some m ∧ onMagnet sq pos m = true
        ∧ (∀ j m', World.magnets w !! j = Some m' →
             onMagnet sq pos m' = true →
             (magnetDist2 sq pos m' <? magnetDist2 sq pos m) = false
             ∧ ((j < i)%nat →
                (magnetDist2 sq pos m <? magnetDist2 sq pos m') = true))
        ∧ (∀ j c, World.charges w !! j = Some c → onCharge sq pos c = true →
             (magnetDist2 sq pos m <? chargeDist2 sq pos c) = true)
  end.
Proof.
  unfold pick.
  pose proof (pickCharge_loop pos (World.charges w) (World.draggingType w))
    as [Hd1 H1].
  set (p1 := foldl (pickCharge sq pos) _ _) in *.
  pose proof (pickMagnet_loop pos (World.magnets w) p1) as H2.
  set (p := foldl (pickMagnet sq pos) _ _) in *.
  destruct H2 as [[Hp Hn]|(i & m & Hb & Hd & Hm & Hon & Hbd & Hlt & Hn)].
  - (* no magnet was nearer *)
    rewrite Hp. destruct (Pick.best p1) as [[i|i]|]; [| done |].
    + destruct H1 as (c & Hc & Hon & Hbd & Hnc). exists c.
      do 3 (split; [done|]). intros j m Hj Hm. rewrite <- Hbd. by eapply Hn.
    + destruct H1 as [Hbd Hnc]. split; [done|]. intros j m Hj.
      destruct (onMagnet sq pos m) eqn:Hm; [|done].
      pose proof (Hn j m Hj Hm) as H. rewrite Hbd in H.
      unfold onMagnet in Hm. apply ltb_infinity in Hm. congruence.
  - (* a magnet was nearer than every charge *)
    rewrite Hb. exists m. do 3 (split; [done|]). intros j c Hj Hc.
    destruct (Pick.best p1) as [[i1|i1]|]; [| done |].
    + destruct H1 as (c1 & Hc1 & Hon1 & Hbd1 & Hnc).
      destruct (Hnc j c Hj Hc) as [H _]. rewrite Hbd1 in Hlt.
      apply (ltb_below _ _ _ Hlt H).
      unfold onCharge in Hc. by apply ltb_number_l in Hc.
    + destruct H1 as [_ Hnc]. rewrite (Hnc j c Hj) in Hc. discriminate.
Qed.

Lemma pick_draggingType pos (w : World.t) :
  Pick.best (pick sq pos w) = None →
  Pick.draggingType (pick sq pos w) = World.draggingType w.
Proof.
  unfold pick.
  pose proof (pickCharge_loop pos (World.charges w) (World.draggingType w))
    as [Hd1 _].
  set (p1 := foldl (pickCharge sq pos) _ _) in *.
  pose proof (pickMagnet_loop pos (World.magnets w) p1) as H2.
  set (p := foldl (pickMagnet sq pos) _ _) in *.
  destruct H2 as [[-> _]|(i & m & Hb & _)]; [done|]. by rewrite Hb.
Qed.

(** X18: the [mousedown] handler picks the object nearest to the
    pointer among those the pointer is on or next to, by the squared
    distances it computes: a picked charge is within reach, no charge
    within reach is nearer, it is nearer than every charge within reach
    that comes before it in the array, and no magnet within reach is
    nearer; a picked magnet is within reach, no magnet within reach is
    nearer, it is nearer than every magnet within reach before it, and
    nearer than every charge within reach.  Nothing is picked only if
    nothing is within reach. *)
Theorem mousedown_picks_the_nearest pos (w : World.t) :
  match Pick.best (pick sq pos w) with
  | None =>
      (∀ j c, World.charges w !! j = Some c → onCharge sq pos c = false)
      ∧ (∀ j m, World.magnets w !! j = Some m → onMagnet sq pos m = false)
  | Some (ChargeRef i) =>
      ∃ c, World.charges w !! i = Some c ∧ onCharge sq pos c = true
        ∧ (∀ j c', World.charges w !! j = Some c' →
             onCharge sq pos c' = true →
             (chargeDist2 sq pos c' <? chargeDist2 sq pos c) = false
             ∧ ((j < i)%nat →
                (chargeDist2 sq pos c <? chargeDist2 sq pos c') = true))
        ∧ (∀ j m, World.magnets w !! j = Some m → onMagnet sq pos m = true →
             (magnetDist2 sq pos m <? chargeDist2 sq pos c) = false)
  | Some (MagnetRef i) =>
      ∃ m, World.magnets w !! i = Some m ∧ onMagnet sq pos m = true
        ∧ (∀ j m', World.magnets w !! j = Some m' →
             onMagnet sq pos m' = true →
             (magnetDist2 sq pos m' <? magnetDist2 sq pos m) = false
             ∧ ((j < i)%nat →
                (magnetDist2 sq pos m <? magnetDist2 sq pos m') = true))
        ∧ (∀ j c, World.charges w !! j = Some c → onCharge sq pos c = true →
             (magnetDist2 sq pos m <? chargeDist2 sq pos c) = true)
  end.
Proof. apply pick_spec. Qed.

(** X19: a [mousedown] with the pointer on no charge and on no magnet
    changes nothing: no object, not [dragging] and not [draggingType]. *)
Theorem mousedown_off_target (r : Rect.t) (e : MouseEvent.t) (w : World.t) :
  Forall (λ c, onCharge sq (getMousePos r e) c = false) (World.charges w) →
  Forall (λ m, onMagnet sq (getMousePos r e) m = false) (World.magnets w) →
  mousedown sq r e w = w.
Proof.
  intros Hc Hm. unfold mousedown.
  pose proof (pick_spec (getMousePos r e) w) as H.
  pose proof (pick_draggingType (getMousePos r e) w) as Hd.
  destruct (Pick.best (pick sq (getMousePos r e) w)) as [[i|i]|].
  - destruct H as (c & Hi & Hon & _).
    rewrite (proj1 (Forall_lookup _ _) Hc i c Hi) in Hon. discriminate.
  - destruct H as (m & Hi & Hon & _).
    rewrite (proj1 (Forall_lookup _ _) Hm i m Hi) in Hon. discriminate.
  - rewrite Hd by done. by destruct w.
Qed.

End Picking.

(** *** Dragging *)

Section Dragging.
Context (L : Libm) (sq : float → float).
Local Open Scope float_scope.

Lemma onCharges_lookup (f : list (Charge.t float) → list (Charge.t float))
    (ds : list Dot.t) (i : nat) (d : Dot.t) (c' : Charge.t float) :
  ds !! i = Some d → f (Dot.charge <$> ds) !! i = Some c' →
  onCharges f ds !! i = Some (Dot.mk c' (Dot._r d)).
Proof.
  intros Hd Hc. unfold onCharges. by rewrite lookup_zip_with, Hd, Hc.
Qed.

Lemma held_through_a_call (cl : Call float) (ds : list Dot.t) (i : nat)
    (pos : float * float) (c d : Dot.t) :
  ds !! i = Some d → heldAt pos c d →
  ∃ d', onCharges (call (NT := Float64 L) cl) ds !! i = Some d'
    ∧ heldAt pos c d'.
Proof.
  intros Hd (Hs & Hp & Hq & Hm & Hr).
  assert (Hb : (Dot.charge <$> ds) !! i = Some (Dot.charge d))
    by (by rewrite list_lookup_fmap, Hd).
  destruct (call_pinned (NT := Float64 L) cl _ i _ Hb Hp)
    as (c' & Hc' & Hs' & Hp').
  destruct (Forall2_lookup_l _ _ _ _ _
              (call_sameKind (NT := Float64 L) cl (Dot.charge <$> ds)) Hb)
    as (c'' & Hc'' & Hq' & Hm' & _).
  rewrite Hc' in Hc''. injection Hc'' as <-.
  eexists. split; [by apply onCharges_lookup|].
  unfold heldAt. cbn [Dot.charge Dot._r]. by rewrite Hs', Hq', Hm'.
Qed.

Lemma held_through_quiet_events (evs : list Event) (w : World.t) (i : nat)
    (pos : float * float) (c d : Dot.t) :
  Forall quiet evs →
  World.dragging w = Some (ChargeRef i) →
  World.charges w !! i = Some d → heldAt pos c d →
  World.dragging (play L sq evs w) = Some (ChargeRef i)
  ∧ ∃ d', World.charges (play L sq evs w) !! i = Some d'
      ∧ heldAt (pointerAfter evs pos) c d'.
Proof.
  intros Hq. revert w pos d.
  induction Hq as [|ev evs Hev Hq IH]; intros w pos d Hdr Hd Hh.
  { cbn. eauto. }
  cbn [play pointerAfter foldl]. destruct ev as [| r e | | | | |now]; try done.
  - (* the pointer moves *)
    apply (IH _ _ (moveCharge (getMousePos r e) d)).
    + cbn [handle]. unfold mousemove. by rewrite Hdr.
    + cbn [handle]. unfold mousemove. rewrite Hdr. cbn [update World.charges].
      by rewrite list_lookup_alter_eq, Hd.
    + destruct Hh as (Hs & Hp & Hq' & Hm & Hr). unfold heldAt, moveCharge.
      cbn [Dot.charge Dot._r snapshot Charge.x Charge.y Charge.vx Charge.vy
           Charge.pinned Charge.q Charge.m].
      injection Hs as _ _ -> ->. done.
  - (* a click on the Euler button *)
    by apply (IH _ pos d).
  - (* a click on the RK4 button *)
    by apply (IH _ pos d).
  - (* a frame *)
    cbn [handle]. unfold loop.
    destruct (World.useRK4 w).
    + destruct (held_through_a_call
                  (RK4 (Bar.magnet <$> World.magnets w)
                       (frameStep now (World.last w)) simOptions)
                  (World.charges w) i pos c d Hd Hh) as (d' & Hd' & Hh').
      by apply (IH _ pos d').
    + destruct (held_through_a_call
                  (Euler (Bar.magnet <$> World.magnets w)
                         (frameStep now (World.last w)) simOptions)
                  (World.charges w) i pos c d Hd Hh) as (d' & Hd' & Hh').
      by apply (IH _ pos d').
Qed.

(** X20: drag and drop.  If a [mousedown] picks the charge of index
    [i], then after any sequence of pointer moves, frames of the
    animation loop and clicks on the integrator buttons the charge is
    pinned, at rest, and where the pointer was last reported - where it
    was before, if the pointer has not moved - whatever the frames have
    done to the other charges; and the [mouseup] or [mouseleave] that
    ends the drag leaves it there, at rest and not pinned, even if it was
    pinned before the drag.  Charge, mass and [_r] are as before. *)
Theorem drag_and_drop (r : Rect.t) (e : MouseEvent.t) (w : World.t) (i : nat)
    (evs : list Event) :
  Pick.best (pick sq (getMousePos r e) w) = Some (ChargeRef i) →
  Forall quiet evs →
  ∃ c held dropped,
    World.charges w !! i = Some c
    ∧ World.charges (play L sq evs (mousedown sq r e w)) !! i = Some held
    ∧ World.charges (mouseup (play L sq evs (mousedown sq r e w))) !! i
      = Some dropped
    ∧ World.dragging (mouseup (play L sq evs (mousedown sq r e w))) = None
    ∧ snapshot (Dot.charge held)
      = State.mk
          (pointerAfter evs (Charge.x (Dot.charge c), Charge.y (Dot.charge c))).1
          (pointerAfter evs (Charge.x (Dot.charge c), Charge.y (Dot.charge c))).2
          0 0
    ∧ Charge.pinned (Dot.charge held) = true
    ∧ snapshot (Dot.charge dropped) = snapshot (Dot.charge held)
    ∧ Charge.pinned (Dot.charge dropped) = false
    ∧ Charge.q (Dot.charge held) = Charge.q (Dot.charge c)
    ∧ Charge.m (Dot.charge held) = Charge.m (Dot.charge c)
    ∧ Dot._r held = Dot._r c
    ∧ Charge.q (Dot.charge dropped) = Charge.q (Dot.charge c)
    ∧ Charge.m (Dot.charge dropped) = Charge.m (Dot.charge c)
    ∧ Dot._r dropped = Dot._r c.
Proof.
  intros Hb Hq.
  pose proof (pick_spec sq (getMousePos r e) w) as H.
  rewrite Hb in H. destruct H as (c & Hc & _).
  set (w1 := mousedown sq r e w).
  assert (Hdr : World.dragging w1 = Some (ChargeRef i)).
  { unfold w1, mousedown. by rewrite Hb. }
  assert (Hd : World.charges w1 !! i = Some (grabCharge c)).
  { unfold w1, mousedown. rewrite Hb. cbn [update World.charges].
    by rewrite list_lookup_alter_eq, Hc. }
  destruct (held_through_quiet_events evs w1 i
              (Charge.x (Dot.charge c), Charge.y (Dot.charge c)) c
              (grabCharge c) Hq Hdr Hd)
    as (Hdr' & held & Hheld & Hs & Hp & Hq' & Hm & Hr).
  { by unfold heldAt. }
  exists c, held, (releaseCharge held). do 2 (split; [done|]).
  split.
  { unfold mouseup. rewrite Hdr'. cbn [update World.charges].
    by rewrite list_lookup_alter_eq, Hheld. }
  split.
  { unfold mouseup. by rewrite Hdr'. }
  by repeat split.
Qed.

End Dragging.

(** ** The theorems above on inputs *)

Section MoreRuns.
Local Open Scope float_scope.

Lemma legacy_stepPhysics_is_magnet_free_witness :
  Legacy.stepPhysics (NT := Float64 libm_ref) threes 1 scenario_options
  = stepPhysics (NT := Float64 libm_ref) threes [] 1 scenario_options.
Proof.
  apply (legacy_stepPhysics_is_magnet_free (NT := Float64 libm_ref)).
  reflexivity.
Defined.

Lemma field_step_uses_the_field_of_the_others_witness :
  ∃ c', stepPhysicsUsingFields (NT := Float64 libm_ref) threes 1
          scenario_options !! 0%nat = Some c'
    ∧ Charge.ax c'
      = 3 * (electricFieldAt (NT := Float64 libm_ref) 0 0
               [charge 5 0 0 0 3 1 false] scenario_options).1 / 1
    ∧ Charge.ay c'
      = 3 * (electricFieldAt (NT := Float64 libm_ref) 0 0
               [charge 5 0 0 0 3 1 false] scenario_options).2 / 1.
Proof.
  apply (field_step_uses_the_field_of_the_others (NT := Float64 libm_ref)
           threes 1 scenario_options 0 (charge 0 0 0 0 3 1 false)).
  reflexivity.
Defined.

Lemma electricFieldAt_at_a_charge_witness :
  electricFieldAt (NT := Float64 libm_ref) 0 0 [plus_pole; minus_pole]
    unsoftened = (nan, nan).
Proof.
  apply (electricFieldAt_at_a_charge libm_ref plus_pole
           [plus_pole; minus_pole] unsoftened).
  - constructor.
  - reflexivity.
  - reflexivity.
  - by left.
Defined.

Lemma magneticFieldAt_at_the_magnet_witness :
  magneticFieldAt (NT := Float64 libm_ref) 0 0 bar unsoftened = (nan, nan)
  ∧ totalMagneticFieldAt (NT := Float64 libm_ref) 0 0 [bar; bar] unsoftened
    = (nan, nan).
Proof.
  destruct (magneticFieldAt_at_the_magnet libm_ref bar [bar; bar] unsoftened)
    as [H1 H2].
  - reflexivity.
  - reflexivity.
  - by left.
  - split; [exact H1|]. apply H2. constructor.
Defined.

Lemma coincident_charges_become_nan_witness :
  (∃ c', computeAccelerations (NT := Float64 libm_ref) stacked [] unsoftened
         !! 0%nat = Some c'
     ∧ Charge.ax c' = nan ∧ Charge.ay c' = nan)
  ∧ (∃ c', stepPhysics (NT := Float64 libm_ref) stacked [] 1 unsoftened
           !! 0%nat = Some c'
       ∧ Charge.x c' = nan ∧ Charge.y c' = nan
       ∧ Charge.vx c' = nan ∧ Charge.vy c' = nan).
Proof.
  destruct (coincident_charges_become_nan libm_ref stacked [] 1 unsoftened
              0 1 light light) as [H1 H2]; try reflexivity.
  - lia.
  - by left.
  - split; [exact H1|]. apply H2. reflexivity.
Defined.

Lemma rk4_coincident_charges_become_nan_witness :
  ∃ c', stepPhysicsRK4 (NT := Float64 libm_ref) stacked [] 1 unsoftened
        !! 0%nat = Some c'
    ∧ Charge.x c' = nan ∧ Charge.y c' = nan
    ∧ Charge.vx c' = nan ∧ Charge.vy c' = nan.
Proof.
  apply (rk4_coincident_charges_become_nan libm_ref stacked [] 1 unsoftened
           0 1 light light); try reflexivity.
  - lia.
  - by left.
Defined.

Lemma frame_step_at_most_30ms_witness :
  (0x1.eb851eb851eb8p-6 <? frameStep 1016 1000) = false
  ∧ (frameStep 1016 1000 <=? 0x1.eb851eb851eb8p-6) = true
  ∧ (frameStep 1016 1000 <=? (1016 - 1000) / 1000) = true
  ∧ frameStep nan 1000 = nan.
Proof.
  destruct (frame_step_at_most_30ms 1016 1000) as (H1 & H2 & _).
  destruct (frame_step_at_most_30ms nan 1000) as (_ & _ & H3).
  destruct (H2 eq_refl) as [Ha Hb].
  split; [exact H1|]. split; [exact Ha|]. split; [exact Hb|].
  exact (H3 eq_refl).
Defined.

Lemma radius_between_6_and_20_witness :
  (6 <=? radius (Dot.mk (heavy 7) None)) = true
  ∧ (radius (Dot.mk (heavy 7) None) <=? 20) = true.
Proof.
  apply (radius_between_6_and_20 (Dot.mk (heavy 7) None)); reflexivity.
Defined.

Lemma added_objects_witness :
  (∃ c, addCharge 2 nan [] = [c]
     ∧ Charge.q (Dot.charge c) = 2 ∧ Charge.m (Dot.charge c) = 1)
  ∧ (∃ m, addMagnet 0 [] = [m] ∧ Magnet.strength (Bar.magnet m) = 10).
Proof.
  destruct (added_objects 2 nan 0 [] [])
    as [(c & Hc & _ & _ & _ & _ & _ & Hq & _ & _ & Hm)
        (m & Hmag & _ & _ & _ & _ & _ & Hs)].
  split.
  - exists c. split; [exact Hc|]. split; [exact (Hq eq_refl)|].
    exact (Hm eq_refl).
  - exists m. split; [exact Hmag|]. exact (Hs eq_refl).
Defined.

Lemma getMousePos_natural_size_witness :
  getMousePos natural (MouseEvent.mk 5 5) = (5 - 0, 5 - 0).
Proof.
  apply (getMousePos_natural_size natural (MouseEvent.mk 5 5)); reflexivity.
Defined.

Lemma mousedown_picks_the_nearest_witness :
  ∃ c, World.charges desk !! 0%nat = Some c
    ∧ onCharge square (1, 0) c = true
    ∧ (∀ j c', World.charges desk !! j = Some c' →
         onCharge square (1, 0) c' = true →
         (chargeDist2 square (1, 0) c' <? chargeDist2 square (1, 0) c) = false
         ∧ ((j < 0)%nat →
            (chargeDist2 square (1, 0) c <? chargeDist2 square (1, 0) c')
            = true))
    ∧ (∀ j m, World.magnets desk !! j = Some m →
         onMagnet square (1, 0) m = true →
         (magnetDist2 square (1, 0) m <? chargeDist2 square (1, 0) c) = false).
Proof. exact (mousedown_picks_the_nearest square (1, 0) desk). Defined.

Lemma mousedown_off_target_witness :
  mousedown square natural (MouseEvent.mk 100 100) desk = desk.
Proof.
  apply (mousedown_off_target square natural (MouseEvent.mk 100 100) desk).
  - repeat constructor.
  - repeat constructor.
Defined.

Lemma drag_and_drop_witness :
  ∃ c held dropped,
    World.charges desk !! 0%nat = Some c
    ∧ World.charges
        (play libm_ref square gesture
           (mousedown square natural (MouseEvent.mk 1 0) desk)) !! 0%nat
      = Some held
    ∧ World.charges
        (mouseup (play libm_ref square gesture
                    (mousedown square natural (MouseEvent.mk 1 0) desk)))
      !! 0%nat = Some dropped
    ∧ World.dragging
        (mouseup (play libm_ref square gesture
                    (mousedown square natural (MouseEvent.mk 1 0) desk)))
      = None
    ∧ snapshot (Dot.charge held)
      = State.mk
          (pointerAfter gesture
             (Charge.x (Dot.charge c), Charge.y (Dot.charge c))).1
          (pointerAfter gesture
             (Charge.x (Dot.charge c), Charge.y (Dot.charge c))).2
          0 0
    ∧ Charge.pinned (Dot.charge held) = true
    ∧ snapshot (Dot.charge dropped) = snapshot (Dot.charge held)
    ∧ Charge.pinned (Dot.charge dropped) = false
    ∧ Charge.q (Dot.charge held) = Charge.q (Dot.charge c)
    ∧ Charge.m (Dot.charge held) = Charge.m (Dot.charge c)
    ∧ Dot._r held = Dot._r c
    ∧ Charge.q (Dot.charge dropped) = Charge.q (Dot.charge c)
    ∧ Charge.m (Dot.charge dropped) = Charge.m (Dot.charge c)
    ∧ Dot._r dropped = Dot._r c.
Proof.
  apply (drag_and_drop libm_ref square natural (MouseEvent.mk 1 0) desk 0
           gesture).
  - reflexivity.
  - repeat constructor.
Defined.

End MoreRuns.

Section MoreExactRuns.
Local Open Scope R_scope.

(** *** Two charges three apart, one of them moving *)

Lemma passing_masses : Forall (λ c : Charge.t R, Charge.m c ≠ 0) passing.
Proof. repeat constructor; cbn; lra. Qed.

Lemma passing_apart : apart 0 passing.
Proof.
  intros i j a b Ha Hb Hij.
  destruct i as [|[|i]], j as [|[|j]]; simplify_eq/=; lra.
Qed.

Lemma passing_offMagnets : offMagnets 0 passing [rbar].
Proof. repeat constructor; cbn; lra. Qed.

(** Their increments have magnitude [1/9]. *)
Lemma passing_unclamped : noClampFires (NT := Exact) 1 0 2000 passing.
Proof.
  intros i j a b Ha Hb Hij.
  destruct i as [|[|i]], j as [|[|j]]; simplify_eq/=; try lia.
  unfold rawIncA, rawIncB, pairForce. simpl.
  replace ((1 - 4) * (1 - 4) + (0 - 0) * (0 - 0) + 0 * 0) with 9 by ring.
  replace (sqrt 9) with 3 by (symmetry; apply sqrt_lem_1; lra).
  split; apply Rgtb_sqrt_small; lra.
Qed.

(** With [maxAccel = 0.5] the increments of the two unit charges one
    apart, of magnitude [1], are clamped. *)
Lemma electric_acceleration_bounded_exact_witness :
  ∃ c', computeAccelerations (NT := Exact) near_pair []
          (Options.mk None (Some 0) None (Some (1 / 2))) !! 0%nat
        = Some c'
    ∧ sqrt (Charge.ax c' * Charge.ax c' + Charge.ay c' * Charge.ay c')
      <= INR (2 - 1) * (1 / 2).
Proof.
  apply (electric_acceleration_bounded_exact near_pair
           (Options.mk None (Some 0) None (Some (1 / 2))) 0
           (rcharge 0 0 0 0 1 1 false)).
  - cbn. lra.
  - exact near_pair_masses.
  - exact near_pair_apart.
  - reflexivity.
Defined.

Lemma total_force_is_zero_exact_witness :
  Rsum ((λ c, Charge.m c * Charge.ax c)
          <$> computeAccelerations (NT := Exact) near_pair [] no_soft) = 0
  ∧ Rsum ((λ c, Charge.m c * Charge.ay c)
            <$> computeAccelerations (NT := Exact) near_pair [] no_soft) = 0.
Proof.
  apply (total_force_is_zero_exact near_pair no_soft).
  - exact near_pair_unclamped.
  - exact near_pair_masses.
  - exact near_pair_apart.
Defined.

Lemma euler_conserves_momentum_exact_witness :
  Rsum ((λ c, Charge.m c * Charge.vx c)
          <$> stepPhysics (NT := Exact) passing [] 2 no_soft)
  = Rsum ((λ c, Charge.m c * Charge.vx c) <$> passing)
  ∧ Rsum ((λ c, Charge.m c * Charge.vy c)
            <$> stepPhysics (NT := Exact) passing [] 2 no_soft)
    = Rsum ((λ c, Charge.m c * Charge.vy c) <$> passing).
Proof.
  apply (euler_conserves_momentum_exact passing 2 no_soft).
  - exact passing_unclamped.
  - exact passing_masses.
  - exact passing_apart.
  - repeat constructor.
  - reflexivity.
Defined.

(** At [(2, 0)], to the right of the two unit charges, the field points
    to the right and an arrow is drawn. *)
Lemma field_arrow_length_exact_witness :
  ∃ a, fieldArrowAt (NT := Exact) (CT := CanvasExact) 2 0 near_pair plain
       = Some a
    ∧ let E := electricFieldAt (NT := Exact) 2 0 near_pair
                 (Options.mk None None None None) in
      sqrt (a.1 * a.1 + a.2 * a.2)
      = Rmin (sqrt (E.1 * E.1 + E.2 * E.2) * 20) (32 * (9 / 10))
      ∧ sqrt (a.1 * a.1 + a.2 * a.2) <= 32 * (9 / 10)
      ∧ ∃ f : R, 0 <= f ∧ a.1 = f * E.1 ∧ a.2 = f * E.2.
Proof.
  assert (Hoff : offCharges (default (1 / 10) (DrawOptions.softening plain))
                   2 0 near_pair) by (repeat constructor; cbn; lra).
  assert (Hs : 0 <= default 20 (DrawOptions.fieldScale plain)) by (cbn; lra).
  assert (Hsp : 0 <= spacingOf (CT := CanvasExact) plain) by (cbn; lra).
  pose proof (field_arrow_length_exact 2 0 near_pair plain eq_refl Hs Hsp Hoff)
    as H.
  destruct (fieldArrowAt (NT := Exact) (CT := CanvasExact) 2 0 near_pair plain)
    as [a|].
  - exists a. split; [reflexivity|exact H].
  - exfalso. apply (f_equal fst) in H. revert H.
    unfold electricFieldAt, near_pair, rcharge, plain.
    cbn [foldl fst snd Options.k Options.softening DrawOptions.k
         DrawOptions.softening default Charge.x Charge.y
         Charge.q nadd nsub nmul ndiv nsqrt num_0 num_1 num_tenth Exact].
    set (r1 := (2 - 0) * (2 - 0) + (0 - 0) * (0 - 0) + 1 / 10 * (1 / 10)).
    set (r2 := (2 - 1) * (2 - 1) + (0 - 0) * (0 - 0) + 1 / 10 * (1 / 10)).
    assert (H1 : 0 < r1) by (unfold r1; lra).
    assert (H2 : 0 < r2) by (unfold r2; lra).
    pose proof (sqrt_lt_R0 r1 H1) as S1. pose proof (sqrt_lt_R0 r2 H2) as S2.
    assert (U : 0 < / (sqrt r1 * r1)) by (apply Rinv_0_lt_compat; nra).
    assert (V : 0 < / (sqrt r2 * r2)) by (apply Rinv_0_lt_compat; nra).
    unfold Rdiv. lra.
Defined.


(** The first charge moves at [(3, 4)] and the damping is [0.5]: after
    a step of no duration it is where it was, at [(1, 0)], with the
    velocity [(1.5, 2)]. *)
Lemma zero_step_only_damps_exact_witness :
  (∃ c', stepPhysics (NT := Exact) passing [rbar] 0 half_damped !! 0%nat
         = Some c'
     ∧ Charge.x c' = 1 ∧ Charge.y c' = 0
     ∧ Charge.vx c' = 3 * (1 / 2) ∧ Charge.vy c' = 4 * (1 / 2))
  ∧ (∃ c', stepPhysicsRK4 (NT := Exact) passing [rbar] 0 half_damped !! 0%nat
           = Some c'
       ∧ Charge.x c' = 1 ∧ Charge.y c' = 0
       ∧ Charge.vx c' = 3 * (1 / 2) ∧ Charge.vy c' = 4 * (1 / 2)).
Proof.
  assert (HM : 0 <= default 2000 (Options.maxAccel half_damped))
    by (cbn; lra).
  destruct (zero_step_only_damps_exact passing [rbar] half_damped 0
              (rcharge 1 0 3 4 1 1 false) HM passing_masses passing_apart
              passing_offMagnets eq_refl)
    as [(a & Ha & Hx & Hy & Hv) (b & Hb & Hx' & Hy' & Hv')].
  split.
  - exists a. split; [exact Ha|]. split; [exact Hx|]. split; [exact Hy|].
    exact (Hv eq_refl).
  - exists b. split; [exact Hb|]. split; [exact Hx'|]. split; [exact Hy'|].
    exact (Hv' eq_refl).
Defined.

End MoreExactRuns.
